(** * go-bundler: a shallow embedding of the compiler pipeline and of the
    build orchestrator, with the properties of its specification.

    The development follows the two packages of the repository:
    - [jsLoader] (jsLoader.go and the parser that follows it in the same
      source file): import-path resolution, the recursive-descent parser
      and the module transform;
    - [main] (the bundler): the build cache, [addFileToBundle],
      [createBundle] and the invocation order of [getJsBundleFileTail].

    Go values are modelled as the code has them: strings as [string],
    byte slices as [list byte], slices as lists (with the spare capacity
    of the token slice kept where the code slices beyond its length),
    maps as [gmap], panics and errors as explicit outcomes. *)

From stdpp Require Import gmap strings list fin_maps sets relations.
From Stdlib Require Import ZArith Ascii Strings.Byte Lia.

Local Open Scope string_scope.
Local Open Scope list_scope.

Set Warnings "-register-all".

(** ** Go's [strings] and [path/filepath] helpers used by the code *)

Module GoStr.

(** [strings.Split(s, sep)] for a one-byte separator: the result is never
      empty, and [Split "" sep = [""]]. *)
Fixpoint Split (s : string) (sep : ascii) : list string :=
    match s with
    | EmptyString => [EmptyString]
    | String c s' =>
        if Ascii.eqb c sep then EmptyString :: Split s' sep
        else match Split s' sep with
             | [] => [String c EmptyString]
             | h :: t => String c h :: t
             end
    end.

(** [strings.Join(elems, sep)]. *)
Fixpoint Join (elems : list string) (sep : string) : string :=
    match elems with
    | [] => ""
    | [e] => e
    | e :: rest => e +:+ sep +:+ Join rest sep
    end.

(** [strings.Index(s, c) >= 0] for a one-byte needle. *)
Fixpoint Contains (s : string) (c : ascii) : bool :=
    match s with
    | EmptyString => false
    | String x s' => Ascii.eqb x c || Contains s' c
    end.

(** [strings.Replace(s, old, new, -1)] for one-byte [old] and [new]. *)
Fixpoint ReplaceAll (s : string) (old new : ascii) : string :=
    match s with
    | EmptyString => EmptyString
    | String x s' =>
        String (if Ascii.eqb x old then new else x) (ReplaceAll s' old new)
    end.

(** [filepath.Ext]: the suffix that starts at the last dot of the last
      slash-separated element; empty when that element has no dot.  The
      scan runs from the end of the string, as in Go; [ext_scan] returns
      the suffix found so far together with a flag telling that the scan
      has stopped (a dot or a separator was met on the way back). *)
Fixpoint ext_scan (s : string) : string * bool :=
    match s with
    | EmptyString => (EmptyString, false)
    | String c s' =>
        let '(r, stopped) := ext_scan s' in
        if stopped then (r, true)
        else if Ascii.eqb c "/" then (EmptyString, true)
        else if Ascii.eqb c "." then (String c s', true)
        else (EmptyString, false)
    end.

Definition Ext (path : string) : string := fst (ext_scan path).

(** [s[:len(s)-1]] on a slice: a run-time panic when the slice is empty. *)
Definition dropLast {A} (l : list A) : option (list A) :=
    match l with
    | [] => None
    | _ => Some (removelast l)
    end.

(** [s[1:]] on a slice: a run-time panic when the slice is empty. *)
Definition dropFirst {A} (l : list A) : option (list A) :=
    match l with
    | [] => None
    | _ :: t => Some t
    end.

(** [indexOf] of the bundler: the first index of [str] in [arr], -1 when
      absent; [None] stands for -1. *)
Fixpoint indexOf (arr : list string) (str : string) : option nat :=
    match arr with
    | [] => None
    | item :: rest =>
        if decide (item = str) then Some 0
        else S <$> indexOf rest str
    end.

End GoStr.

(** ** Go code that reads and writes a state and can panic *)

Module GoRun.

(** What a Go panic carries: the value the parser panics with, or a
    run-time error (index or slice out of range). *)
Inductive panicValue (E : Type) :=
| PanicWith (e : E)
| RuntimeError.
Arguments PanicWith {E} e.
Arguments RuntimeError {E}.

(** [OutOfFuel] is not a behaviour of the code: it says that the bound on
    recursion depth and loop iterations given to the model was reached. *)
Inductive outcome (E A : Type) :=
| Ok (a : A)
| Panic (v : panicValue E)
| OutOfFuel.
Arguments Ok {E A} a.
Arguments Panic {E A} v.
Arguments OutOfFuel {E A}.

(** Code that reads and writes a state of type [St] and may panic. *)
Definition M (E St A : Type) : Type := St → outcome E (A * St).

Definition ret {E St A} (a : A) : M E St A := λ s, Ok (a, s).

Definition bind {E St A B} (c : M E St A) (k : A → M E St B) : M E St B :=
  λ s, match c s with
       | Ok (a, s') => k a s'
       | Panic v => Panic v
       | OutOfFuel => OutOfFuel
       end.

Definition get {E St} : M E St St := λ s, Ok (s, s).
Definition put {E St} (s : St) : M E St unit := λ _, Ok (tt, s).
Definition modify {E St} (f : St → St) : M E St unit := λ s, Ok (tt, f s).
Definition panic {E St A} (v : panicValue E) : M E St A := λ _, Panic v.
Definition outOfFuel {E St A} : M E St A := λ _, OutOfFuel.

(** An indexing [l[i]] that panics out of range. *)
Definition elemAt {E St A} (l : list A) (i : nat) : M E St A :=
  match l !! i with
  | Some x => ret x
  | None => panic RuntimeError
  end.

(** An operation that panics with a run-time error when it has no result. *)
Definition orPanic {E St A} (o : option A) : M E St A :=
  match o with
  | Some x => ret x
  | None => panic RuntimeError
  end.

Declare Scope go_scope.
Delimit Scope go_scope with go.
Notation "x <- c1 ;; c2" := (bind c1 (λ x, c2))
  (at level 20, c1 at level 99, c2 at level 200, only parsing) : go_scope.
Notation "' pat <- c1 ;; c2" := (bind c1 (λ x, match x with pat => c2 end))
  (at level 20, pat pattern, c1 at level 99, c2 at level 200, only parsing)
  : go_scope.
Notation "c1 ;; c2" := (bind c1 (λ _, c2))
  (at level 100, c2 at level 200, only parsing, right associativity)
  : go_scope.
Local Open Scope go_scope.

(** [for _, x := range l { acc = body(acc, x) }]. *)
Fixpoint forRange {E St A B} (l : list A) (body : B → A → M E St B) (acc : B)
  : M E St B :=
  match l with
  | [] => ret acc
  | x :: rest => acc' <- body acc x ;; forRange rest body acc'
  end.

(** [children = append(children, f(c))] for each [c] of [l]. *)
Definition mapM {E St A B} (f : A → M E St B) (l : list A) : M E St (list B) :=
  forRange l (λ acc x, y <- f x ;; ret (acc ++ [y])) [].

(** A Go [for] loop whose body tells whether to go on ([true]) or to leave
    ([false], a [break] or a false condition); at most [fuel] rounds. *)
Fixpoint loop {E St A} (fuel : nat) (body : A → M E St (A * bool)) (acc : A)
  : M E St A :=
  match fuel with
  | 0 => outOfFuel
  | S f =>
      '(acc', again) <- body acc ;;
      if again : bool then loop f body acc' else ret acc'
  end.

End GoRun.

(** ** Package jsLoader: path resolution *)

Module JsLoader.

Import GoStr GoRun.
Local Open Scope go_scope.

(** CreateVarNameFromPath: slashes, dots and dashes become underscores. *)
Definition CreateVarNameFromPath (path : string) : string :=
    let newName := ReplaceAll path "/" "_" in
    let newName := ReplaceAll newName "." "_" in
    let newName := ReplaceAll newName "-" "_" in
    newName.

Section Resolve.

(** [trimQuotesFromString] is declared in a file of the package that is
        not part of the sources at hand; the resolver takes it as a
        parameter. *)
Variable trimQuotesFromString : string → string.

(** The body of the [for _, part := range pathParts] loop.  The range
        expression is evaluated once, so the loop visits the parts of the
        path as they were before the loop ([parts]), while the body
        re-slices the two variables. *)
Fixpoint resolveLoop (parts locationParts pathParts : list string)
      : option (list string * list string) :=
      match parts with
      | [] => Some (locationParts, pathParts)
      | part :: rest =>
          '(locationParts, pathParts) ←
            (if decide (part = "..") then
               l ← dropLast locationParts;
               p ← dropFirst pathParts;
               Some (l, p)
             else Some (locationParts, pathParts));
          pathParts ←
            (if decide (part = ".") then dropFirst pathParts
             else Some pathParts);
          resolveLoop rest locationParts pathParts
      end.

(** resolveES6ImportPath; [None] is a run-time panic (a slice or an
        index out of range). *)
Definition resolveES6ImportPath (importPath currentFileName : string)
      : option string :=
      let importPath := trimQuotesFromString importPath in
      let pathParts := Split importPath "/" in
      let locationParts := Split currentFileName "/" in
      locationParts ← dropLast locationParts;
      let '(locationParts, pathParts) :=
        match pathParts with
        | first :: _ =>
            if bool_decide (first ≠ ".") && bool_decide (first ≠ "..") then
              (["node_modules"],
               if decide (length pathParts = 1) then pathParts ++ ["index.js"]
               else pathParts)
            else (locationParts, pathParts)
        | [] => (locationParts, pathParts)
        end in
      '(locationParts, pathParts) ←
        resolveLoop pathParts locationParts pathParts;
      let fullFileName := Join (locationParts ++ pathParts) "/" in
      lastPart ← last pathParts;
      let ext := if Contains lastPart "." then "" else ".js" in
      Some (fullFileName +:+ ext).

End Resolve.

(** ** Package jsLoader: syntax trees *)

(** The grammar tags the sources name.  Their declaration (an integer
    enumeration) is in a file of the package that is not at hand; the
    tags it may declare beyond these are [g_OTHER]. *)
Inductive grammarType :=
| g_NAME | g_MEMBER_EXPRESSION | g_EXPRESSION | g_EXPRESSION_STATEMENT
| g_EXPORT_VAR | g_EMPTY_EXPRESSION | g_STRING_LITERAL | g_RETURN_STATEMENT
| g_IMPORT_ALIAS | g_FUNCTION_PARAMETERS | g_FUNCTION_PARAMETER
| g_FUNCTION_CALL | g_EXPORT_PATH | g_EXPORT_NAME | g_DECLARATOR
| g_SEQUENCE_EXPRESSION | g_PROGRAM_STATEMENT | g_OBJECT_PROPERTY
| g_OBJECT_LITERAL | g_LAMBDA_EXPRESSION | g_IMPORT_VAR | g_IMPORT_STATEMENT
| g_IMPORT_NAME | g_IF_STATEMENT | g_FUNCTION_EXPRESSION | g_FUNCTION_ARGS
| g_EXPORT_STATEMENT | g_EXPORT_ALIAS | g_DECLARATION_STATEMENT
| g_DECLARATION_EXPRESSION | g_CONSTRUCTOR_CALL | g_BLOCK_STATEMENT
| g_WHILE_STATEMENT | g_VALID_PROPERTY_NAME | g_UNDEFINED
| g_UNARY_PREFIX_EXPRESSION | g_UNARY_POSTFIX_EXPRESSION
| g_TRY_CATCH_STATEMENT | g_THROW_STATEMENT | g_THIS | g_SWITCH_STATEMENT
| g_SWITCH_DEFAULT | g_SWITCH_CASE_TEST | g_SWITCH_CASE_STATEMENTS
| g_SWITCH_CASES | g_SWITCH_CASE | g_REGEXP_LITERAL | g_PARENS_EXPRESSION
| g_OBJECT_PATTERN | g_NUMBER_LITERAL | g_NULL | g_MULTISTATEMENT
| g_MEMBER_FUNCTION | g_MARKER | g_IMPORT_VARS | g_IMPORT_PATH | g_IMPORT_ALL
| g_HEX_LITERAL | g_FUNCTION_DECLARATION | g_FOR_STATEMENT
| g_FOR_OF_STATEMENT | g_FOR_IN_STATEMENT | g_EXPORT_VARS
| g_EXPORT_DECLARATION | g_EMPTY_STATEMENT | g_DO_WHILE_STATEMENT
| g_DEBUGGER_STATEMENT | g_CONTINUE_STATEMENT | g_CONDITIONAL_EXPRESSION
| g_CALCULATED_PROPERTY_NAME | g_BREAK_STATEMENT | g_BOOL_LITERAL
| g_ASSIGNMENT_PATTERN | g_ARRAY_LITERAL
| g_OTHER (code : nat).

(** [astNode]: tag, payload, owned children and the flag bits.  A [nil]
    children slice and an empty one are both the empty list. *)
Inductive astNode :=
  AstNode (t : grammarType) (value : string) (children : list astNode)
          (flags : Z).

Definition t (n : astNode) : grammarType := let 'AstNode x _ _ _ := n in x.
Definition value (n : astNode) : string := let 'AstNode _ x _ _ := n in x.
Definition children (n : astNode) : list astNode :=
  let 'AstNode _ _ x _ := n in x.
Definition flags (n : astNode) : Z := let 'AstNode _ _ _ x := n in x.

Definition set_t (n : astNode) (x : grammarType) : astNode :=
  AstNode x (value n) (children n) (flags n).
Definition set_value (n : astNode) (x : string) : astNode :=
  AstNode (t n) x (children n) (flags n).
Definition set_children (n : astNode) (x : list astNode) : astNode :=
  AstNode (t n) (value n) x (flags n).
Definition set_flags (n : astNode) (x : Z) : astNode :=
  AstNode (t n) (value n) (children n) x.

Definition f_FUNCTION_PARAM_REST : Z := Z.shiftl 1 0.
Definition f_EXPORT_ALL : Z := Z.shiftl 1 1.

Definition makeNode (t : grammarType) (value : string)
  (children : list astNode) : astNode :=
  AstNode t value children 0.

(** ** Package jsLoader: the module transform *)

(** The scope table: the imported bindings of a scope and its parent. *)
Inductive context :=
  Context (importedVars : gmap string astNode) (parent : option context).

Definition importedVars (c : context) : gmap string astNode :=
  let 'Context m _ := c in m.
Definition parent (c : context) : option context :=
  let 'Context _ p := c in p.

(** getImportedVariable: the lookup that walks outward through the parents;
    past the root it dereferences a nil pointer ([None]). *)
Fixpoint getImportedVariable (ctx : context) (name : astNode)
  : option astNode :=
  let 'Context vars up := ctx in
  match vars !! value name with
  | Some v => Some v
  | None =>
      match up with
      | Some p => getImportedVariable p name
      | None => None
      end
  end.

(** The state of one run of transformIntoModule: the captured variable
    [fileImports] and the one [context] the run allocates, which every
    call receives through the same pointer. *)
Record transformState := TransformState {
  fileImports : list string;
  ctx : context;
}.

Definition T := M Empty_set transformState.

Definition addFileImport (p : string) : T unit :=
  modify (λ s, TransformState (fileImports s ++ [p]) (ctx s)).

(** [ctx.importedVars[k] = v]. *)
Definition setImportedVar (k : string) (v : astNode) : T unit :=
  modify (λ s, TransformState (fileImports s)
                 (Context (<[k := v]> (importedVars (ctx s))) (parent (ctx s)))).

Definition lookupImportedVar (k : string) : T (option astNode) :=
  s <- get ;; ret (importedVars (ctx s) !! k).

Section Transform.

Variable trimQuotesFromString : string → string.

(** The zero value of [grammarType], the tag of [astNode{}]. *)
Variable g_zero : grammarType.

Variable fileName : string.

Definition zeroNode : astNode := AstNode g_zero "" [] 0.

Definition resolvePath (importPath : string) : T string :=
  orPanic (resolveES6ImportPath trimQuotesFromString importPath fileName).

Section Modify.

(** [modifyAst], as the closures below call it. *)
Variable modifyAst : astNode → T astNode.

Definition modifyMemberExpression (n : astNode) : T astNode :=
  children' <- mapM modifyAst (children n) ;;
  let n := set_children n children' in
  c0 <- elemAt (children n) 0 ;;
  if bool_decide (value c0 = "module") then
    c1 <- elemAt (children n) 1 ;;
    if bool_decide (value c1 = "exports") then
      ret (set_children n
             (<[1 := set_value c1 "default"]>
                (<[0 := set_value c0 "exports"]> (children n))))
    else ret n
  else ret n.

Definition modifyImport (n : astNode) : T astNode :=
  children' <- mapM modifyAst (children n) ;;
  let n := set_children n children' in
  c0 <- elemAt (children n) 0 ;;
  let vars := children c0 in
  c1 <- elemAt (children n) 1 ;;
  let importAll := value c1 in
  c2 <- elemAt (children n) 2 ;;
  let importPath := value c2 in
  resolvedPath <- resolvePath importPath ;;
  addFileImport resolvedPath ;;
  let ext := Ext resolvedPath in
  let objectName := CreateVarNameFromPath resolvedPath in
  let object := makeNode g_NAME objectName [] in
  (if bool_decide (importAll ≠ "") then
     let alias := makeNode g_NAME importAll [] in
     setImportedVar (value alias) object
   else ret tt) ;;
  forRange vars (λ _ v,
    alias <- elemAt (children v) 1 ;;
    if bool_decide (ext = ".js") then
      property <- elemAt (children v) 0 ;;
      let moduleName := makeNode g_NAME objectName [] in
      let modulesObj := makeNode g_NAME "modules" [] in
      let moduleMember :=
        makeNode g_MEMBER_EXPRESSION "" [modulesObj; moduleName] in
      let member := makeNode g_MEMBER_EXPRESSION "" [moduleMember; property] in
      setImportedVar (value alias) member
    else
      let filePath := "'" +:+ objectName +:+ ext +:+ "'" in
      let fileURL := makeNode g_STRING_LITERAL filePath [] in
      setImportedVar (value alias) fileURL) tt ;;
  ret (makeNode g_EMPTY_EXPRESSION "" []).

Definition modifyFunctionCall (n : astNode) : T astNode :=
  children' <- mapM modifyAst (children n) ;;
  let n := set_children n children' in
  nameNode <- elemAt children' 0 ;;
  c1 <- elemAt children' 1 ;;
  let args := children c1 in
  if bool_decide (value nameNode = "require") then
    match args with
    | [arg0] =>
        match t arg0 with
        | g_STRING_LITERAL =>
            let path := value arg0 in
            resolvedPath <- resolvePath path ;;
            addFileImport resolvedPath ;;
            let objectName := CreateVarNameFromPath resolvedPath in
            let moduleName := makeNode g_NAME objectName [] in
            let modulesObj := makeNode g_NAME "modules" [] in
            let moduleMember :=
              makeNode g_MEMBER_EXPRESSION "" [modulesObj; moduleName] in
            let defaultName := makeNode g_NAME "default" [] in
            let moduleDefaultExport :=
              makeNode g_MEMBER_EXPRESSION "" [moduleMember; defaultName] in
            ret moduleDefaultExport
        | _ => ret n
        end
    | _ => ret n
    end
  else ret n.

Definition modifyProgram (n : astNode) : T astNode :=
  children' <- mapM modifyAst (children n) ;;
  let n := set_children n children' in
  let exportsObj := makeNode g_NAME "exports" [] in
  let statements :=
    let right := makeNode g_OBJECT_LITERAL "" [] in
    let decl := makeNode g_DECLARATOR "" [exportsObj; right] in
    let declExpr := makeNode g_DECLARATION_EXPRESSION "var" [decl] in
    let declSt := makeNode g_DECLARATION_STATEMENT "" [declExpr] in
    [declSt] in
  statements <-
    forRange (children n)
      (λ statements st, st' <- modifyAst st ;; ret (statements ++ [st']))
      statements ;;
  let ret_ := makeNode g_RETURN_STATEMENT "" [exportsObj] in
  let statements := statements ++ [ret_] in
  let params := makeNode g_FUNCTION_PARAMETERS "" [] in
  let blockSt := makeNode g_BLOCK_STATEMENT "" statements in
  let funcExpr := makeNode g_FUNCTION_EXPRESSION "" [params; blockSt] in
  let moduleFnsArray := makeNode g_NAME "moduleFns" [] in
  let moduleName := CreateVarNameFromPath fileName in
  let prop := makeNode g_NAME moduleName [] in
  let memExpr := makeNode g_MEMBER_EXPRESSION "" [moduleFnsArray; prop] in
  let assignmentExpr := makeNode g_EXPRESSION "=" [memExpr; funcExpr] in
  let assignmentSt := makeNode g_EXPRESSION_STATEMENT "" [assignmentExpr] in
  ret assignmentSt.

Definition modifyExport (n : astNode) : T astNode :=
  children' <- mapM modifyAst (children n) ;;
  let n := set_children n children' in
  c0 <- elemAt (children n) 0 ;;
  let vars := children c0 in
  let exportsObj := makeNode g_NAME "exports" [] in
  pathNode <- elemAt (children n) 2 ;;
  member <-
    (if bool_decide (value pathNode ≠ "") then
       resolvedPath <- resolvePath (value pathNode) ;;
       addFileImport resolvedPath ;;
       let objectName := CreateVarNameFromPath resolvedPath in
       let importObj := makeNode g_NAME objectName [] in
       let modulesObj := makeNode g_NAME "modules" [] in
       ret (makeNode g_MEMBER_EXPRESSION "" [modulesObj; importObj])
     else ret zeroNode) ;;
  if negb (bool_decide (Z.land (flags n) f_EXPORT_ALL ≠ 0%Z)) then
    assignments <-
      forRange vars (λ assignments v,
        exportedName <- elemAt (children v) 1 ;;
        let left := makeNode g_MEMBER_EXPRESSION "" [exportsObj; exportedName] in
        right <-
          (if bool_decide (value pathNode ≠ "") then
             property <- elemAt (children v) 0 ;;
             ret (makeNode g_MEMBER_EXPRESSION "" [member; property])
           else elemAt (children v) 0) ;;
        let d := makeNode g_EXPRESSION "=" [left; right] in
        ret (assignments ++ [d])) [] ;;
    let seqExpr := makeNode g_SEQUENCE_EXPRESSION "=" assignments in
    let exprSt := makeNode g_EXPRESSION_STATEMENT "" [seqExpr] in
    decl <- elemAt (children n) 1 ;;
    let multiSt := makeNode g_MULTISTATEMENT "" [decl; exprSt] in
    ret multiSt
  else
    let obj := makeNode g_NAME "Object" [] in
    let assign := makeNode g_NAME "assign" [] in
    let funcName := makeNode g_MEMBER_EXPRESSION "" [obj; assign] in
    let args := [exportsObj; member] in
    let argsNode := makeNode g_FUNCTION_ARGS "" args in
    let objectAssignCall := makeNode g_FUNCTION_CALL "" [funcName; argsNode] in
    let exprSt := makeNode g_EXPRESSION_STATEMENT "" [objectAssignCall] in
    ret exprSt.

(** The [switch n.t] of [modifyAst]. *)
Definition modifyAstBody (n : astNode) : T astNode :=
  match t n with
  | g_MEMBER_EXPRESSION => modifyMemberExpression n
  | g_FUNCTION_CALL => modifyFunctionCall n
  | g_EXPORT_STATEMENT => modifyExport n
  | g_PROGRAM_STATEMENT => modifyProgram n
  | g_IMPORT_STATEMENT => modifyImport n
  | g_NAME =>
      v <- lookupImportedVar (value n) ;;
      match v with
      | Some importedVar => ret importedVar
      | None => ret n
      end
  | _ =>
      children' <- mapM modifyAst (children n) ;;
      ret (set_children n children')
  end.

End Modify.

(** [modifyAst], with a bound on the depth of its recursion: the second
    pass of [modifyProgram] runs on trees the first pass has produced, so
    the recursion does not follow the structure of the input. *)
Fixpoint modifyAst (fuel : nat) (n : astNode) : T astNode :=
  match fuel with
  | 0 => outOfFuel
  | S f => modifyAstBody (modifyAst f) n
  end.

(** transformIntoModule. *)
Definition transformIntoModule (fuel : nat) (src : astNode)
  : outcome Empty_set (astNode * list string) :=
  let ctx := Context ∅ None in
  match modifyAst fuel src (TransformState [] ctx) with
  | Ok (res, s) => Ok (res, fileImports s)
  | Panic v => Panic v
  | OutOfFuel => OutOfFuel
  end.

End Transform.

(** ** Package jsLoader: the parser *)

(** The token kinds the parser names.  They are declared (an integer
    enumeration) with the scanner, in a file that is not at hand; the other
    kinds the scanner may produce, binary operators among them, are
    [tOTHER]. *)
Inductive tokenType :=
| tASSIGN | tBITWISE_AND_ASSIGN | tBITWISE_NOT | tBITWISE_OR_ASSIGN
| tBITWISE_SHIFT_LEFT_ASSIGN | tBITWISE_SHIFT_RIGHT_ASSIGN
| tBITWISE_SHIFT_RIGHT_ZERO_ASSIGN | tBITWISE_XOR_ASSIGN | tBRACKET_LEFT
| tBRACKET_RIGHT | tBREAK | tCASE | tCATCH | tCOLON | tCOMMA | tCONST
| tCONTINUE | tCURLY_LEFT | tCURLY_RIGHT | tDEBUGGER | tDEC | tDEFAULT
| tDELETE | tDIV | tDIV_ASSIGN | tDO | tDOT | tELSE | tEND_OF_INPUT | tESCAPE
| tEXPORT | tFALSE | tFINALLY | tFOR | tFUNCTION | tHEX | tIF | tIMPORT | tIN
| tINC | tLAMBDA | tLET | tMINUS | tMINUS_ASSIGN | tMULT | tMULT_ASSIGN
| tNAME | tNEW | tNEWLINE | tNOT | tNULL | tNUMBER | tPAREN_LEFT
| tPAREN_RIGHT | tPLUS | tPLUS_ASSIGN | tQUESTION | tRETURN | tSEMI | tSPREAD
| tSTRING | tSWITCH | tTHIS | tTHROW | tTRUE | tTRY | tTYPEOF | tUNDEFINED
| tVAR | tVOID | tWHILE | tYIELD
| tOTHER (code : nat).

#[global] Instance tokenType_eq_dec : EqDecision tokenType.
Proof. solve_decision. Defined.

Record token := Token {
  tType : tokenType;
  lexeme : string;
  line : Z;
  column : Z;
}.

(** A Go slice of tokens: the elements within its length, and the elements
    of its backing array between its length and its capacity, which a
    slice expression can reach. *)
Record tokenSlice := TokenSlice {
  elems : list token;
  spare : list token;
}.

Definition len (s : tokenSlice) : nat := length (elems s).
Definition cap (s : tokenSlice) : nat := length (elems s) + length (spare s).

(** [s[lo:hi]]: a run-time panic unless [0 <= lo <= hi <= cap(s)]; [lo] is
    given as an integer since the code computes it by a subtraction. *)
Definition sliceExpr (s : tokenSlice) (lo hi : Z) : option (list token) :=
  if bool_decide (0 ≤ lo ∧ lo ≤ hi ∧ hi ≤ Z.of_nat (cap s))%Z then
    Some (take (Z.to_nat hi - Z.to_nat lo)
            (drop (Z.to_nat lo) (elems s ++ spare s)))
  else None.

Record parserState := ParserState {
  sourceTokens : tokenSlice;
  index : nat;
  tok : token;
  globalFlagIsInsideForIn : bool;
}.

(** The kinds of parsing error the parser declares. *)
Inductive parsingErrorKind :=
| p_UNEXPECTED_TOKEN | p_WRONG_ASSIGNMENT | p_UNNAMED_FUNCTION.

Record parsingError := ParsingError {
  kind : parsingErrorKind;
  errTok : token;
  context_ : list token;
}.

(** An entry of [operatorTable]. *)
Record operator := Operator {
  precedence : Z;
  isRightAssociative : bool;
}.

Definition P := M parsingError parserState.

(** [p.sourceTokens[i]]. *)
Definition tokenAt (i : nat) : P token :=
  p <- get ;; elemAt (elems (sourceTokens p)) i.

(** The state after [next]: the index moves on, and the current token
    follows it while the index is within the slice. *)
Definition advance (p : parserState) : parserState :=
  let i := index p + 1 in
  match elems (sourceTokens p) !! i with
  | Some tk => ParserState (sourceTokens p) i tk (globalFlagIsInsideForIn p)
  | None => ParserState (sourceTokens p) i (tok p) (globalFlagIsInsideForIn p)
  end.

Definition next : P unit := modify advance.

Definition backtrack (backIndex : nat) : P unit :=
  tk <- tokenAt backIndex ;;
  modify (λ p, ParserState (sourceTokens p) backIndex tk
                 (globalFlagIsInsideForIn p)).

Definition setForIn (b : bool) : P unit :=
  modify (λ p, ParserState (sourceTokens p) (index p) (tok p) b).

Definition isType (tk : token) (tTypes : list tokenType) : bool :=
  existsb (λ ty, bool_decide (tType tk = ty)) tTypes.

(** The scan [for p.sourceTokens[i].tType == tNEWLINE { i++ }] of [test] and
    [getNoNewline], on the tokens from [i] on: it stops at the first token
    that is not a newline, and runs out of the slice ([None], an index out
    of range) when there is none. *)
Fixpoint firstNoNewline (l : list token) : option token :=
  match l with
  | [] => None
  | tk :: rest =>
      if bool_decide (tType tk = tNEWLINE) then firstNoNewline rest
      else Some tk
  end.

Definition getNoNewline : P token :=
  p <- get ;; orPanic (firstNoNewline (drop (index p) (elems (sourceTokens p)))).

Definition test (tTypes : list tokenType) : P bool :=
  tk <- getNoNewline ;; ret (isType tk tTypes).

Definition getLexeme : P string :=
  p <- get ;;
  match index p with
  | 0 => panic RuntimeError
  | S i => tk <- tokenAt i ;; ret (lexeme tk)
  end.

Definition getToken : P token :=
  p <- get ;;
  match index p with
  | 0 => panic RuntimeError
  | S i => tokenAt i
  end.

(** checkASI.  The panic value is built before the panic: its context
    window is the slice expression [sourceTokens[index-5 : index+5]], which
    is itself a run-time panic when it is out of bounds. *)
Definition checkASI (ty : tokenType) : P unit :=
  p <- get ;;
  if bool_decide (ty = tSEMI) && bool_decide (tType (tok p) = tNEWLINE) then
    next
  else if bool_decide (ty = tSEMI) &&
          (bool_decide (tType (tok p) = tCURLY_RIGHT) ||
           bool_decide (tType (tok p) = tEND_OF_INPUT)) then
    ret tt
  else
    match sliceExpr (sourceTokens p)
            (Z.of_nat (index p) - 5) (Z.of_nat (index p) + 5) with
    | Some window =>
        panic (PanicWith (ParsingError p_UNEXPECTED_TOKEN (tok p) window))
    | None => panic RuntimeError
    end.

Section Parser.

(** [operatorTable], [isLetter] and [isNumber] are declared with the
    scanner; a missing key of the table is [None]. *)
Variable operatorTable : tokenType → option operator.
Variable isLetter isNumber : ascii → bool.

(** The zero value of [grammarType], the tag of [astNode{}]. *)
Variable g_zero : grammarType.

(** The bound on the rounds of each loop. *)
Variable fuel : nat.

Definition zeroAst : astNode := AstNode g_zero "" [] 0.

(** accept; [tTypes = []] is the call without kinds ([tTypes == nil]). *)
Definition accept (tTypes : list tokenType) : P bool :=
  p0 <- get ;;
  let prevPos := index p0 in
  loop fuel (λ _,
    p <- get ;;
    if bool_decide (tType (tok p) = tNEWLINE) then next ;; ret (tt, true)
    else ret (tt, false)) tt ;;
  match tTypes with
  | [] => next ;; ret true
  | _ =>
      p <- get ;;
      if isType (tok p) tTypes then next ;; ret true
      else backtrack prevPos ;; ret false
  end.

Definition expect (ty : tokenType) : P unit :=
  ok <- accept [ty] ;;
  if ok then ret tt else checkASI ty.

(** isValidPropertyName, byte by byte (the code ranges over the runes of
    the name and truncates each to a byte, which is the same on ASCII). *)
Definition isValidPropertyName (name : string) : bool :=
  match name with
  | EmptyString => false
  | String c _ =>
      isLetter c &&
      forallb (λ symbol, isLetter symbol || isNumber symbol)
        (String.list_ascii_of_string name)
  end.

(** The parsing functions a function calls before its own definition. *)
Record parserRec := ParserRec {
  r_parseStatement : P astNode;
  r_parseExpression : P astNode;
  r_parseYield : P astNode;
  r_parseAssignment : P astNode;
  r_parseConditional : P astNode;
  r_parsePrefixUnary : P astNode;
  r_parseFunctionCallOrMember : bool → P astNode;
  r_parseAssignmentPattern : P astNode;
}.

Variable rec : parserRec.

Definition parseObjectPattern : P astNode :=
  properties <-
    loop fuel (λ properties,
      closed <- accept [tCURLY_RIGHT] ;;
      if closed then ret (properties, false) else
      isName <- accept [tNAME] ;;
      properties <-
        (if isName then
           lx <- getLexeme ;;
           let key := makeNode g_NAME lx [] in
           let prop := [key] in
           hasColon <- accept [tCOLON] ;;
           prop <-
             (if hasColon then
                pat <- r_parseAssignmentPattern rec ;; ret (prop ++ [pat])
              else ret prop) ;;
           ret (properties ++ [makeNode g_OBJECT_PROPERTY "" prop])
         else ret properties) ;;
      comma <- accept [tCOMMA] ;;
      if negb comma then expect tCURLY_RIGHT ;; ret (properties, false)
      else ret (properties, true)) [] ;;
  ret (makeNode g_OBJECT_PATTERN "" properties).

Definition parseAssignmentPattern : P astNode :=
  isCurly <- accept [tCURLY_LEFT] ;;
  left <-
    (if isCurly then parseObjectPattern
     else
       isName <- accept [tNAME] ;;
       if isName then lx <- getLexeme ;; ret (makeNode g_NAME lx [])
       else checkASI tSEMI ;; ret zeroAst) ;;
  isAssign <- accept [tASSIGN] ;;
  if isAssign then
    right <- r_parseExpression rec ;;
    ret (makeNode g_ASSIGNMENT_PATTERN "=" [left; right])
  else ret left.

Definition parseDeclarator : P astNode :=
  isCurly <- accept [tCURLY_LEFT] ;;
  left <-
    (if isCurly then l <- parseObjectPattern ;; ret (Some l)
     else
       isName <- accept [tNAME] ;;
       if isName then lx <- getLexeme ;; ret (Some (makeNode g_NAME lx []))
       else ret None) ;;
  match left with
  | None => ret zeroAst
  | Some lhs =>
      isAssign <- accept [tASSIGN] ;;
      if isAssign then
        rhs <- r_parseAssignment rec ;;
        ret (makeNode g_DECLARATOR "" [lhs; rhs])
      else ret (makeNode g_DECLARATOR "" [lhs])
  end.

Definition parseFunctionParameter : P astNode :=
  isSpread <- accept [tSPREAD] ;;
  if isSpread then
    isCurly <- accept [tCURLY_LEFT] ;;
    left <-
      (if isCurly then parseObjectPattern
       else
         isName <- accept [tNAME] ;;
         if isName then lx <- getLexeme ;; ret (makeNode g_NAME lx [])
         else ret zeroAst) ;;
    let n := makeNode g_FUNCTION_PARAMETER "" [left] in
    ret (set_flags n f_FUNCTION_PARAM_REST)
  else
    n <- parseDeclarator ;;
    ret (set_t n g_FUNCTION_PARAMETER).

(** parseFunctionParameters; the flag of the loop state records the early
    [return result] after the backtrack. *)
Definition parseFunctionParameters : P astNode :=
  p0 <- get ;;
  let startPos := index p0 in
  let result := AstNode g_FUNCTION_PARAMETERS "" [] 0 in
  '(params, returned) <-
    loop fuel (λ '(params, _),
      closed <- accept [tPAREN_RIGHT] ;;
      if closed then ret ((params, false), false) else
      param <- parseFunctionParameter ;;
      let params := params ++ [param] in
      comma <- accept [tCOMMA] ;;
      if negb comma then
        closed <- accept [tPAREN_RIGHT] ;;
        if negb closed then
          backtrack startPos ;; ret ((params, true), false)
        else ret ((params, false), false)
      else ret ((params, false), true)) ([], false) ;;
  if returned : bool then ret result
  else ret (set_children result params).

Definition parseBlockStatement : P astNode :=
  statements <-
    loop fuel (λ statements,
      closed <- accept [tCURLY_RIGHT] ;;
      if closed then ret (statements, false) else
      st <- r_parseStatement rec ;;
      ret (statements ++ [st], true)) [] ;;
  ret (makeNode g_BLOCK_STATEMENT "" statements).

Definition parseFunctionExpression : P astNode :=
  isName <- accept [tNAME] ;;
  name <- (if isName then getLexeme else ret "") ;;
  expect tPAREN_LEFT ;;
  params <- parseFunctionParameters ;;
  expect tCURLY_LEFT ;;
  body <- parseBlockStatement ;;
  ret (makeNode g_FUNCTION_EXPRESSION name [params; body]).

Definition parseMemberFunction : P astNode :=
  f <- parseFunctionExpression ;;
  ret (set_t f g_MEMBER_FUNCTION).

Definition parseCalculatedPropertyName : P astNode :=
  v <- r_parseExpression rec ;;
  expect tBRACKET_RIGHT ;;
  ret (makeNode g_CALCULATED_PROPERTY_NAME "" [v]).

Definition parseObjectLiteral : P astNode :=
  props <-
    loop fuel (λ props,
      closed <- accept [tCURLY_RIGHT] ;;
      if closed then ret (props, false) else
      let prop := AstNode g_OBJECT_PROPERTY "" [] 0 in
      tk <- getNoNewline ;;
      prop <-
        (if bool_decide (lexeme tk = "get") then
           accept [tNAME] ;; lx <- getLexeme ;; ret (set_value prop lx)
         else
           tk <- getNoNewline ;;
           if bool_decide (lexeme tk = "set") then
             accept [tNAME] ;; lx <- getLexeme ;; ret (set_value prop lx)
           else ret prop) ;;
      isName <- accept [tNAME] ;;
      key <-
        (if isName then lx <- getLexeme ;; ret (makeNode g_NAME lx [])
         else
           isBracket <- accept [tBRACKET_LEFT] ;;
           if isBracket then parseCalculatedPropertyName
           else
             tk <- getNoNewline ;;
             valid <-
               (if isValidPropertyName (lexeme tk) then ret true
                else test [tNUMBER; tSTRING]) ;;
             if valid : bool then
               accept [] ;;
               lx <- getLexeme ;; ret (makeNode g_VALID_PROPERTY_NAME lx [])
             else ret zeroAst) ;;
      let prop := set_children prop (children prop ++ [key]) in
      isParen <- test [tPAREN_LEFT] ;;
      prop <-
        (if isParen then
           v <- parseMemberFunction ;;
           ret (set_children prop (children prop ++ [v]))
         else
           isColon <- accept [tCOLON] ;;
           if isColon then
             v <- r_parseYield rec ;;
             ret (set_children prop (children prop ++ [v]))
           else ret prop) ;;
      let props := props ++ [prop] in
      comma <- accept [tCOMMA] ;;
      if negb comma then expect tCURLY_RIGHT ;; ret (props, false)
      else ret (props, true)) [] ;;
  ret (makeNode g_OBJECT_LITERAL "" props).

Definition parseArrayLiteral : P astNode :=
  values <-
    loop fuel (λ values,
      closed <- accept [tBRACKET_RIGHT] ;;
      if closed then ret (values, false) else
      v <- r_parseYield rec ;;
      let values := values ++ [v] in
      comma <- accept [tCOMMA] ;;
      if negb comma then expect tBRACKET_RIGHT ;; ret (values, false)
      else ret (values, true)) [] ;;
  ret (makeNode g_ARRAY_LITERAL "" values).

Definition parseLambdaOrName : P astNode :=
  firstParamStr <- getLexeme ;;
  isLambda <- accept [tLAMBDA] ;;
  if isLambda then
    isCurly <- accept [tCURLY_LEFT] ;;
    body <- (if isCurly then parseBlockStatement else r_parseYield rec) ;;
    let params :=
      makeNode g_FUNCTION_PARAMETERS ""
        [makeNode g_FUNCTION_PARAMETER "" [makeNode g_NAME firstParamStr []]] in
    ret (makeNode g_LAMBDA_EXPRESSION "" [params; body])
  else ret (makeNode g_NAME firstParamStr []).

Definition parseParensOrLambda : P astNode :=
  p0 <- get ;;
  let prevPos := index p0 in
  params <- parseFunctionParameters ;;
  isLambda <- accept [tLAMBDA] ;;
  if isLambda then
    isCurly <- accept [tCURLY_LEFT] ;;
    body <- (if isCurly then parseBlockStatement else r_parseYield rec) ;;
    ret (makeNode g_LAMBDA_EXPRESSION "" [params; body])
  else
    backtrack prevPos ;;
    closed <- accept [tPAREN_RIGHT] ;;
    v <-
      (if negb closed then
         v <- r_parseExpression rec ;; expect tPAREN_RIGHT ;; ret v
       else ret zeroAst) ;;
    ret (makeNode g_PARENS_EXPRESSION "" [v]).

Definition parseRegexp : P astNode :=
  v <-
    loop fuel (λ v,
      isDiv <- accept [tDIV] ;;
      '(v, leave) <-
        (if isDiv then
           p <- get ;;
           match index p with
           | S (S i) =>
               prev <- tokenAt i ;;
               if bool_decide (tType prev ≠ tESCAPE) then ret (v, true)
               else lx <- getLexeme ;; ret (v +:+ lx, false)
           | _ => panic RuntimeError
           end
         else ret (v, false)) ;;
      if leave : bool then ret (v, false) else
      next ;;
      lx <- getLexeme ;;
      ret (v +:+ lx, true)) "/" ;;
  let v := v +:+ "/" in
  isName <- accept [tNAME] ;;
  v <- (if isName then lx <- getLexeme ;; ret (v +:+ lx) else ret v) ;;
  ret (makeNode g_REGEXP_LITERAL v []).

(** parseAtom: the [switch] tries the kinds in order. *)
Definition parseAtom : P astNode :=
  b <- accept [tDIV] ;; if b then parseRegexp else
  b <- accept [tHEX] ;;
  if b then lx <- getLexeme ;; ret (makeNode g_HEX_LITERAL lx []) else
  b <- accept [tPAREN_LEFT] ;; if b then parseParensOrLambda else
  b <- accept [tCURLY_LEFT] ;; if b then parseObjectLiteral else
  b <- accept [tFUNCTION] ;; if b then parseFunctionExpression else
  b <- accept [tBRACKET_LEFT] ;; if b then parseArrayLiteral else
  b <- accept [tNAME] ;; if b then parseLambdaOrName else
  b <- accept [tNUMBER] ;;
  if b then lx <- getLexeme ;; ret (makeNode g_NUMBER_LITERAL lx []) else
  b <- accept [tSTRING] ;;
  if b then lx <- getLexeme ;; ret (makeNode g_STRING_LITERAL lx []) else
  b <- accept [tNULL] ;;
  if b then lx <- getLexeme ;; ret (makeNode g_NULL lx []) else
  b <- accept [tUNDEFINED] ;;
  if b then lx <- getLexeme ;; ret (makeNode g_UNDEFINED lx []) else
  b <- accept [tTRUE; tFALSE] ;;
  if b then lx <- getLexeme ;; ret (makeNode g_BOOL_LITERAL lx []) else
  b <- accept [tTHIS] ;;
  if b then lx <- getLexeme ;; ret (makeNode g_THIS lx []) else
  checkASI tSEMI ;;
  ret zeroAst.

Definition parseFunctionArgs : P astNode :=
  args <-
    loop fuel (λ args,
      closed <- accept [tPAREN_RIGHT] ;;
      if closed then ret (args, false) else
      arg <- r_parseExpression rec ;;
      let args := args ++ [arg] in
      comma <- accept [tCOMMA] ;;
      if negb comma then expect tPAREN_RIGHT ;; ret (args, false)
      else ret (args, true)) [] ;;
  ret (makeNode g_FUNCTION_ARGS "" args).

Definition parseConstructorCall : P astNode :=
  isNew <- accept [tNEW] ;;
  if isNew then
    name <- r_parseFunctionCallOrMember rec true ;;
    isParen <- accept [tPAREN_LEFT] ;;
    if isParen then
      args <- parseFunctionArgs ;;
      ret (makeNode g_CONSTRUCTOR_CALL "" [name; args])
    else ret (makeNode g_CONSTRUCTOR_CALL "" [name])
  else parseAtom.

Definition parseFunctionCallOrMember (onlyMember : bool) : P astNode :=
  funcName <- parseConstructorCall ;;
  loop fuel (λ funcName,
    isCall <- (if negb onlyMember then accept [tPAREN_LEFT] else ret false) ;;
    if isCall : bool then
      argsNode <- parseFunctionArgs ;;
      ret (makeNode g_FUNCTION_CALL "" [funcName; argsNode], true)
    else
      isDot <- accept [tDOT] ;;
      if isDot then
        expect tNAME ;;
        lx <- getLexeme ;;
        let property := makeNode g_NAME lx [] in
        ret (makeNode g_MEMBER_EXPRESSION "" [funcName; property], true)
      else
        isBracket <- accept [tBRACKET_LEFT] ;;
        if isBracket then
          property <- parseCalculatedPropertyName ;;
          ret (makeNode g_MEMBER_EXPRESSION "" [funcName; property], true)
        else ret (funcName, false)) funcName.

Definition parsePostfixUnary : P astNode :=
  v <- parseFunctionCallOrMember false ;;
  isPostfix <- accept [tINC; tDEC] ;;
  if isPostfix then
    lx <- getLexeme ;; ret (makeNode g_UNARY_POSTFIX_EXPRESSION lx [v])
  else ret v.

Definition parsePrefixUnary : P astNode :=
  isPrefix <- accept [tNOT; tBITWISE_NOT; tPLUS; tMINUS; tINC; tDEC;
                      tTYPEOF; tVOID; tDELETE] ;;
  if isPrefix then
    lx <- getLexeme ;;
    operand <- r_parsePrefixUnary rec ;;
    ret (makeNode g_UNARY_PREFIX_EXPRESSION lx [operand])
  else parsePostfixUnary.

(** The closure [addNode] of parseBinary on the output stack; it returns
    the new stack and the node [root] now points to. *)
Definition addNode (tk : token) (outputStack : list astNode)
  : P (list astNode * astNode) :=
  match reverse outputStack with
  | rhs :: lhs :: rest =>
      let nn := makeNode g_EXPRESSION (lexeme tk) [lhs; rhs] in
      ret (reverse rest ++ [nn], nn)
  | _ => panic RuntimeError
  end.

(** The state of the loops of parseBinary: the operator stack, the output
    stack and [root]. *)
Definition binaryState : Type := list token * list astNode * option astNode.

Definition lookupOperator (ty : tokenType) : operator :=
  default (Operator 0 false) (operatorTable ty).

(** Whether the operator on top of the stack is reduced before [op] is
    pushed. *)
Definition reducesBefore (opFromStack op : operator) : bool :=
  bool_decide (precedence opFromStack > precedence op)%Z ||
  (bool_decide (precedence opFromStack = precedence op) &&
   negb (isRightAssociative op)).

(** The inner loop of parseBinary: reduce the stacked operators that go
    before [op]. *)
Definition reduceStack (op : operator) (st : binaryState) : P binaryState :=
  loop fuel (λ '(opStack, outputStack, root),
    match last opStack with
    | Some opToken =>
        let opFromStack := lookupOperator (tType opToken) in
        if reducesBefore opFromStack op then
          '(outputStack, nn) <- addNode opToken outputStack ;;
          ret ((removelast opStack, outputStack, Some nn), true)
        else ret ((opStack, outputStack, root), false)
    | None => ret ((opStack, outputStack, root), false)
    end) st.

(** parseBinary, over the parser of its operands. *)
Definition parseBinaryWith (operand : P astNode) : P astNode :=
  '(opStack, outputStack, root) <-
    loop fuel (λ '(opStack, outputStack, root),
      e <- operand ;;
      let outputStack := outputStack ++ [e] in
      p <- get ;;
      match operatorTable (tType (tok p)) with
      | None => ret ((opStack, outputStack, root), false)
      | Some op =>
          if globalFlagIsInsideForIn p && bool_decide (tType (tok p) = tIN)
          then ret ((opStack, outputStack, root), false)
          else
            '(opStack, outputStack, root) <-
              reduceStack op (opStack, outputStack, root) ;;
            p <- get ;;
            let opStack := opStack ++ [tok p] in
            next ;;
            ret ((opStack, outputStack, root), true)
      end) ([], [], None) ;;
  '(outputStack, root) <-
    forRange (reverse opStack) (λ '(outputStack, _) opToken,
      '(outputStack, nn) <- addNode opToken outputStack ;;
      ret (outputStack, Some nn)) (outputStack, root) ;;
  match root with
  | Some r => ret r
  | None => orPanic (last outputStack)
  end.

Definition parseBinary : P astNode := parseBinaryWith parsePrefixUnary.

Definition parseConditional : P astNode :=
  test_ <- parseBinary ;;
  isQuestion <- accept [tQUESTION] ;;
  if isQuestion then
    consequent <- r_parseConditional rec ;;
    expect tCOLON ;;
    alternate <- r_parseConditional rec ;;
    ret (makeNode g_CONDITIONAL_EXPRESSION "?" [test_; consequent; alternate])
  else ret test_.

Definition parseAssignment : P astNode :=
  left <- parseConditional ;;
  isAssign <- accept
    [tASSIGN; tPLUS_ASSIGN; tMINUS_ASSIGN; tMULT_ASSIGN; tDIV_ASSIGN;
     tBITWISE_SHIFT_LEFT_ASSIGN; tBITWISE_SHIFT_RIGHT_ASSIGN;
     tBITWISE_SHIFT_RIGHT_ZERO_ASSIGN; tBITWISE_AND_ASSIGN;
     tBITWISE_OR_ASSIGN; tBITWISE_XOR_ASSIGN] ;;
  if isAssign then
    op <- getLexeme ;;
    right <- r_parseAssignment rec ;;
    ret (makeNode g_EXPRESSION op [left; right])
  else ret left.

Definition parseYield : P astNode :=
  isYield <- accept [tYIELD] ;;
  if isYield then
    e <- r_parseYield rec ;; ret (makeNode g_EXPRESSION "yield" [e])
  else parseAssignment.

Definition parseSequence : P astNode :=
  firstItem <- parseYield ;;
  items <-
    loop fuel (λ items,
      comma <- accept [tCOMMA] ;;
      if comma then e <- parseYield ;; ret (items ++ [e], true)
      else ret (items, false)) [firstItem] ;;
  if bool_decide (1 < length items) then
    ret (makeNode g_SEQUENCE_EXPRESSION "," items)
  else ret firstItem.

Definition parseExpression : P astNode := parseSequence.

Definition parseReturnStatement : P astNode :=
  isSemi <- accept [tSEMI] ;;
  if isSemi then ret (makeNode g_RETURN_STATEMENT "" [])
  else
    expr <- parseExpression ;;
    ret (makeNode g_RETURN_STATEMENT "" [expr]).

Definition parseExpressionStatement : P astNode :=
  b <- accept [tBREAK] ;;
  if b then ret (makeNode g_BREAK_STATEMENT "" []) else
  b <- accept [tCONTINUE] ;;
  if b then ret (makeNode g_CONTINUE_STATEMENT "" []) else
  b <- accept [tDEBUGGER] ;;
  if b then ret (makeNode g_DEBUGGER_STATEMENT "" []) else
  e <- parseExpression ;;
  let expr := makeNode g_EXPRESSION_STATEMENT "" [e] in
  expect tSEMI ;;
  ret expr.

Definition parseFunctionDeclaration : P astNode :=
  expect tNAME ;;
  name <- getLexeme ;;
  expect tPAREN_LEFT ;;
  params <- parseFunctionParameters ;;
  expect tCURLY_LEFT ;;
  body <- parseBlockStatement ;;
  ret (makeNode g_FUNCTION_DECLARATION name [params; body]).

Definition parseDoWhileStatement : P astNode :=
  body <- r_parseStatement rec ;;
  expect tWHILE ;;
  expect tPAREN_LEFT ;;
  test_ <- parseExpression ;;
  expect tPAREN_RIGHT ;;
  ret (makeNode g_DO_WHILE_STATEMENT "" [test_; body]).

Definition parseWhileStatement : P astNode :=
  expect tPAREN_LEFT ;;
  test_ <- parseExpression ;;
  expect tPAREN_RIGHT ;;
  body <- r_parseStatement rec ;;
  ret (makeNode g_WHILE_STATEMENT "" [test_; body]).

Definition parseIfStatement : P astNode :=
  expect tPAREN_LEFT ;;
  test_ <- parseExpression ;;
  expect tPAREN_RIGHT ;;
  body <- r_parseStatement rec ;;
  isElse <- accept [tELSE] ;;
  if isElse then
    alternate <- r_parseStatement rec ;;
    ret (makeNode g_IF_STATEMENT "" [test_; body; alternate])
  else ret (makeNode g_IF_STATEMENT "" [test_; body]).

(** parseDeclarationExpression: the loop runs its body before its
    condition [ok = accept(p, tCOMMA)]. *)
Definition parseDeclarationExpression : P astNode :=
  keyword <- getLexeme ;;
  declarators <-
    loop fuel (λ declarators,
      d <- parseDeclarator ;;
      ok <- accept [tCOMMA] ;;
      ret (declarators ++ [d], ok)) [] ;;
  ret (makeNode g_DECLARATION_EXPRESSION keyword declarators).

Definition parseDeclarationStatement : P astNode :=
  e <- parseDeclarationExpression ;;
  let decl := makeNode g_DECLARATION_STATEMENT "" [e] in
  expect tSEMI ;;
  ret decl.

Definition parseForStatement : P astNode :=
  expect tPAREN_LEFT ;;
  isDecl <- accept [tVAR; tLET; tCONST] ;;
  init <-
    (if isDecl then parseDeclarationExpression
     else
       isSemi <- test [tSEMI] ;;
       if isSemi then ret (makeNode g_EMPTY_EXPRESSION "" [])
       else
         p0 <- get ;;
         let startPos := index p0 in
         init <- parseSequence ;;
         closed <- accept [tPAREN_RIGHT] ;;
         if closed then
           backtrack startPos ;;
           setForIn true ;;
           init <- parseSequence ;;
           setForIn false ;;
           ret init
         else ret init) ;;
  isName <- accept [tNAME] ;;
  isOf <-
    (if isName then lx <- getLexeme ;; ret (bool_decide (lx = "of"))
     else ret false) ;;
  if isOf : bool then
    let left := init in
    right <- parseExpression ;;
    expect tPAREN_RIGHT ;;
    body <- r_parseStatement rec ;;
    ret (makeNode g_FOR_OF_STATEMENT "" [left; right; body])
  else
    isIn <- accept [tIN] ;;
    if isIn then
      let left := init in
      right <- parseExpression ;;
      expect tPAREN_RIGHT ;;
      body <- r_parseStatement rec ;;
      ret (makeNode g_FOR_IN_STATEMENT "" [left; right; body])
    else
      expect tSEMI ;;
      isSemi <- accept [tSEMI] ;;
      test_ <-
        (if isSemi then ret (makeNode g_EMPTY_EXPRESSION "" [])
         else e <- parseExpression ;; expect tSEMI ;; ret e) ;;
      closed <- accept [tPAREN_RIGHT] ;;
      final <-
        (if closed then ret (makeNode g_EMPTY_EXPRESSION "" [])
         else e <- parseExpression ;; expect tPAREN_RIGHT ;; ret e) ;;
      body <- r_parseStatement rec ;;
      ret (makeNode g_FOR_STATEMENT "" [init; test_; final; body]).

(** The statements of a [case] or of the [default] of a switch. *)
Definition parseCaseStatements : P (list astNode) :=
  loop fuel (λ caseStatements,
    stop <- test [tDEFAULT; tCASE; tCURLY_RIGHT] ;;
    if stop then ret (caseStatements, false)
    else
      st <- r_parseStatement rec ;;
      ret (caseStatements ++ [st], true)) [].

Definition parseSwitchStatement : P astNode :=
  expect tPAREN_LEFT ;;
  condition <- parseExpression ;;
  expect tPAREN_RIGHT ;;
  expect tCURLY_LEFT ;;
  cases <-
    loop fuel (λ cases,
      closed <- accept [tCURLY_RIGHT] ;;
      if closed then ret (cases, false) else
      isCase <- accept [tCASE] ;;
      cases <-
        (if isCase then
           e <- parseExpression ;;
           let caseTest := makeNode g_SWITCH_CASE_TEST "" [e] in
           expect tCOLON ;;
           caseStatements <- parseCaseStatements ;;
           let statementNode :=
             makeNode g_SWITCH_CASE_STATEMENTS "" caseStatements in
           let switchCase :=
             makeNode g_SWITCH_CASE "" [caseTest; statementNode] in
           ret (cases ++ [switchCase])
         else ret cases) ;;
      isDefault <- accept [tDEFAULT] ;;
      cases <-
        (if isDefault then
           expect tCOLON ;;
           caseStatements <- parseCaseStatements ;;
           let defaultCase := makeNode g_SWITCH_DEFAULT "" caseStatements in
           ret (cases ++ [defaultCase])
         else ret cases) ;;
      ret (cases, true)) [] ;;
  let casesNode := makeNode g_SWITCH_CASES "" cases in
  ret (makeNode g_SWITCH_STATEMENT "" [condition; casesNode]).

(** [expect(p, tNAME)] followed by the check of the keyword [word]. *)
Definition expectWord (word : string) : P unit :=
  expect tNAME ;;
  lx <- getLexeme ;;
  if bool_decide (lx ≠ word) then checkASI tSEMI else ret tt.

(** [accept(p, tNAME) && getLexeme(p) == word]. *)
Definition acceptWord (word : string) : P bool :=
  isName <- accept [tNAME] ;;
  if isName then lx <- getLexeme ;; ret (bool_decide (lx = word))
  else ret false.

Definition parseExportStatement : P astNode :=
  let declaration := makeNode g_EXPORT_DECLARATION "" [] in
  let path := makeNode g_EXPORT_PATH "" [] in
  '(declaration, path, vars, flags_) <-
    (isDefault <- accept [tDEFAULT] ;;
     if isDefault then
       let alias := makeNode g_EXPORT_ALIAS "default" [] in
       isFunction <- accept [tFUNCTION] ;;
       '(declaration, name) <-
         (if isFunction then
            fe <- parseFunctionExpression ;;
            if bool_decide (value fe ≠ "") then
              ret (fe, makeNode g_EXPORT_NAME (value fe) [])
            else ret (declaration, fe)
          else e <- parseExpression ;; ret (declaration, e)) ;;
       let ev := makeNode g_EXPORT_VAR "" [name; alias] in
       expect tSEMI ;;
       ret (declaration, path, [ev], 0%Z)
     else
     isCurly <- accept [tCURLY_LEFT] ;;
     if isCurly then
       vars <-
         loop fuel (λ vars,
           closed <- accept [tCURLY_RIGHT] ;;
           if closed then ret (vars, false) else
           isName <- accept [tNAME] ;;
           vars <-
             (if isName then
                lx <- getLexeme ;;
                let name := makeNode g_EXPORT_NAME lx [] in
                isAs <- acceptWord "as" ;;
                alias <-
                  (if isAs then
                     next ;; lx <- getLexeme ;;
                     ret (makeNode g_EXPORT_ALIAS lx [])
                   else ret name) ;;
                ret (vars ++ [makeNode g_EXPORT_VAR "" [name; alias]])
              else ret vars) ;;
           comma <- accept [tCOMMA] ;;
           if negb comma then expect tCURLY_RIGHT ;; ret (vars, false)
           else ret (vars, true)) [] ;;
       isFrom <- acceptWord "from" ;;
       path <-
         (if isFrom then
            expect tSTRING ;;
            lx <- getLexeme ;; ret (makeNode g_EXPORT_PATH lx [])
          else ret path) ;;
       expect tSEMI ;;
       ret (declaration, path, vars, 0%Z)
     else
     isDecl <- accept [tVAR; tLET; tCONST] ;;
     if isDecl then
       declaration <- parseDeclarationStatement ;;
       declExpr <- elemAt (children declaration) 0 ;;
       vars <-
         forRange (children declExpr) (λ vars d,
           name <- elemAt (children d) 0 ;;
           alias <- elemAt (children d) 0 ;;
           ret (vars ++ [makeNode g_EXPORT_VAR "" [name; alias]])) [] ;;
       ret (declaration, path, vars, 0%Z)
     else
     isFunction <- accept [tFUNCTION] ;;
     if isFunction then
       fs <- parseFunctionDeclaration ;;
       let name := makeNode g_EXPORT_NAME (value fs) [] in
       let alias := name in
       ret (fs, path, [makeNode g_EXPORT_VAR "" [name; alias]], 0%Z)
     else
     isMult <- accept [tMULT] ;;
     if isMult then
       expectWord "from" ;;
       expect tSTRING ;;
       lx <- getLexeme ;;
       let path := makeNode g_EXPORT_PATH lx [] in
       expect tSEMI ;;
       ret (declaration, path, [], Z.lor 0 f_EXPORT_ALL)
     else ret (declaration, path, [], 0%Z)) ;;
  let varsNode := makeNode g_EXPORT_VARS "" vars in
  let result := makeNode g_EXPORT_STATEMENT "" [varsNode; declaration; path] in
  ret (set_flags result flags_).

(** The [* as name from] of an import. *)
Definition parseImportAll : P string :=
  expectWord "as" ;;
  expect tNAME ;;
  all <- getLexeme ;;
  expectWord "from" ;;
  ret all.

Definition parseImportStatement : P astNode :=
  '(vars, all) <-
    (isMult <- accept [tMULT] ;;
     if isMult then all <- parseImportAll ;; ret ([], all)
     else
       isName <- accept [tNAME] ;;
       '(vars, all) <-
         (if isName then
            lx <- getLexeme ;;
            let name := makeNode g_IMPORT_NAME "default" [] in
            let alias := makeNode g_IMPORT_ALIAS lx [] in
            let varNode := makeNode g_IMPORT_VAR "" [name; alias] in
            comma <- accept [tCOMMA] ;;
            if comma then
              isMult <- accept [tMULT] ;;
              if isMult then all <- parseImportAll ;; ret ([varNode], all)
              else ret ([varNode], "")
            else expectWord "from" ;; ret ([varNode], "")
          else ret ([], "")) ;;
       isCurly <- accept [tCURLY_LEFT] ;;
       if isCurly then
         vars <-
           loop fuel (λ vars,
             closed <- accept [tCURLY_RIGHT] ;;
             if closed then ret (vars, false) else
             isName <- accept [tNAME; tDEFAULT] ;;
             vars <-
               (if isName then
                  lx <- getLexeme ;;
                  let name := makeNode g_IMPORT_NAME lx [] in
                  lx <- getLexeme ;;
                  let alias := makeNode g_IMPORT_ALIAS lx [] in
                  isAs <- acceptWord "as" ;;
                  alias <-
                    (if isAs then
                       expect tNAME ;; lx <- getLexeme ;;
                       ret (makeNode g_IMPORT_ALIAS lx [])
                     else ret alias) ;;
                  ret (vars ++ [makeNode g_IMPORT_VAR "" [name; alias]])
                else ret vars) ;;
             comma <- accept [tCOMMA] ;;
             if negb comma then expect tCURLY_RIGHT ;; ret (vars, false)
             else ret (vars, true)) vars ;;
         expectWord "from" ;;
         ret (vars, all)
       else ret (vars, all)) ;;
  expect tSTRING ;;
  pathValue <- getLexeme ;;
  expect tSEMI ;;
  let varsNode := AstNode g_IMPORT_VARS "" vars 0 in
  let allNode := AstNode g_IMPORT_ALL all [] 0 in
  let pathNode := AstNode g_IMPORT_PATH pathValue [] 0 in
  ret (makeNode g_IMPORT_STATEMENT "" [varsNode; allNode; pathNode]).

Definition parseTryCatchStatement : P astNode :=
  expect tCURLY_LEFT ;;
  try <- parseBlockStatement ;;
  isCatch <- accept [tCATCH] ;;
  '(catchValue, catch) <-
    (if isCatch then
       expect tPAREN_LEFT ;;
       catchValue <- parseExpression ;;
       expect tPAREN_RIGHT ;;
       expect tCURLY_LEFT ;;
       catch <- parseBlockStatement ;;
       ret (catchValue, catch)
     else ret (zeroAst, zeroAst)) ;;
  isFinally <- accept [tFINALLY] ;;
  finally <-
    (if isFinally then expect tCURLY_LEFT ;; parseBlockStatement
     else ret zeroAst) ;;
  ret (makeNode g_TRY_CATCH_STATEMENT "" [try; catchValue; catch; finally]).

(** parseStatement: the [switch] tries the kinds in order. *)
Definition parseStatement : P astNode :=
  p0 <- get ;;
  let startPos := index p0 in
  isName <- accept [tNAME] ;;
  marker <-
    (if isName then
       markerName <- getLexeme ;;
       isColon <- accept [tCOLON] ;;
       if isColon then ret (Some (makeNode g_MARKER markerName []))
       else backtrack startPos ;; ret None
     else ret None) ;;
  match marker with
  | Some m => ret m
  | None =>
      b <- accept [tTHROW] ;;
      if b then
        e <- parseExpression ;; ret (makeNode g_THROW_STATEMENT "" [e]) else
      b <- accept [tTRY] ;; if b then parseTryCatchStatement else
      b <- accept [tVAR; tCONST; tLET] ;;
      if b then parseDeclarationStatement else
      b <- accept [tRETURN] ;; if b then parseReturnStatement else
      b <- accept [tIMPORT] ;; if b then parseImportStatement else
      b <- accept [tFUNCTION] ;; if b then parseFunctionDeclaration else
      b <- accept [tDO] ;; if b then parseDoWhileStatement else
      b <- accept [tWHILE] ;; if b then parseWhileStatement else
      b <- accept [tFOR] ;; if b then parseForStatement else
      b <- accept [tCURLY_LEFT] ;; if b then parseBlockStatement else
      b <- accept [tIF] ;; if b then parseIfStatement else
      b <- accept [tEXPORT] ;; if b then parseExportStatement else
      b <- accept [tSWITCH] ;; if b then parseSwitchStatement else
      b <- accept [tSEMI] ;;
      if b then ret (makeNode g_EMPTY_STATEMENT ";" []) else
      parseExpressionStatement
  end.

(** The statements of the program, before the [recover] of parseProgram. *)
Definition parseProgramStatements : P (list astNode) :=
  loop fuel (λ statements,
    atEnd <- accept [tEND_OF_INPUT] ;;
    if atEnd then ret (statements, false)
    else
      st <- parseStatement ;;
      ret (statements ++ [st], true)) [].

End Parser.

Section ParserFix.

Variable operatorTable : tokenType → option operator.
Variable isLetter isNumber : ascii → bool.
Variable g_zero : grammarType.

(** The parsing functions at recursion depth [fuel]; loops run for [fuel]
    rounds at most. *)
Fixpoint parserAt (fuel : nat) : parserRec :=
  match fuel with
  | 0 =>
      ParserRec outOfFuel outOfFuel outOfFuel outOfFuel outOfFuel outOfFuel
        (λ _, outOfFuel) outOfFuel
  | S f =>
      let rec := parserAt f in
      ParserRec
        (parseStatement operatorTable isLetter isNumber g_zero f rec)
        (parseExpression operatorTable isLetter isNumber g_zero f rec)
        (parseYield operatorTable isLetter isNumber g_zero f rec)
        (parseAssignment operatorTable isLetter isNumber g_zero f rec)
        (parseConditional operatorTable isLetter isNumber g_zero f rec)
        (parsePrefixUnary isLetter isNumber g_zero f rec)
        (parseFunctionCallOrMember isLetter isNumber g_zero f rec)
        (parseAssignmentPattern g_zero f rec)
  end.

(** parseProgram: the deferred function recovers every panic, and sets
    [err] only when the panic value is a [parsingError]; [program] is then
    still the zero node. *)
Definition parseProgram (fuel : nat) (p : parserState)
  : outcome Empty_set (astNode * option parsingError) :=
  match parseProgramStatements operatorTable isLetter isNumber g_zero fuel
          (parserAt fuel) p with
  | Ok (statements, _) =>
      Ok (makeNode g_PROGRAM_STATEMENT "" statements, None)
  | Panic (PanicWith e) => Ok (zeroAst g_zero, Some e)
  | Panic RuntimeError => Ok (zeroAst g_zero, None)
  | OutOfFuel => OutOfFuel
  end.

(** parseTokens; [localSrc[0]] is read before [parseProgram] installs its
    [recover]. *)
Definition parseTokens (fuel : nat) (localSrc : tokenSlice)
  : outcome Empty_set (astNode * option parsingError) :=
  match elems localSrc !! 0 with
  | Some tk => parseProgram fuel (ParserState localSrc 0 tk false)
  | None => Panic RuntimeError
  end.

End ParserFix.

Record LoaderError := MkLoaderError {
  err : parsingError;
  fileName_ : string;
}.

Section Load.

(** The scanner [lex] and the printer [printAst] are in files of the package
    that are not at hand. *)
Variable lex : list byte → tokenSlice.
Variable printAst : astNode → string.
Variable operatorTable : tokenType → option operator.
Variable isLetter isNumber : ascii → bool.
Variable g_zero : grammarType.
Variable trimQuotesFromString : string → string.

(** LoadFile: scan, parse, transform, print. *)
Definition LoadFile (fuel : nat) (src : list byte) (filePath : string)
  : outcome Empty_set (list byte * list string + LoaderError) :=
  let tokens := lex src in
  match parseTokens operatorTable isLetter isNumber g_zero fuel tokens with
  | Ok (initialProgram, Some parseErr) =>
      Ok (inr (MkLoaderError parseErr filePath))
  | Ok (initialProgram, None) =>
      match transformIntoModule trimQuotesFromString g_zero filePath fuel
              initialProgram with
      | Ok (resultProgram, fileImports) =>
          Ok (inl (String.list_byte_of_string (printAst resultProgram), fileImports))
      | Panic v => Panic v
      | OutOfFuel => OutOfFuel
      end
  | Panic v => Panic v
  | OutOfFuel => OutOfFuel
  end.

End Load.

End JsLoader.

(** ** Package main: the bundler *)

Module Bundler.

Import GoStr GoRun JsLoader.
Local Open Scope go_scope.

(** A modification time; the zero [time.Time] is 0. *)
Definition time := Z.

Record fileCache := FileCache {
  Data : list byte;
  LastModTime : time;
  Imports : list string;
  IsReachable : bool;
}.

(** The zero value of [fileCache], what a map read of a missing key gives. *)
Definition zeroFileCache : fileCache := FileCache [] 0%Z [] false.

(** What [os.Stat] and [ioutil.ReadFile] see of a file: its modification
    time, and its bytes unless reading it fails. *)
Record osFile := OsFile {
  modTime : time;
  content : option (list byte);
}.

Inductive error :=
| fileError (err path : string)
| readError (path : string)
| loaderError (e : LoaderError).

(** The lines the bundler prints. *)
Inductive message :=
| CircularDependency (cycle : list string)
| BuildFinished
| BuildFailed (e : error)
| CopyFailed (src : string).

(** The bundler and what it acts on: the source files (read only during a
    build), the cache [cache.Files], the bytes of the open bundle file,
    the directory of the bundle with the assets copied into it, the lines
    printed, and the paths [LoadFile] was called on. *)
Record world := World {
  files : gmap string osFile;
  Files : gmap string fileCache;
  bundle : list byte;
  copied : list (string * string);
  printed : list message;
  loaded : list string;
}.

Definition B := M Empty_set world.

Definition setFiles (f : gmap string fileCache → gmap string fileCache)
  : B unit :=
  modify (λ w, World (files w) (f (Files w)) (bundle w) (copied w)
                 (printed w) (loaded w)).

(** [cache.write], also the direct assignments to [cache.Files]. *)
Definition cacheWrite (fileName : string) (data : fileCache) : B unit :=
  setFiles (λ m, <[fileName := data]> m).

(** [sf.write]. *)
Definition sfWrite (data : list byte) : B unit :=
  modify (λ w, World (files w) (Files w) (bundle w ++ data) (copied w)
                 (printed w) (loaded w)).

Definition print (m : message) : B unit :=
  modify (λ w, World (files w) (Files w) (bundle w) (copied w)
                 (printed w ++ [m]) (loaded w)).

(** copyFile: the copy is recorded; a source that cannot be opened is
    reported and nothing is copied. *)
Definition copyFile (dst src : string) : B unit :=
  w <- get ;;
  match files w !! src ≫= content with
  | Some _ =>
      put (World (files w) (Files w) (bundle w) (copied w ++ [(dst, src)])
             (printed w) (loaded w))
  | None => print (CopyFailed src)
  end.

Definition noteLoad (path : string) : B unit :=
  modify (λ w, World (files w) (Files w) (bundle w) (copied w)
                 (printed w) (loaded w ++ [path])).

(** The first non-nil error read from [errorCh], in the order sent. *)
Fixpoint firstError (errs : list (option error)) : option error :=
  match errs with
  | [] => None
  | Some e :: _ => Some e
  | None :: rest => firstError rest
  end.

Section Build.

(** [jsLoader.LoadFile].  A call returns a fragment with its dependency
    list or an error, or it panics (nothing recovers a panic of the
    transform), or it does not return; nothing in the bundler recovers a
    panic, so the last two end or hang the build. *)
Variable LoadFile :
  list byte → string → outcome Empty_set (list byte * list string + LoaderError).

(** The directory of the bundle file, [filepath.Dir(bundleSf.file.Name())]. *)
Variable bundleDir : string.

Section AddFiles.

(** [addFileToBundle], as addFilesToBundle calls it; the value it sends on
    [errorCh] is its result. *)
Variable addFileToBundle : string → B (option error).

(** addFilesToBundle: the calls run one after the other, each sends one
    value on the channel, whose buffer holds them all; the values are then
    read in that order up to the first error. *)
Definition addFilesToBundle (files : list string) : B (option error) :=
  errorCh <-
    forRange files (λ errorCh unbundledFile,
      e <- addFileToBundle unbundledFile ;;
      ret (errorCh ++ [e])) [] ;;
  ret (firstError errorCh).

Definition addFileToBundleBody (resolvedPath : string) : B (option error) :=
  w <- get ;;
  match files w !! resolvedPath with
  | None => ret (Some (fileError ">>Error: cannot find file" resolvedPath))
  | Some fileStats =>
      let lastModTime := modTime fileStats in
      let saveCache (data : list byte) (fileImports : list string) :=
        cacheWrite resolvedPath (FileCache data lastModTime fileImports true) in
      let cached := Files w !! resolvedPath in
      let ok := bool_decide (is_Some cached) in
      let cachedFile := default zeroFileCache cached in
      if ok && IsReachable cachedFile then ret None
      else
        cacheWrite resolvedPath (FileCache [] 0%Z [] true) ;;
        let finish (data : list byte) (fileImports : list string) :=
          sfWrite data ;;
          saveCache data fileImports ;;
          addFilesToBundle fileImports in
        if ok && bool_decide (LastModTime cachedFile = modTime fileStats) then
          finish (Data cachedFile) (Imports cachedFile)
        else
          let ext := Ext resolvedPath in
          if bool_decide (ext = ".js") then
            match content fileStats with
            | None =>
                saveCache [] [] ;;
                ret (Some (readError resolvedPath))
            | Some src =>
                noteLoad resolvedPath ;;
                match LoadFile src resolvedPath with
                | Ok (inr e) =>
                    saveCache [] [] ;;
                    ret (Some (loaderError e))
                | Ok (inl (data, fileImports)) => finish data fileImports
                | Panic v => panic v
                | OutOfFuel => outOfFuel
                end
            end
          else
            let dstFileName :=
              bundleDir +:+ "/" +:+ CreateVarNameFromPath resolvedPath +:+ ext in
            copyFile dstFileName resolvedPath ;;
            finish [] []
  end.

End AddFiles.

(** [addFileToBundle], with a bound on the depth of the import chain it
    follows. *)
Fixpoint addFileToBundle (fuel : nat) (resolvedPath : string)
  : B (option error) :=
  match fuel with
  | 0 => outOfFuel
  | S f => addFileToBundleBody (addFileToBundle f) resolvedPath
  end.

End Build.

(** *** The invocation order *)

(** What [createImportTree] changes: the captured [moduleOrder] and the
    warnings printed. *)
Record treeState := TreeState {
  moduleOrder : list string;
  warnings : list message;
}.

Definition Tr := M Empty_set treeState.

Section ImportTree.

Variable cacheFiles : gmap string fileCache.

Section Tree.

Variable createImportTree : string → list string → Tr unit.

Definition createImportTreeBody (fileName : string) (path : list string)
  : Tr unit :=
  if bool_decide (Ext fileName ≠ ".js") then ret tt
  else
    match indexOf path fileName with
    | Some i =>
        modify (λ s, TreeState (moduleOrder s)
          (warnings s ++ [CircularDependency (drop i path ++ [fileName])]))
    | None =>
        let file := default zeroFileCache (cacheFiles !! fileName) in
        forRange (Imports file) (λ _ importPath,
          createImportTree importPath (path ++ [fileName])) tt ;;
        let moduleName := "'" +:+ CreateVarNameFromPath fileName +:+ "'" in
        s <- get ;;
        if bool_decide (indexOf (moduleOrder s) moduleName = None) then
          put (TreeState (moduleOrder s ++ [moduleName]) (warnings s))
        else ret tt
    end.

End Tree.

Fixpoint createImportTree (fuel : nat) (fileName : string) (path : list string)
  : Tr unit :=
  match fuel with
  | 0 => outOfFuel
  | S f => createImportTreeBody (createImportTree f) fileName path
  end.

(** getJsBundleFileTail: the bytes of the tail, with the final state of
    the traversal (the order and the warnings printed on the way). *)
Definition getJsBundleFileTail (fuel : nat) (entryFileName : string)
  : outcome Empty_set (list byte * treeState) :=
  match createImportTree fuel entryFileName [] (TreeState [] []) with
  | Ok (_, s) =>
      let jsModuleOrder :=
        "var moduleOrder = [" +:+ Join (moduleOrder s) "," +:+ "];" in
      let result :=
        String.list_byte_of_string
          (jsModuleOrder +:+
           "moduleOrder.forEach((moduleName)=>modules[moduleName]=moduleFns[moduleName]())") in
      Ok (result, s)
  | Panic v => Panic v
  | OutOfFuel => OutOfFuel
  end.

End ImportTree.

(** *** A build *)

Definition preamble : list byte :=
  String.list_byte_of_string
    "var moduleFns={},modules={};var process={env:{NODE_ENV:'development'}};".

Definition markUnreachable (file : fileCache) : fileCache :=
  FileCache (Data file) (LastModTime file) (Imports file) false.

Section CreateBundle.

Variable LoadFile :
  list byte → string → outcome Empty_set (list byte * list string + LoaderError).
Variable bundleDir : string.

(** createBundle.  [bundle w] on entry is what the bundle file held before
    the build (nothing when there was no file); the file is removed and
    created anew before anything else.  The cache is not saved to disk
    here: the snapshot plays no part in a build. *)
Definition createBundle (fuel : nat) (entryFileName : string) : B unit :=
  modify (λ w, World (files w) (Files w) [] (copied w) (printed w)
                 (loaded w)) ;;
  setFiles (fmap markUnreachable) ;;
  sfWrite preamble ;;
  err <- addFileToBundle LoadFile bundleDir fuel entryFileName ;;
  w <- get ;;
  match getJsBundleFileTail (Files w) fuel entryFileName with
  | Ok (tail, s) =>
      forRange (warnings s) (λ _ m, print m) tt ;;
      sfWrite tail ;;
      match err with
      | None => print BuildFinished
      | Some e => print (BuildFailed e)
      end
  | Panic v => panic v
  | OutOfFuel => outOfFuel
  end.

End CreateBundle.

End Bundler.


(** * Vocabulary of the properties *)

Import GoStr GoRun JsLoader Bundler.
Local Open Scope go_scope.

(** A path segment that the resolver's loop acts on. *)
Definition isDotSegment (s : string) : Prop := s = "." ∨ s = "..".

(** The number of [..] among the segments. *)
Definition ups (parts : list string) : nat :=
  length (filter (λ s, s = "..") parts).

(** A sample of what trimming the quotes of a string literal can be: one
    leading and one trailing quote character (single, double, whose code is
    34, or backquote) are removed when present.  It only serves to run the
    resolver on concrete inputs. *)
Definition isQuote (c : ascii) : bool :=
  Ascii.eqb c "'" || Ascii.eqb c "034" || Ascii.eqb c "`".

Fixpoint trimTrailingQuote (s : string) : string :=
  match s with
  | EmptyString => EmptyString
  | String c EmptyString => if isQuote c then EmptyString else s
  | String c s' => String c (trimTrailingQuote s')
  end.

Definition trimQuotes (s : string) : string :=
  match s with
  | String c s' => if isQuote c then trimTrailingQuote s' else trimTrailingQuote s
  | EmptyString => EmptyString
  end.

(** What a second resolution adds to an identity without dot segments. *)
Definition reresolvedSuffix (parts : list string) : string :=
  if decide (length parts = 1) then "/index.js"
  else match last parts with
       | Some final => if Contains final "." then "" else ".js"
       | None => ""
       end.

(** [resolve(resolve(x))], from the same importing file. *)
Definition resolveAgain (trim : string → string) (x cur : string)
  : option string :=
  y ← resolveES6ImportPath trim x cur; resolveES6ImportPath trim y cur.

(** The call [require(p)] as the parser builds it, [p] being the lexeme of
    a string literal. *)
Definition requireCall (p : string) : astNode :=
  makeNode g_FUNCTION_CALL ""
    [makeNode g_NAME "require" [];
     makeNode g_FUNCTION_ARGS "" [makeNode g_STRING_LITERAL p []]].

(** The member reference [modules.<name>.default] of the module at
    [resolvedPath]. *)
Definition defaultExportOf (resolvedPath : string) : astNode :=
  makeNode g_MEMBER_EXPRESSION ""
    [makeNode g_MEMBER_EXPRESSION ""
       [makeNode g_NAME "modules" [];
        makeNode g_NAME (CreateVarNameFromPath resolvedPath) []];
     makeNode g_NAME "default" []].

(** Sample tokens, at line 1: the positions play no part. *)
Definition tk (ty : tokenType) (lx : string) : token := Token ty lx 1 0.

(** A sample operator table with the usual levels: additive operators
    below multiplicative ones, both left-associative, and a
    right-associative operator above them, a kind of token the parser does
    not name. *)
Definition sampleTable (ty : tokenType) : option operator :=
  match ty with
  | tPLUS | tMINUS => Some (Operator 13 false)
  | tMULT | tDIV => Some (Operator 14 false)
  | tOTHER 0 => Some (Operator 15 true)
  | _ => None
  end.

Definition sampleIsLetter (c : ascii) : bool :=
  let n := nat_of_ascii c in
  bool_decide (65 ≤ n ≤ 90)%nat || bool_decide (97 ≤ n ≤ 122)%nat ||
  Ascii.eqb c "_" || Ascii.eqb c "$".

Definition sampleIsNumber (c : ascii) : bool :=
  let n := nat_of_ascii c in bool_decide (48 ≤ n ≤ 57)%nat.

(** The parser and the transform on the samples; the tag of the zero node
    is taken to be one the transform does not single out. *)
Definition sampleParse (fuel : nat) (l : list token)
  : outcome Empty_set (astNode * option parsingError) :=
  parseTokens sampleTable sampleIsLetter sampleIsNumber (g_OTHER 0) fuel
    (TokenSlice l []).

Definition sampleTransform (fuel : nat) (fileName : string) (src : astNode)
  : outcome Empty_set (astNode * list string) :=
  transformIntoModule trimQuotes (g_OTHER 0) fileName fuel src.

(** What [modifyProgram] wraps the statements of the file [fileName] in. *)
Definition moduleFactory (fileName : string) (statements : list astNode)
  : astNode :=
  let exportsObj := makeNode g_NAME "exports" [] in
  let declSt :=
    makeNode g_DECLARATION_STATEMENT ""
      [makeNode g_DECLARATION_EXPRESSION "var"
         [makeNode g_DECLARATOR "" [exportsObj; makeNode g_OBJECT_LITERAL "" []]]] in
  let block :=
    makeNode g_BLOCK_STATEMENT ""
      ([declSt] ++ statements ++ [makeNode g_RETURN_STATEMENT "" [exportsObj]]) in
  makeNode g_EXPRESSION_STATEMENT ""
    [makeNode g_EXPRESSION "="
       [makeNode g_MEMBER_EXPRESSION ""
          [makeNode g_NAME "moduleFns" [];
           makeNode g_NAME (CreateVarNameFromPath fileName) []];
        makeNode g_FUNCTION_EXPRESSION ""
          [makeNode g_FUNCTION_PARAMETERS "" []; block]]].

(** [function f() { require('./m.js'); require('./m.js'); }] *)
Definition requireTwiceTokens : list token :=
  [tk tFUNCTION "function"; tk tNAME "f"; tk tPAREN_LEFT "(";
   tk tPAREN_RIGHT ")"; tk tCURLY_LEFT "{";
   tk tNAME "require"; tk tPAREN_LEFT "("; tk tSTRING "'./m.js'";
   tk tPAREN_RIGHT ")"; tk tSEMI ";";
   tk tNAME "require"; tk tPAREN_LEFT "("; tk tSTRING "'./m.js'";
   tk tPAREN_RIGHT ")"; tk tSEMI ";";
   tk tCURLY_RIGHT "}"; tk tEND_OF_INPUT ""].

Definition requireTwiceProgram : astNode :=
  makeNode g_PROGRAM_STATEMENT ""
    [makeNode g_FUNCTION_DECLARATION "f"
       [makeNode g_FUNCTION_PARAMETERS "" [];
        makeNode g_BLOCK_STATEMENT ""
          [makeNode g_EXPRESSION_STATEMENT "" [requireCall "'./m.js'"];
           makeNode g_EXPRESSION_STATEMENT "" [requireCall "'./m.js'"]]]].

(** [import v from './m.js'] and, on the next line,
    [function f(v) { return v }]. *)
Definition shadowingTokens : list token :=
  [tk tIMPORT "import"; tk tNAME "v"; tk tNAME "from"; tk tSTRING "'./m.js'";
   tk tSEMI ";"; tk tNEWLINE "";
   tk tFUNCTION "function"; tk tNAME "f"; tk tPAREN_LEFT "("; tk tNAME "v";
   tk tPAREN_RIGHT ")"; tk tCURLY_LEFT "{"; tk tRETURN "return";
   tk tNAME "v"; tk tCURLY_RIGHT "}"; tk tEND_OF_INPUT ""].

Definition functionF (v : astNode) : astNode :=
  makeNode g_FUNCTION_DECLARATION "f"
    [makeNode g_FUNCTION_PARAMETERS "" [makeNode g_FUNCTION_PARAMETER "" [v]];
     makeNode g_BLOCK_STATEMENT "" [makeNode g_RETURN_STATEMENT "" [v]]].

Definition shadowingProgram : astNode :=
  makeNode g_PROGRAM_STATEMENT ""
    [makeNode g_IMPORT_STATEMENT ""
       [makeNode g_IMPORT_VARS ""
          [makeNode g_IMPORT_VAR ""
             [makeNode g_IMPORT_NAME "default" [];
              makeNode g_IMPORT_ALIAS "v" []]];
        makeNode g_IMPORT_ALL "" [];
        makeNode g_IMPORT_PATH "'./m.js'" []];
     functionF (makeNode g_NAME "v" [])].

(** What the import binds [v] to: [modules.src_m_js.default]. *)
Definition importedV : astNode :=
  makeNode g_MEMBER_EXPRESSION ""
    [makeNode g_MEMBER_EXPRESSION ""
       [makeNode g_NAME "modules" []; makeNode g_NAME "src_m_js" []];
     makeNode g_IMPORT_NAME "default" []].


(** [a + b * c], and the states of the parser on it: at [index], with the
    token of that index as current token. *)
Definition sumProductTokens : list token :=
  [tk tNAME "a"; tk tPLUS "+"; tk tNAME "b"; tk tMULT "*"; tk tNAME "c";
   tk tEND_OF_INPUT ""].

Definition sumProductState (index : nat) (lx : string) (ty : tokenType)
  : parserState :=
  ParserState (TokenSlice sumProductTokens []) index (tk ty lx) false.

(** The parser of the operands of a binary expression, on the samples. *)
Definition sampleOperand : P astNode :=
  parsePrefixUnary sampleIsLetter sampleIsNumber (g_OTHER 0) 5
    (parserAt sampleTable sampleIsLetter sampleIsNumber (g_OTHER 0) 5).

(** *** The dependency graph of a cache *)

(** A module file, as the traversal tests it. *)
Definition isJs (fileName : string) : Prop := Ext fileName = ".js".

(** The dependency list the cache records for a file (none for a file it
    does not hold). *)
Definition importsOf (c : gmap string fileCache) (fileName : string)
  : list string :=
  Imports (default zeroFileCache (c !! fileName)).

(** [f] imports [g], both being modules. *)
Definition edge (c : gmap string fileCache) (f g : string) : Prop :=
  isJs f ∧ isJs g ∧ g ∈ importsOf c f.

(** The name under which a file stands in the invocation order. *)
Definition moduleNameOf (fileName : string) : string :=
  "'" +:+ CreateVarNameFromPath fileName +:+ "'".

(** A chain of imports between modules: each file imports the next. *)
Inductive importChain (c : gmap string fileCache) : list string → Prop :=
| importChain_one f : isJs f → importChain c [f]
| importChain_cons f g l :
    edge c f g → importChain c (g :: l) → importChain c (f :: g :: l).

(** The graph reachable from [entry] has a cycle: some chain of imports
    from [entry] comes back to a file it has passed. *)
Definition cyclicFrom (c : gmap string fileCache) (entry : string) : Prop :=
  ∃ l, importChain c (entry :: l) ∧ ¬ NoDup (entry :: l).

(** The runs of a list of calls one after the other, each related to the
    states before and after it by [R]. *)
Inductive runsEach {A St : Type} (R : A → St → St → Prop)
  : list A → St → St → Prop :=
| runsEach_nil s : runsEach R [] s s
| runsEach_cons x l s s1 s' :
    R x s s1 → runsEach R l s1 s' → runsEach R (x :: l) s s'.

(** The end of [createImportTree]: the name joins the order unless it is
    there. *)
Definition placeModule (fileName : string) (s : treeState) : treeState :=
  if bool_decide (indexOf (moduleOrder s) (moduleNameOf fileName) = None) then
    TreeState (moduleOrder s ++ [moduleNameOf fileName]) (warnings s)
  else s.

(** The import of [x] by [f] closes a cycle on the path of the traversal:
    [cycle] is [x], the files [mid] that lead from [x] to [f], and [x]
    again, where [x] and [mid] end a chain of imports from [entry] that
    passes no file twice. *)
Definition closesCycle (c : gmap string fileCache) (entry f x : string)
  (cycle : list string) : Prop :=
  ∃ pre mid,
    cycle = x :: mid ++ [x] ∧
    last (x :: mid) = Some f ∧
    head (pre ++ x :: mid) = Some entry ∧
    importChain c (pre ++ x :: mid) ∧
    NoDup (pre ++ x :: mid) ∧
    edge c f x.

(** The order is a post-order of the graph reachable from [entry], but
    for the imports that close a cycle and are named by a warning of
    [ws]: each of its names is the name of a module reachable from
    [entry], and each module import of that module either stands earlier
    in the order or closes a cycle on the path that a warning names. *)
Definition postOrder (c : gmap string fileCache) (entry : string)
  (order : list string) (ws : list message) : Prop :=
  ∀ i N, order !! i = Some N →
    ∃ f, moduleNameOf f = N ∧ isJs f ∧ rtc (edge c) entry f ∧
         ∀ x, x ∈ importsOf c f → isJs x →
              moduleNameOf x ∈ take i order ∨
              ∃ cycle, CircularDependency cycle ∈ ws ∧
                       closesCycle c entry f x cycle.

(** Every warning names a cycle that an import closes on the path of the
    traversal. *)
Definition warningsSound (c : gmap string fileCache) (entry : string)
  (ws : list message) : Prop :=
  ∀ m, m ∈ ws →
    ∃ cycle f x, m = CircularDependency cycle ∧
                 closesCycle c entry f x cycle.

(** A cache entry with the dependency list [imports]. *)
Definition entryWith (imports : list string) : fileCache :=
  FileCache [] 0%Z imports true.

(** The three-file cycle: [a.js] imports [b.js], which imports [c.js],
    which imports [a.js]. *)
Definition cycleCache : gmap string fileCache :=
  <["a.js" := entryWith ["b.js"]]>
    (<["b.js" := entryWith ["c.js"]]>
       (<["c.js" := entryWith ["a.js"]]> ∅)).

(** *** Vocabulary of the traversal *)

(** What every call does to the state: the order and the warnings only
    grow at their ends, and the order stays free of repetitions. *)
Definition grows (s s' : treeState) : Prop :=
  (∃ o, moduleOrder s' = moduleOrder s ++ o) ∧
  (∃ w, warnings s' = warnings s ++ w) ∧
  (NoDup (moduleOrder s) → NoDup (moduleOrder s')).

(** What holds of a module when the traversal calls it: the path and the
    file are a chain of imports from the entry, and the path passes no
    file twice. *)
Definition reached (c : gmap string fileCache) (entry : string)
  (f : string) (path : list string) : Prop :=
  isJs f →
  head (path ++ [f]) = Some entry ∧ importChain c (path ++ [f]) ∧ NoDup path.

(** What a call does, for the order: it grows the state, leaves the name
    of a module that is not on the path in the order, prints the warning
    of a module that is on the path, and keeps the order a post-order and
    the warnings sound. *)
Definition keepsOrder (c : gmap string fileCache) (entry : string)
  (f : string) (path : list string) (s s' : treeState) : Prop :=
  grows s s' ∧
  (isJs f → f ∉ path → moduleNameOf f ∈ moduleOrder s') ∧
  (∀ i, isJs f → indexOf path f = Some i →
        CircularDependency (drop i path ++ [f]) ∈ warnings s') ∧
  (reached c entry f path →
   (postOrder c entry (moduleOrder s) (warnings s) →
    postOrder c entry (moduleOrder s') (warnings s')) ∧
   (warningsSound c entry (warnings s) →
    warningsSound c entry (warnings s'))).




(** *** Vocabulary of a build *)

(** A file that the current build has claimed. *)
Definition claimed (m : gmap string fileCache) (p : string) : Prop :=
  ∃ e, m !! p = Some e ∧ IsReachable e = true.

(** The files on disk that the build has not claimed: their number bounds
    the depth of the imports still to follow. *)
Definition unclaimed (w : world) : gset string :=
  dom (files w) ∖ dom (filter (λ kv, IsReachable kv.2 = true) (Files w)).

Definition withFiles (m : gmap string fileCache) (w : world) : world :=
  World (files w) m (bundle w) (copied w) (printed w) (loaded w).

Definition withBundle (b : list byte) (w : world) : world :=
  World (files w) (Files w) b (copied w) (printed w) (loaded w).

Definition withLoaded (l : list string) (w : world) : world :=
  World (files w) (Files w) (bundle w) (copied w) (printed w) l.

(** The part of [addFileToBundle] that comes before it follows the
    imports: either the call is over, with the value it sends on the
    channel, or it goes on with the imports of the file, or LoadFile has
    panicked or does not return. *)
Inductive claimResult :=
| Over (e : option error) (w : world)
| Follow (fileImports : list string) (w : world)
| Crash (v : panicValue Empty_set)
| Hang.

(** The state when the imports are followed: the fragment [data] written,
    the entry saved. *)
Definition saved (p : string) (lastModTime : time) (data : list byte)
  (fileImports : list string) (w : world) : world :=
  withFiles (<[p := FileCache data lastModTime fileImports true]> (Files w))
    (withBundle (bundle w ++ data) w).

(** A miss: the file is loaded, or copied when it is not a module.  The
    result is the error that ends the call, or the fragment and the
    dependency list to save, when LoadFile returns. *)
Definition processFile
  (LoadFile :
     list byte → string →
     outcome Empty_set (list byte * list string + LoaderError))
  (bundleDir : string) (p : string) (fileStats : osFile) (w : world)
  : outcome Empty_set (error * world + list byte * list string * world) :=
  let failed (w : world) :=
    withFiles (<[p := FileCache [] (modTime fileStats) [] true]> (Files w)) w in
  if bool_decide (Ext p = ".js") then
    match content fileStats with
    | None => Ok (inl (readError p, failed w))
    | Some src =>
        let w1 := withLoaded (loaded w ++ [p]) w in
        match LoadFile src p with
        | Ok (inr e) => Ok (inl (loaderError e, failed w1))
        | Ok (inl (data, fileImports)) => Ok (inr (data, fileImports, w1))
        | Panic v => Panic v
        | OutOfFuel => OutOfFuel
        end
    end
  else
    let dstFileName :=
      bundleDir +:+ "/" +:+ CreateVarNameFromPath p +:+ Ext p in
    Ok (inr ([], [],
         match files w !! p ≫= content with
         | Some _ =>
             World (files w) (Files w) (bundle w) (copied w ++ [(dstFileName, p)])
               (printed w) (loaded w)
         | None =>
             World (files w) (Files w) (bundle w) (copied w)
               (printed w ++ [CopyFailed p]) (loaded w)
         end)).

(** The claim step after a miss. *)
Definition afterMiss (p : string) (fileStats : osFile)
  (r : outcome Empty_set (error * world + list byte * list string * world))
  : claimResult :=
  match r with
  | Ok (inl (e, w')) => Over (Some e) w'
  | Ok (inr (data, fileImports, w')) =>
      Follow fileImports (saved p (modTime fileStats) data fileImports w')
  | Panic v => Crash v
  | OutOfFuel => Hang
  end.

Definition claimStep
  (LoadFile :
     list byte → string →
     outcome Empty_set (list byte * list string + LoaderError))
  (bundleDir : string) (p : string) (w : world) : claimResult :=
  match files w !! p with
  | None => Over (Some (fileError ">>Error: cannot find file" p)) w
  | Some fileStats =>
      let cached := Files w !! p in
      match cached with
      | Some cachedFile =>
          if IsReachable cachedFile then Over None w
          else if bool_decide (LastModTime cachedFile = modTime fileStats) then
            Follow (Imports cachedFile)
              (saved p (modTime fileStats) (Data cachedFile)
                 (Imports cachedFile) w)
          else
            afterMiss p fileStats
              (processFile LoadFile bundleDir p fileStats w)
      | None =>
          afterMiss p fileStats (processFile LoadFile bundleDir p fileStats w)
      end
  end.

(** LoadFile returns on every file on disk that can be read. *)
Definition loaderReturns
  (LoadFile :
     list byte → string →
     outcome Empty_set (list byte * list string + LoaderError))
  (w : world) : Prop :=
  ∀ q st src, files w !! q = Some st → content st = Some src →
              ∃ r, LoadFile src q = Ok r.

(** The runs of a list of calls one after the other, with the values they
    return. *)
Inductive runsCollect {A B St : Type} (R : A → St → B → St → Prop)
  : list A → St → list B → St → Prop :=
| runsCollect_nil s : runsCollect R [] s [] s
| runsCollect_cons x l s b s1 bs s' :
    R x s b s1 → runsCollect R l s1 bs s' →
    runsCollect R (x :: l) s (b :: bs) s'.

(** What a call of [addFileToBundle] may change: the files on disk stay,
    the bundle and the record of the loads grow at their ends, no file
    that was claimed is loaded, the entries of the claimed files stay, and
    entries are only added for files on disk. *)
Definition extends (w w' : world) : Prop :=
  files w' = files w ∧
  (∃ b, bundle w' = bundle w ++ b) ∧
  (∃ l, loaded w' = loaded w ++ l ∧ ∀ q, q ∈ l → ¬ claimed (Files w) q) ∧
  (∀ q e, Files w !! q = Some e → IsReachable e = true →
          Files w' !! q = Some e) ∧
  dom (Files w') ⊆ dom (Files w) ∪ dom (files w).

(** The state of a build when the entry file is about to be added: the
    bundle file created anew and holding the preamble, every cache entry
    marked unreachable. *)
Definition startOfBuild (w : world) : world :=
  World (files w) (markUnreachable <$> Files w) preamble (copied w)
    (printed w) (loaded w).

(** The line that closes a build. *)
Definition verdict (e : option error) : message :=
  match e with
  | None => BuildFinished
  | Some err => BuildFailed err
  end.

(** The state when a build returns: the tail appended to the bundle, the
    warnings of the traversal and the verdict printed. *)
Definition endOfBuild (e : option error) (tail : list byte) (s : treeState)
  (w : world) : world :=
  World (files w) (Files w) (bundle w ++ tail) (copied w)
    (printed w ++ warnings s ++ [verdict e]) (loaded w).

(** The bytes of a string. *)
Definition bytes (s : string) : list byte := String.list_byte_of_string s.

(** A source with a syntax error on its second line, [a + b;] then [);]
    and empty lines, and its tokens.  The scanner is not at hand: on the
    samples it is taken to return these tokens. *)
Definition lateErrorSource : string :=
  "a + b;" +:+ String "010" (");" +:+ String "010" (String "010"
    (String "010" ""))).

Definition lateErrorTokens : list token :=
  [tk tNAME "a"; tk tPLUS "+"; tk tNAME "b"; tk tSEMI ";"; tk tNEWLINE "";
   tk tPAREN_RIGHT ")"; tk tSEMI ";"; tk tNEWLINE ""; tk tNEWLINE "";
   tk tNEWLINE ""; tk tEND_OF_INPUT ""].

(** LoadFile on the samples, with a scanner that returns [tokens]: the
    parser and the transform of the package; nothing is printed of a
    module. *)
Definition tokensLoad (tokens : list token) (fuel : nat) (src : list byte)
  (filePath : string)
  : outcome Empty_set (list byte * list string + LoaderError) :=
  LoadFile (λ _, TokenSlice tokens []) (λ _, "") sampleTable sampleIsLetter
    sampleIsNumber (g_OTHER 0) trimQuotes fuel src filePath.

Definition sampleLoadFile : nat → list byte → string →
  outcome Empty_set (list byte * list string + LoaderError) :=
  tokensLoad lateErrorTokens.

(** [import x from '.';], an import path on which the resolver panics. *)
Definition importDotTokens : list token :=
  [tk tIMPORT "import"; tk tNAME "x"; tk tNAME "from"; tk tSTRING "'.'";
   tk tSEMI ";"; tk tEND_OF_INPUT ""].

(** A bundler that holds a bundle from an earlier build, and whose entry
    file [index.js] has the syntax error. *)
Definition lateErrorWorld : world :=
  World (<["index.js" := OsFile 7%Z (Some (bytes lateErrorSource))]> ∅) ∅
    (bytes "the bundle of the previous build") [] [] [].

(** The same bundler with an entry in the cache for [index.js], from a
    build at the modification time [cachedTime]. *)
Definition cachedEntryWorld (cachedTime : time) : world :=
  World (<["index.js" := OsFile 7%Z (Some (bytes lateErrorSource))]> ∅)
    (<["index.js" := FileCache (bytes "old fragment") cachedTime [] false]> ∅)
    [] [] [] [].


(** * Further vocabulary *)

(** What a character of a path becomes in a variable name. *)
Definition varNameChar (c : ascii) : ascii :=
  if Ascii.eqb c "/" || Ascii.eqb c "." || Ascii.eqb c "-" then "_"%char
  else c.

(** A string, character by character. *)
Fixpoint mapChars (f : ascii → ascii) (s : string) : string :=
  match s with
  | EmptyString => EmptyString
  | String c s' => String (f c) (mapChars f s')
  end.

(** The scope tables from a context outward: its own, then those of its
    parents. *)
Fixpoint scopes (c : context) : list (gmap string astNode) :=
  let 'Context vars up := c in
  vars :: match up with
          | Some p => scopes p
          | None => []
          end.

(** *** Vocabulary of the parser *)

(** The parser is on a token of the slice: its current token is the token
    at its index. *)
Definition onToken (p : parserState) : Prop :=
  elems (sourceTokens p) !! index p = Some (tok p).

(** The tokens from the index on. *)
Definition remaining (p : parserState) : list token :=
  drop (index p) (elems (sourceTokens p)).

(** The number of newline tokens at the front of a list of tokens. *)
Fixpoint leadingNewlines (l : list token) : nat :=
  match l with
  | [] => 0
  | tk :: rest =>
      if bool_decide (tType tk = tNEWLINE) then S (leadingNewlines rest)
      else 0
  end.

(** The state moved to the index [i], on the token [tk]. *)
Definition seek (p : parserState) (i : nat) (tk : token) : parserState :=
  ParserState (sourceTokens p) i tk (globalFlagIsInsideForIn p).

(** The state after the first token that is not a newline, [tk], has been
    consumed. *)
Definition consumed (p : parserState) (tk : token) : parserState :=
  advance (seek p (index p + leadingNewlines (remaining p)) tk).

(** The ten tokens around the index, the context of a parsing error. *)
Definition errorWindow (p : parserState) : list token :=
  take 10 (drop (index p - 5)
             (elems (sourceTokens p) ++ spare (sourceTokens p))).

(** Sample states: a newline, the name [a] and a semicolon. *)
Definition lineTokens : list token :=
  [tk tNEWLINE ""; tk tNAME "a"; tk tSEMI ";"; tk tEND_OF_INPUT ""].

Definition lineState (i : nat) (ty : tokenType) (lx : string) : parserState :=
  ParserState (TokenSlice lineTokens []) i (tk ty lx) false.

(** The statement the parser makes of nothing: an expression statement
    around the zero node. *)
Definition emptyStatement (g_zero : grammarType) : astNode :=
  makeNode g_EXPRESSION_STATEMENT "" [zeroAst g_zero].

(** The source [{] alone: a block that is opened and never closed. *)
Definition unclosedBlockTokens : list token :=
  [tk tCURLY_LEFT "{"; tk tEND_OF_INPUT ""].

Definition unclosedBlockState : parserState :=
  ParserState (TokenSlice unclosedBlockTokens []) 1 (tk tEND_OF_INPUT "") false.

(** *** Chains of binary operators *)

(** One round of the outer loop of parseBinary, and what follows the loop:
    [parseBinaryWith] is the loop of the rounds followed by the end. *)
Definition binaryRound (operatorTable : tokenType → option operator)
  (fuel : nat) (operand : P astNode) (st : binaryState)
  : P (binaryState * bool) :=
  let '(opStack, outputStack, root) := st in
  e <- operand ;;
  let outputStack := outputStack ++ [e] in
  p <- get ;;
  match operatorTable (tType (tok p)) with
  | None => ret ((opStack, outputStack, root), false)
  | Some op =>
      if globalFlagIsInsideForIn p && bool_decide (tType (tok p) = tIN)
      then ret ((opStack, outputStack, root), false)
      else
        '(opStack, outputStack, root) <-
          reduceStack operatorTable fuel op (opStack, outputStack, root) ;;
        p <- get ;;
        let opStack := opStack ++ [tok p] in
        next ;;
        ret ((opStack, outputStack, root), true)
  end.

Definition binaryEnd (st : binaryState) : P astNode :=
  let '(opStack, outputStack, root) := st in
  '(outputStack, root) <-
    forRange (reverse opStack) (λ '(outputStack, _) opToken,
      '(outputStack, nn) <- addNode opToken outputStack ;;
      ret (outputStack, Some nn)) (outputStack, root) ;;
  match root with
  | Some r => ret r
  | None => orPanic (last outputStack)
  end.

(** The loop of parseBinary stops in the state [q]: its token is no
    operator, or it is [in] in the header of a for-in statement. *)
Definition binaryStops (operatorTable : tokenType → option operator)
  (q : parserState) : Prop :=
  operatorTable (tType (tok q)) = None ∨
  (globalFlagIsInsideForIn q = true ∧ tType (tok q) = tIN).

(** The operands and operators parseBinary meets from the state [p]: the
    operand [a], then the operator tokens with the operands that follow
    them, up to the state [qf] in which the loop stops. *)
Inductive operandChain (operatorTable : tokenType → option operator)
  (operand : P astNode)
  : parserState → astNode → list (token * astNode) → parserState → Prop :=
| operandChain_last p a q :
    operand p = Ok (a, q) → binaryStops operatorTable q →
    operandChain operatorTable operand p a [] q
| operandChain_more p a q o b rest qf :
    operand p = Ok (a, q) →
    operatorTable (tType (tok q)) = Some o →
    globalFlagIsInsideForIn q && bool_decide (tType (tok q) = tIN) = false →
    operandChain operatorTable operand (advance q) b rest qf →
    operandChain operatorTable operand p a ((tok q, b) :: rest) qf.

(** The operators of a chain all have the precedence [level] and the
    associativity [rightAssoc]. *)
Definition sameLevel (operatorTable : tokenType → option operator)
  (level : Z) (rightAssoc : bool) (rest : list (token * astNode)) : Prop :=
  Forall (λ item, ∃ o, operatorTable (tType item.1) = Some o ∧
                       precedence o = level ∧
                       isRightAssociative o = rightAssoc) rest.

Definition binaryNode (lhs : astNode) (item : token * astNode) : astNode :=
  makeNode g_EXPRESSION (lexeme item.1) [lhs; item.2].

(** [((a op b) op c) op d] *)
Definition leftNested (a : astNode) (rest : list (token * astNode))
  : astNode :=
  fold_left binaryNode rest a.

(** [a op (b op (c op d))] *)
Fixpoint rightNested (a : astNode) (rest : list (token * astNode))
  : astNode :=
  match rest with
  | [] => a
  | (t, b) :: rest' => makeNode g_EXPRESSION (lexeme t) [a; rightNested b rest']
  end.

(** *** Binary expressions as trees over their operands *)

(** What parseBinary builds of a chain: operands joined by operator
    tokens.  The operands are trees of their own, which may be binary
    expressions too (in parentheses): the tree tells the nodes of the chain
    from them. *)
Inductive binaryTree :=
| Operand (a : astNode)
| Binary (t : token) (l r : binaryTree).

Fixpoint treeNode (T : binaryTree) : astNode :=
  match T with
  | Operand a => a
  | Binary t l r => makeNode g_EXPRESSION (lexeme t) [treeNode l; treeNode r]
  end.

(** The operands and the operator tokens of a tree, from left to right:
    the first operand, then each operator with the operand after it. *)
Fixpoint inorder (T : binaryTree) : astNode * list (token * astNode) :=
  match T with
  | Operand a => (a, [])
  | Binary t l r =>
      ((inorder l).1, (inorder l).2 ++ (t, (inorder r).1) :: (inorder r).2)
  end.

Definition rootOperator (T : binaryTree) : option token :=
  match T with
  | Operand _ => None
  | Binary t _ _ => Some t
  end.

Fixpoint operatorsOf (T : binaryTree) : list token :=
  match T with
  | Operand _ => []
  | Binary t l r => operatorsOf l ++ t :: operatorsOf r
  end.

Section Nesting.

Variable operatorTable : tokenType → option operator.

Definition precedenceOf (t : token) : Z :=
  precedence (lookupOperator operatorTable (tType t)).

(** The operator [stacked] goes before the operator [incoming] that
    follows it in the source: its precedence is strictly higher, or equal
    with [incoming] left-associative. *)
Definition goesBefore (stacked incoming : token) : Prop :=
  (precedenceOf stacked > precedenceOf incoming)%Z ∨
  (precedenceOf stacked = precedenceOf incoming ∧
   isRightAssociative (lookupOperator operatorTable (tType incoming)) = false).

(** A tree nested by precedence and associativity: at each node, the
    operator at the root of the left operand goes before the operator of
    the node, and the operator of the node does not go before the operator
    at the root of the right operand. *)
Fixpoint nested (T : binaryTree) : Prop :=
  match T with
  | Operand _ => True
  | Binary t l r =>
      nested l ∧ nested r ∧
      (∀ tl, rootOperator l = Some tl → goesBefore tl t) ∧
      (∀ tr, rootOperator r = Some tr → ¬ goesBefore t tr)
  end.

(** No operator stands below an operator of strictly higher precedence:
    the operators inside each node have at least its precedence. *)
Fixpoint tighterInside (T : binaryTree) : Prop :=
  match T with
  | Operand _ => True
  | Binary t l r =>
      tighterInside l ∧ tighterInside r ∧
      ∀ t', t' ∈ operatorsOf l ++ operatorsOf r →
            (precedenceOf t ≤ precedenceOf t')%Z
  end.

End Nesting.

(** The stacks of parseBinary as trees: the operands on the output stack
    below the top, each with the operator pushed after it, from the bottom
    up, and the tree on top.  Reducing every stacked operator, from the
    top down, gives [close]. *)
Definition close (base : list (binaryTree * token)) (top : binaryTree)
  : binaryTree :=
  fold_right (λ item acc, Binary item.2 item.1 acc) top base.

(** The operator stack and the output stack below its top. *)
Definition opsOf (base : list (binaryTree * token)) : list token := base.*2.

Definition outOf (base : list (binaryTree * token)) : list astNode :=
  treeNode <$> base.*1.

(** [a + b * c - d], and the states of the parser on it. *)
Definition mixedTokens : list token :=
  [tk tNAME "a"; tk tPLUS "+"; tk tNAME "b"; tk tMULT "*"; tk tNAME "c";
   tk tMINUS "-"; tk tNAME "d"; tk tEND_OF_INPUT ""].

Definition mixedState (index : nat) (lx : string) (ty : tokenType)
  : parserState :=
  ParserState (TokenSlice mixedTokens []) index (tk ty lx) false.

(** [a - b - c], and the states of the parser on it. *)
Definition differenceTokens : list token :=
  [tk tNAME "a"; tk tMINUS "-"; tk tNAME "b"; tk tMINUS "-"; tk tNAME "c";
   tk tEND_OF_INPUT ""].

Definition differenceState (index : nat) (lx : string) (ty : tokenType)
  : parserState :=
  ParserState (TokenSlice differenceTokens []) index (tk ty lx) false.

(** *** Vocabulary of the transform *)

(** The depth of a tree: the bound modifyAst needs on its recursion. *)
Fixpoint height (n : astNode) : nat :=
  let 'AstNode _ _ ch _ := n in S (list_max (map height ch)).

(** The trees the transform has nothing to do in, given the imported
    bindings [vars]: no import, export or program node, no name that is
    bound, no [module.exports], no call of [require]; member expressions
    and calls have the children the transform reads. *)
Fixpoint untouched (vars : gmap string astNode) (n : astNode) : bool :=
  let 'AstNode ty v ch _ := n in
  match ty with
  | g_IMPORT_STATEMENT | g_EXPORT_STATEMENT | g_PROGRAM_STATEMENT => false
  | g_NAME => bool_decide (vars !! v = None)
  | g_MEMBER_EXPRESSION =>
      match ch with
      | c0 :: c1 :: _ =>
          negb (bool_decide (value c0 = "module") &&
                bool_decide (value c1 = "exports")) &&
          forallb (untouched vars) ch
      | _ => false
      end
  | g_FUNCTION_CALL =>
      match ch with
      | c0 :: c1 :: _ =>
          negb (bool_decide (value c0 = "require")) &&
          forallb (untouched vars) ch
      | _ => false
      end
  | _ => forallb (untouched vars) ch
  end.

(** A path that the resolver gives for some import of the file. *)
Definition resolvedFrom (trim : string → string) (fileName r : string)
  : Prop :=
  ∃ importPath, resolveES6ImportPath trim importPath fileName = Some r.

(** What the transform may do to its state: the dependency list grows at
    its end, by resolved paths, and no binding is removed. *)
Definition transformGrows (trim : string → string) (fileName : string)
  (s s' : transformState) : Prop :=
  (∃ l, fileImports s' = fileImports s ++ l ∧
        Forall (resolvedFrom trim fileName) l) ∧
  dom (importedVars (ctx s)) ⊆ dom (importedVars (ctx s')) ∧
  parent (ctx s') = parent (ctx s).

(** [var x = a.b(1);] and [if (x) { return x }], statements without
    import, export or require. *)
Definition plainStatements : list astNode :=
  [makeNode g_DECLARATION_STATEMENT ""
     [makeNode g_DECLARATION_EXPRESSION "var"
        [makeNode g_DECLARATOR ""
           [makeNode g_NAME "x" [];
            makeNode g_FUNCTION_CALL ""
              [makeNode g_MEMBER_EXPRESSION ""
                 [makeNode g_NAME "a" []; makeNode g_NAME "b" []];
               makeNode g_FUNCTION_ARGS "" [makeNode g_NUMBER_LITERAL "1" []]]]]];
   makeNode g_IF_STATEMENT ""
     [makeNode g_NAME "x" [];
      makeNode g_BLOCK_STATEMENT ""
        [makeNode g_RETURN_STATEMENT "" [makeNode g_NAME "x" []]]]].

(** A step of the transform that only grows the state, and whose results
    satisfy [Q]. *)
Definition keeps (trim : string → string) (fileName : string) {A : Type}
  (c : T A) (Q : A → Prop) : Prop :=
  ∀ s a s', c s = Ok (a, s') → transformGrows trim fileName s s' ∧ Q a.

(** The import statement as the parser builds it: its variables, each
    with the name it has in the module and its alias here, the alias of
    [* as] (empty when there is none) and the lexeme of the path. *)
Definition importVar (v : string * string) : astNode :=
  makeNode g_IMPORT_VAR ""
    [makeNode g_IMPORT_NAME v.1 []; makeNode g_IMPORT_ALIAS v.2 []].

Definition importStatement (vars : list (string * string))
  (all path : string) : astNode :=
  makeNode g_IMPORT_STATEMENT ""
    [AstNode g_IMPORT_VARS "" (importVar <$> vars) 0;
     AstNode g_IMPORT_ALL all [] 0;
     AstNode g_IMPORT_PATH path [] 0].

(** The name of the copy of an asset in the directory of the bundle. *)
Definition assetName (resolvedPath : string) : string :=
  CreateVarNameFromPath resolvedPath +:+ Ext resolvedPath.

(** What an alias stands for after the import of [name] from the file at
    [resolvedPath]: the member [modules.<module>.<name>] of a module, the
    name of the copy of an asset. *)
Definition importedValue (resolvedPath name : string) : astNode :=
  if bool_decide (Ext resolvedPath = ".js") then
    makeNode g_MEMBER_EXPRESSION ""
      [makeNode g_MEMBER_EXPRESSION ""
         [makeNode g_NAME "modules" [];
          makeNode g_NAME (CreateVarNameFromPath resolvedPath) []];
       makeNode g_IMPORT_NAME name []]
  else makeNode g_STRING_LITERAL ("'" +:+ assetName resolvedPath +:+ "'") [].

(** The bindings after an import statement: the alias of [* as] stands for
    the bare name of the module, then each variable is bound in turn. *)
Definition bindImports (resolvedPath : string) (vars : list (string * string))
  (all : string) (m : gmap string astNode) : gmap string astNode :=
  fold_left (λ m v, <[v.2 := importedValue resolvedPath v.1]> m) vars
    (if bool_decide (all ≠ "")
     then <[all := makeNode g_NAME (CreateVarNameFromPath resolvedPath) []]> m
     else m).

(** *** Vocabulary of a build: what its calls claim *)

(** The fragment the cache holds for a file. *)
Definition fragmentOf (m : gmap string fileCache) (p : string) : list byte :=
  Data (default zeroFileCache (m !! p)).

(** From the state [w] to the state [w'], the files of [order] have been
    claimed, each once and in that order: they are the files claimed in
    [w'] and not in [w]; the bundle has grown by their fragments, in that
    order; the files loaded are among them, each loaded once; the entry of
    a claimed file bears the modification time of the file on disk; the
    entries of the other files are as they were. *)
Definition claims (w w' : world) (order : list string) : Prop :=
  files w' = files w ∧
  NoDup order ∧
  (∀ q, q ∈ order ↔ claimed (Files w') q ∧ ¬ claimed (Files w) q) ∧
  bundle w' = bundle w ++ concat (fragmentOf (Files w') <$> order) ∧
  (∃ l, loaded w' = loaded w ++ l ∧ sublist l order) ∧
  (∀ q, q ∈ order →
        ∃ e st, Files w' !! q = Some e ∧ files w' !! q = Some st ∧
                LastModTime e = modTime st) ∧
  (∀ q, q ∉ order → Files w' !! q = Files w !! q).

(** Every import the cache records for the file is claimed. *)
Definition importsClaimed (m : gmap string fileCache) (q : string) : Prop :=
  ∀ x, x ∈ importsOf m q → claimed m x.

(** What a call of [addFileToBundle] on [p] does: it claims some files,
    and when it sends no error [p] is claimed and the imports of the files
    it has claimed are all claimed. *)
Definition claimsClosed (p : string) (w : world) (e : option error)
  (w' : world) : Prop :=
  ∃ order, claims w w' order ∧
    (e = None → claimed (Files w') p ∧
                ∀ q, q ∈ order → importsClaimed (Files w') q).

(** *** The watcher *)

(** The state with another disk. *)
Definition withDisk (disk : gmap string osFile) (w : world) : world :=
  World disk (Files w) (bundle w) (copied w) (printed w) (loaded w).

Section Watch.

Variable LoadFile :
  list byte → string → outcome Empty_set (list byte * list string + LoaderError).
Variable bundleDir : string.

(** The test of the loop of checkFiles on one cache entry: the entry is
    reachable, the file can be examined, and its modification time is not
    the entry's. *)
Definition changedOnDisk (w : world) (path : string) (file : fileCache)
  : bool :=
  IsReachable file &&
  match files w !! path with
  | Some stats => bool_decide (LastModTime file ≠ modTime stats)
  | None => false
  end.

(** checkFiles of watchBundledFiles, for one round of its outer loop: the
    range over the cache rebuilds at the first entry that has changed on
    disk and stops there; the order of the range plays no part in whether
    a build is made. *)
Definition checkFiles (fuel : nat) (entryName : string) : B unit :=
  w <- get ;;
  if existsb (λ kv, changedOnDisk w kv.1 kv.2) (map_to_list (Files w))
  then createBundle LoadFile bundleDir fuel entryName
  else ret tt.

End Watch.

(** A file of the last build has another modification time on [disk] than
    it had when it was built. *)
Definition touched (w : world) (disk : gmap string osFile) : Prop :=
  ∃ q st st', claimed (Files w) q ∧ files w !! q = Some st ∧
              disk !! q = Some st' ∧ modTime st' ≠ modTime st.

(** A loader for the samples: the fragment of a file is its source;
    [index.js] imports [lib.js] and [logo.png], the other files import
    nothing. *)
Definition sampleLoad (src : list byte) (filePath : string)
  : outcome Empty_set (list byte * list string + LoaderError) :=
  Ok (inl (src, if decide (filePath = "index.js") then ["lib.js"; "logo.png"]
                else [])).

(** A bundler with three files on disk and an empty cache. *)
Definition sampleWorld : world :=
  World (<["index.js" := OsFile 7%Z (Some (bytes "index();"))]>
           (<["lib.js" := OsFile 5%Z (Some (bytes "lib();"))]>
              (<["logo.png" := OsFile 3%Z (Some (bytes "PNG"))]> ∅)))
    ∅ [] [] [] [].

(** The state a build leaves, or the state itself when the build does not
    return. *)
Definition afterBuild
  (LoadFile :
     list byte → string →
     outcome Empty_set (list byte * list string + LoaderError))
  (fuel : nat) (entry : string) (w : world) : world :=
  match createBundle LoadFile "build" fuel entry w with
  | Ok (_, w') => w'
  | _ => w
  end.

(** *** The place of a module in the invocation order *)

(** The names [names] are names of modules below [f]: modules that [f]
    reaches by imports, other than [f] and than the files of the path. *)
Definition below (c : gmap string fileCache) (f : string)
  (path names : list string) : Prop :=
  ∀ N, N ∈ names →
    ∃ g, N = moduleNameOf g ∧ isJs g ∧ tc (edge c) f g ∧ (g ∉ path) ∧ g ≠ f.

(** What a call of createImportTree on [f] adds to the order: nothing when
    [f] is no module or is on the path; otherwise names of modules below
    [f], then the name of [f] unless it is there already. *)
Definition placesLast (c : gmap string fileCache) (f : string)
  (path : list string) (s s' : treeState) : Prop :=
  ∃ names, below c f path names ∧
    (((¬ isJs f ∨ (f ∈ path)) ∧ names = [] ∧ moduleOrder s' = moduleOrder s) ∨
     (isJs f ∧ (f ∉ path) ∧
      moduleOrder s'
      = moduleOrder (placeModule f (TreeState (moduleOrder s ++ names) [])))).

(** ** Package main: the page of the bundle *)

(** [strings.Index(s, substr)]; [None] is -1. *)
Fixpoint Index (s substr : string) : option nat :=
  if String.prefix substr s then Some 0
  else match s with
       | EmptyString => None
       | String _ s' => S <$> Index s' substr
       end.

(** The slashes at the end of a path, removed. *)
Fixpoint stripTrailingSlashes (path : string) : string :=
  match path with
  | EmptyString => EmptyString
  | String c rest =>
      match stripTrailingSlashes rest with
      | EmptyString => if Ascii.eqb c "/" then EmptyString
                       else String c EmptyString
      | r => String c r
      end
  end.

(** [filepath.Base]: the last element of the path, trailing slashes
    apart; [.] for the empty path and [/] for a path of slashes. *)
Definition Base (path : string) : string :=
  if bool_decide (path = "") then "."
  else
    match last (GoStr.Split (stripTrailingSlashes path) "/") with
    | Some EmptyString | None => "/"
    | Some element => element
    end.

(** The line [\n</body] before which the script is inserted, and the
    script element of the bundle, with its quotes (character 34) and its
    newlines (character 10). *)
Definition bodyEnd : string := String "010" "</body".

Definition scriptTag (bundleName : string) : string :=
  String "010" ("  <script src=" +:+
    String "034" (Base bundleName +:+
      String "034" ("></script>" +:+ String "010" ""))).

(** bundleHTMLTemplate: the text it writes to [index.html] in the
    directory of the bundle, from the text of the template ([None] when it
    cannot be read).  [None] is [log.Fatal]: the template cannot be read,
    or has no line that starts with the end of the body. *)
Definition bundleHTMLTemplate (template : option string)
  (bundleName : string) : option string :=
  templateStr ← template;
  insertIndex ← Index templateStr bodyEnd;
  Some (String.substring 0 insertIndex templateStr +:+
        scriptTag bundleName +:+
        String.substring (insertIndex + 1)
          (String.length templateStr - (insertIndex + 1)) templateStr).

(** A page, on three lines. *)
Definition samplePage : string :=
  "<html><body>" +:+ String "010" "<p>hello</p>" +:+
  String "010" "</body></html>".

(** *** Export statements and CommonJS exports *)

(** The export statement as the parser builds it: its variables, each
    with the node of what is exported and the node of the name it is
    exported under, the declaration it may carry, the lexeme of the path
    of a re-export (empty when there is none) and its flags. *)
Definition exportVar (v : astNode * astNode) : astNode :=
  makeNode g_EXPORT_VAR "" [v.1; v.2].

Definition exportStatement (vars : list (astNode * astNode))
  (declaration : astNode) (path : string) (flags : Z) : astNode :=
  AstNode g_EXPORT_STATEMENT ""
    [makeNode g_EXPORT_VARS "" (exportVar <$> vars);
     declaration;
     makeNode g_EXPORT_PATH path []] flags.

(** [modules.<module>], for the module at [resolvedPath]. *)
Definition moduleObject (resolvedPath : string) : astNode :=
  makeNode g_MEMBER_EXPRESSION ""
    [makeNode g_NAME "modules" [];
     makeNode g_NAME (CreateVarNameFromPath resolvedPath) []].

(** The statement [exports.<alias> = <value>, ...] for the variables of an
    export; the values are taken from the module [source] of a re-export. *)
Definition exportAssignments (source : option string)
  (vars : list (astNode * astNode)) : astNode :=
  makeNode g_EXPRESSION_STATEMENT ""
    [makeNode g_SEQUENCE_EXPRESSION "="
       ((λ v, makeNode g_EXPRESSION "="
                [makeNode g_MEMBER_EXPRESSION ""
                   [makeNode g_NAME "exports" []; v.2];
                 match source with
                 | Some r => makeNode g_MEMBER_EXPRESSION "" [moduleObject r; v.1]
                 | None => v.1
                 end]) <$> vars)].

(** [Object.assign(exports, modules.<module>)] *)
Definition exportAll (resolvedPath : string) : astNode :=
  makeNode g_EXPRESSION_STATEMENT ""
    [makeNode g_FUNCTION_CALL ""
       [makeNode g_MEMBER_EXPRESSION ""
          [makeNode g_NAME "Object" []; makeNode g_NAME "assign" []];
        makeNode g_FUNCTION_ARGS ""
          [makeNode g_NAME "exports" []; moduleObject resolvedPath]]].

(** The nodes of the variables of an export. *)
Definition exportNodes (vars : list (astNode * astNode)) : list astNode :=
  vars ≫= λ v, [v.1; v.2].

(** [export default 1], as the parser builds it. *)
Definition exportDefaultOne : astNode :=
  exportStatement
    [(makeNode g_NUMBER_LITERAL "1" [], makeNode g_EXPORT_ALIAS "default" [])]
    (makeNode g_EXPORT_DECLARATION "" []) "" 0.

(** A blank source of one line, as the scanner gives it. *)
Definition blankTokens : list token :=
  [tk tNEWLINE ""; tk tEND_OF_INPUT ""].

(** [module.exports], as the parser builds it. *)
Definition moduleExports : astNode :=
  makeNode g_MEMBER_EXPRESSION ""
    [makeNode g_NAME "module" []; makeNode g_NAME "exports" []].
(** * Properties *)

Set Warnings "-clear-no-such-hyp".
Lemma append_cons (c : ascii) (s t : string) :
  String c s +:+ t = String c (s +:+ t).
Proof. reflexivity. Qed.

Lemma append_nil_r (s : string) : s +:+ "" = s.
Proof. induction s as [|c s IH]; [done | by rewrite append_cons, IH]. Qed.

Lemma append_assoc (s1 s2 s3 : string) :
  (s1 +:+ s2) +:+ s3 = s1 +:+ (s2 +:+ s3).
Proof.
  induction s1 as [|c s1 IH]; [done | by rewrite !append_cons, IH].
Qed.

Lemma append_length (s1 s2 : string) :
  String.length (s1 +:+ s2) = String.length s1 + String.length s2.
Proof.
  induction s1 as [|c s1 IH]; [done |].
  rewrite append_cons. simpl. by rewrite IH.
Qed.

Lemma Split_nonempty (s : string) (sep : ascii) : Split s sep ≠ [].
Proof.
  destruct s as [|c s]; simpl; [done |].
  destruct (Ascii.eqb c sep); [done |].
  by destruct (Split s sep).
Qed.

Lemma Join_cons (e : string) (rest : list string) (sep : string) :
  rest ≠ [] → Join (e :: rest) sep = e +:+ sep +:+ Join rest sep.
Proof. by destruct rest. Qed.

Lemma Join_snoc (l : list string) (x sep : string) :
  l ≠ [] → Join (l ++ [x]) sep = Join l sep +:+ sep +:+ x.
Proof.
  induction l as [|e l IH]; [done |]. intros _.
  destruct l as [|e' l]; [done |].
  change ((e :: e' :: l) ++ [x]) with (e :: (e' :: l) ++ [x]).
  rewrite Join_cons by done.
  rewrite IH by done. rewrite (Join_cons e (e' :: l)) by done.
  by rewrite !append_assoc.
Qed.

(** Joining the parts of a split gives the string back. *)
Lemma Join_Split (s : string) (sep : ascii) :
  Join (Split s sep) (String sep "") = s.
Proof.
  induction s as [|c s IH]; [done |]. simpl.
  destruct (Ascii.eqb_spec c sep) as [->|Hne].
  - rewrite Join_cons by apply Split_nonempty. by rewrite IH.
  - pose proof (Split_nonempty s sep) as Hs.
    destruct (Split s sep) as [|h t] eqn:E; [done |].
    destruct t as [|h' t].
    + simpl in *. by rewrite IH.
    + rewrite Join_cons by done. rewrite Join_cons in IH by done.
      by rewrite append_cons, IH.
Qed.

(** ** Import-path resolution *)

Section ResolveFacts.

Variable trim : string → string.

Lemma resolveLoop_plain (parts loc pp : list string) :
  Forall (λ s, ¬ isDotSegment s) parts →
  resolveLoop parts loc pp = Some (loc, pp).
Proof.
  intros H. induction H as [|part rest Hp _ IH]; [done |].
  simpl. unfold isDotSegment in Hp.
  repeat case_decide; simpl; try done; exfalso; apply Hp; auto.
Qed.

Lemma resolveLoop_dot (rest loc pp : list string) (x : string) :
  resolveLoop ("." :: rest) loc (x :: pp) = resolveLoop rest loc pp.
Proof. simpl. repeat case_decide; done. Qed.

Lemma resolveLoop_dotdot (rest loc pp : list string) (l x : string) :
  resolveLoop (".." :: rest) (loc ++ [l]) (x :: pp) = resolveLoop rest loc pp.
Proof.
  simpl. repeat case_decide; try done.
  unfold dropLast. destruct (loc ++ [l]) eqn:E.
  - by destruct loc.
  - rewrite <- E, removelast_last. done.
Qed.

(** On a leading run of dot segments the loop drops them from the path, and
    drops one directory per [..]. *)
Lemma resolveLoop_leading (dots rest loc : list string) :
  Forall isDotSegment dots →
  Forall (λ s, ¬ isDotSegment s) rest →
  (ups dots ≤ length loc)%nat →
  resolveLoop (dots ++ rest) loc (dots ++ rest)
  = Some (take (length loc - ups dots) loc, rest).
Proof.
  intros Hd Hr. revert loc.
  induction Hd as [|d dots Hdot _ IH]; intros loc Hup.
  - simpl. rewrite resolveLoop_plain by done.
    unfold ups. simpl. by rewrite Nat.sub_0_r, firstn_all.
  - destruct Hdot as [-> | ->].
    + change (("." :: dots) ++ rest) with ("." :: (dots ++ rest)).
      rewrite resolveLoop_dot.
      unfold ups in *. rewrite filter_cons_False in * by done. by apply IH.
    + change ((".." :: dots) ++ rest) with (".." :: (dots ++ rest)).
      unfold ups in Hup |- *. rewrite filter_cons_True in Hup |- * by done.
      simpl in Hup.
      destruct loc as [|l loc _] using rev_ind; [simpl in Hup; lia |].
      rewrite resolveLoop_dotdot. rewrite length_app in Hup |- *.
      simpl in Hup |- *. rewrite IH by (unfold ups; lia).
      do 2 f_equal. unfold ups.
      rewrite take_app_le by lia. f_equal. lia.
Qed.

(** Relative paths: the leading dot segments are resolved against the
    directory of the importing file. *)
Lemma resolve_relative (importPath currentFileName : string)
    (dots rest : list string) (final : string) :
  Split (trim importPath) "/" = dots ++ rest →
  dots ≠ [] →
  Forall isDotSegment dots →
  Forall (λ s, ¬ isDotSegment s) rest →
  last rest = Some final →
  let dir := removelast (Split currentFileName "/") in
  (ups dots ≤ length dir)%nat →
  resolveES6ImportPath trim importPath currentFileName
  = Some (Join (take (length dir - ups dots) dir ++ rest) "/"
          +:+ (if Contains final "." then "" else ".js")).
Proof.
  intros Hsplit Hne Hd Hr Hlast dir Hup.
  unfold resolveES6ImportPath. rewrite Hsplit.
  pose proof (Split_nonempty currentFileName "/") as Hcur.
  destruct (Split currentFileName "/") as [|c0 cs] eqn:Ecur; [done |].
  simpl dropLast. simpl mbind. cbn [option_bind].
  destruct dots as [|d dots]; [done |].
  assert (Hfirst : bool_decide (d ≠ ".") && bool_decide (d ≠ "..") = false).
  { inversion Hd as [|? ? [-> | ->] _]; done. }
  cbn [app]. rewrite Hfirst.
  change (d :: dots ++ rest) with ((d :: dots) ++ rest).
  rewrite resolveLoop_leading by done.
  cbn [mbind option_bind]. rewrite Hlast. done.
Qed.

(** Package paths: no dot segment; the path is rooted at [node_modules],
    and a single segment gets [index.js]. *)
Lemma resolve_package (importPath currentFileName : string)
    (parts : list string) (final : string) :
  Split (trim importPath) "/" = parts →
  Forall (λ s, ¬ isDotSegment s) parts →
  last parts = Some final →
  resolveES6ImportPath trim importPath currentFileName
  = Some (if decide (length parts = 1) then
            Join ("node_modules" :: parts ++ ["index.js"]) "/"
          else
            Join ("node_modules" :: parts) "/"
            +:+ (if Contains final "." then "" else ".js")).
Proof.
  intros Hsplit Hr Hlast.
  unfold resolveES6ImportPath. rewrite Hsplit.
  pose proof (Split_nonempty currentFileName "/") as Hcur.
  destruct (Split currentFileName "/") as [|c0 cs] eqn:Ecur; [done |].
  simpl dropLast. cbn [mbind option_bind].
  destruct parts as [|d parts]; [done |].
  assert (Hfirst : bool_decide (d ≠ ".") && bool_decide (d ≠ "..") = true).
  { inversion Hr as [|? ? Hd _]. apply andb_true_iff.
    split; apply bool_decide_eq_true; intros ->; apply Hd; [by left | by right]. }
  rewrite Hfirst.
  destruct (decide (length (d :: parts) = 1)) as [Hone|Hmany].
  - rewrite resolveLoop_plain.
    2:{ apply Forall_app. split; [done |]. repeat constructor.
        unfold isDotSegment. intros [?|?]; discriminate. }
    cbn [mbind option_bind]. rewrite last_snoc. cbn [mbind option_bind].
    by rewrite append_nil_r.
  - rewrite resolveLoop_plain by done.
    cbn [mbind option_bind]. rewrite Hlast. done.
Qed.

End ResolveFacts.

(** C4 (counterexample): resolving ['./m.js'] from [src/index.js] gives
    [src/m.js], and resolving that identity again gives
    [node_modules/src/m.js]: the second resolution does not return its
    argument. *)
Lemma C4_resolve_twice_differs :
  resolveES6ImportPath trimQuotes "'./m.js'" "src/index.js" = Some "src/m.js" ∧
  resolveAgain trimQuotes "'./m.js'" "src/index.js"
  = Some "node_modules/src/m.js" ∧
  resolveAgain trimQuotes "'./m.js'" "src/index.js"
  ≠ resolveES6ImportPath trimQuotes "'./m.js'" "src/index.js".
Proof. split; [|split]; [reflexivity | reflexivity | discriminate]. Qed.

(** C4 (amended): resolution is not idempotent on canonical identities.  An
    identity [y] that resolution has produced, that has no [.] or [..]
    segment and that the trimming of quotes leaves alone, resolves again to
    [node_modules/] followed by [y] (then [/index.js] when [y] is a single
    segment, [.js] when its last segment has no dot), whatever the
    importing file; the second resolution never gives [y] back. *)
Theorem C4_resolve_again_adds_node_modules
    (trim : string → string) (x cur y : string) :
  resolveES6ImportPath trim x cur = Some y →
  trim y = y →
  Forall (λ s, ¬ isDotSegment s) (Split y "/") →
  resolveAgain trim x cur
  = Some ("node_modules/" +:+ y +:+ reresolvedSuffix (Split y "/")) ∧
  resolveAgain trim x cur ≠ resolveES6ImportPath trim x cur.
Proof.
  intros Hx Htrim Hplain.
  assert (Hy : resolveES6ImportPath trim y cur
               = Some ("node_modules/" +:+ y +:+ reresolvedSuffix (Split y "/"))).
  { pose proof (Split_nonempty y "/") as Hne.
    destruct (last (Split y "/")) as [final|] eqn:Hlast.
    2:{ apply last_None in Hlast. done. }
    rewrite (resolve_package trim y cur (Split y "/") final);
      [| by rewrite Htrim | done | done].
    unfold reresolvedSuffix. rewrite Hlast. f_equal.
    pose proof (Join_Split y "/") as HJ.
    case_decide.
    - change ("node_modules" :: Split y "/" ++ ["index.js"])
        with ("node_modules" :: (Split y "/" ++ ["index.js"])).
      rewrite Join_cons by by destruct (Split y "/").
      rewrite Join_snoc by done. rewrite HJ. reflexivity.
    - rewrite Join_cons by done. rewrite HJ. rewrite append_nil_r || idtac.
      reflexivity. }
  unfold resolveAgain. rewrite Hx. cbn [mbind option_bind]. rewrite Hy.
  split; [done |]. intros [= Heq].
  apply (f_equal String.length) in Heq.
  rewrite !append_length in Heq. simpl in Heq. lia.
Qed.

Lemma C4_resolve_again_adds_node_modules_witness :
  resolveAgain trimQuotes "'./m.js'" "src/index.js"
  = Some ("node_modules/" +:+ "src/m.js" +:+ reresolvedSuffix (Split "src/m.js" "/")) ∧
  resolveAgain trimQuotes "'./m.js'" "src/index.js"
  ≠ resolveES6ImportPath trimQuotes "'./m.js'" "src/index.js".
Proof.
  apply (C4_resolve_again_adds_node_modules trimQuotes
           "'./m.js'" "src/index.js" "src/m.js").
  - reflexivity.
  - reflexivity.
  - vm_compute. repeat constructor; unfold isDotSegment; intros [?|?]; discriminate.
Defined.

(** C9 (the code at the failing inputs): a package path with an inner
    [..] loses its [node_modules] root, and the paths [.] and [..] alone
    make the resolver panic. *)
Lemma C9_resolve_missed_cases :
  resolveES6ImportPath trimQuotes "'a/../b'" "src/index.js" = Some "../b.js" ∧
  resolveES6ImportPath trimQuotes "'.'" "src/index.js" = None ∧
  resolveES6ImportPath trimQuotes "'..'" "src/index.js" = None ∧
  resolveES6ImportPath trimQuotes "'../m.js'" "index.js" = None.
Proof. repeat split; reflexivity. Qed.

(** ** The module transform *)

(** Runs the monadic code of the goal as far as it computes. *)
Ltac go_run :=
  repeat (progress (cbn;
    unfold mapM, orPanic, modify, bind, ret, get, put, panic, elemAt)).

(** C2 (amended): a call [require(p)] on a string literal, [require] not
    being an imported binding, is rewritten to the member reference
    [modules.<name>.default] of the resolved module, and the resolved
    identity is appended to the dependency list of the file at each call:
    nothing is removed when it is there already, so a file that requires
    [p] several times lists it as many times. *)
Theorem C2_require_rewritten_and_listed_per_call
    (trim : string → string) (g_zero : grammarType) (fileName p r : string)
    (fuel : nat) (s : transformState) :
  resolveES6ImportPath trim p fileName = Some r →
  importedVars (ctx s) !! "require" = None →
  modifyAst trim g_zero fileName (3 + fuel) (requireCall p) s
  = Ok (defaultExportOf r, TransformState (fileImports s ++ [r]) (ctx s)).
Proof.
  intros Hr Hreq.
  change (3 + fuel) with (S (S (S fuel))). cbn [modifyAst].
  unfold modifyAstBody at 1. cbn [t requireCall makeNode].
  unfold modifyFunctionCall, modifyAstBody, lookupImportedVar,
    resolvePath, addFileImport, requireCall, makeNode.
  go_run. rewrite Hreq. go_run. rewrite Hr. go_run. done.
Qed.

Lemma C2_require_rewritten_and_listed_per_call_witness :
  modifyAst trimQuotes (g_OTHER 0) "src/index.js" (3 + 0)
    (requireCall "'./m.js'") (TransformState ["src/m.js"] (Context ∅ None))
  = Ok (defaultExportOf "src/m.js",
        TransformState (["src/m.js"] ++ ["src/m.js"]) (Context ∅ None)).
Proof.
  apply (C2_require_rewritten_and_listed_per_call trimQuotes (g_OTHER 0)
           "src/index.js" "'./m.js'" "src/m.js" 0
           (TransformState ["src/m.js"] (Context ∅ None))).
  - reflexivity.
  - reflexivity.
Defined.

Example requireTwice_parses :
  sampleParse 20 requireTwiceTokens = Ok (requireTwiceProgram, None).
Proof. vm_compute. reflexivity. Qed.

(** C2 (counterexample): a file whose function body requires ['./m.js']
    twice has the resolved identity twice in its dependency list. *)
Lemma C2_required_twice_listed_twice :
  sampleTransform 20 "src/index.js" requireTwiceProgram
  = Ok (moduleFactory "src/index.js"
          [makeNode g_FUNCTION_DECLARATION "f"
             [makeNode g_FUNCTION_PARAMETERS "" [];
              makeNode g_BLOCK_STATEMENT ""
                [makeNode g_EXPRESSION_STATEMENT "" [defaultExportOf "src/m.js"];
                 makeNode g_EXPRESSION_STATEMENT "" [defaultExportOf "src/m.js"]]]],
        ["src/m.js"; "src/m.js"]).
Proof. vm_compute. reflexivity. Qed.

Example shadowing_parses :
  sampleParse 20 shadowingTokens = Ok (shadowingProgram, None).
Proof. vm_compute. reflexivity. Qed.

(** The one table of imported bindings decides the fate of a name, wherever
    the name stands: no scope is consulted. *)
Lemma modifyAst_name_bound (trim : string → string) (g_zero : grammarType)
    (fileName : string) (fuel : nat) (n v : astNode) (s : transformState) :
  t n = g_NAME →
  importedVars (ctx s) !! value n = Some v →
  modifyAst trim g_zero fileName (S fuel) n s = Ok (v, s).
Proof.
  intros Ht Hv. cbn [modifyAst]. unfold modifyAstBody. rewrite Ht.
  unfold lookupImportedVar. go_run. by rewrite Hv.
Qed.

(** C3 (the code at the failing input): in
    [import v from './m.js'; function f(v) { return v }] the parameter [v]
    of [f] and the [v] of its body are both replaced by the imported
    binding [modules.src_m_js.default]. *)
Lemma C3_parameter_of_nested_function_replaced :
  sampleTransform 20 "src/index.js" shadowingProgram
  = Ok (moduleFactory "src/index.js"
          [makeNode g_EMPTY_EXPRESSION "" []; functionF importedV],
        ["src/m.js"]).
Proof. vm_compute. reflexivity. Qed.

(** ** The parser *)

(** The context window of a parse error: the ten tokens around the index,
    which the slice expression yields only when they lie within the
    capacity of the slice. *)
Lemma sliceExpr_window (s : tokenSlice) (i : nat) :
  sliceExpr s (Z.of_nat i - 5) (Z.of_nat i + 5) =
  if bool_decide (5 ≤ i ∧ i + 5 ≤ cap s)%nat then
    Some (take 10 (drop (i - 5) (elems s ++ spare s)))
  else None.
Proof.
  unfold sliceExpr.
  destruct (decide (5 ≤ i ∧ i + 5 ≤ cap s)%nat) as [[H1 H2]|Hn].
  - rewrite !bool_decide_eq_true_2 by lia.
    do 2 f_equal; [lia | f_equal; lia].
  - rewrite !bool_decide_eq_false_2 by lia. done.
Qed.

(** When checkASI has to report the current token, it panics with a
    parsing error only if the window around the index is within the
    slice; otherwise the panic is a run-time error. *)
Lemma checkASI_reports (ty : tokenType) (p : parserState) :
  ¬ (ty = tSEMI ∧ tType (tok p) ∈ [tNEWLINE; tCURLY_RIGHT; tEND_OF_INPUT]) →
  checkASI ty p =
  if bool_decide (5 ≤ index p ∧ index p + 5 ≤ cap (sourceTokens p))%nat then
    Panic (PanicWith (ParsingError p_UNEXPECTED_TOKEN (tok p)
      (take 10 (drop (index p - 5)
                 (elems (sourceTokens p) ++ spare (sourceTokens p))))))
  else Panic RuntimeError.
Proof.
  intros Hno. unfold checkASI. go_run.
  assert (Hbranch :
    bool_decide (ty = tSEMI) && bool_decide (tType (tok p) = tNEWLINE) = false ∧
    bool_decide (ty = tSEMI) &&
      (bool_decide (tType (tok p) = tCURLY_RIGHT) ||
       bool_decide (tType (tok p) = tEND_OF_INPUT)) = false).
  { destruct (decide (ty = tSEMI)) as [->|Hne].
    - rewrite !(bool_decide_eq_false_2 (tType (tok p) = _)); [done | ..];
        intros Heq; apply Hno; (split; [done |]); rewrite Heq; set_solver.
    - by rewrite !(bool_decide_eq_false_2 (ty = tSEMI)). }
  destruct Hbranch as [-> ->].
  rewrite sliceExpr_window. by case_bool_decide.
Qed.

Section BinaryExpressions.

Variable operatorTable : tokenType → option operator.
Variable operand : P astNode.

Local Arguments reduceStack : simpl never.
Local Arguments next : simpl never.

(** The condition of the inner loop, in terms of the two precedences. *)
Lemma reducesBefore_spec (opFromStack op : operator) :
  reducesBefore opFromStack op = true ↔
  (precedence opFromStack > precedence op)%Z ∨
  (precedence opFromStack = precedence op ∧ isRightAssociative op = false).
Proof.
  unfold reducesBefore.
  rewrite orb_true_iff, andb_true_iff, !bool_decide_eq_true, negb_true_iff.
  done.
Qed.

(** With no operator on the stack, the inner loop leaves at once. *)
Lemma reduceStack_empty (fuel : nat) (op : operator)
    (outputStack : list astNode) (root : option astNode) (p : parserState) :
  reduceStack operatorTable (S fuel) op ([], outputStack, root) p
  = Ok (([], outputStack, root), p).
Proof. reflexivity. Qed.

(** With one operator on the stack, the inner loop reduces it or leaves
    it, and stops. *)
Lemma reduceStack_one (fuel : nat) (op o1 : operator) (tk1 : token)
    (x y : astNode) (root : option astNode) (p : parserState) :
  operatorTable (tType tk1) = Some o1 →
  reduceStack operatorTable (2 + fuel) op ([tk1], [x; y], root) p
  = Ok (if reducesBefore o1 op then
          let nn := makeNode g_EXPRESSION (lexeme tk1) [x; y] in
          ([], [nn], Some nn)
        else ([tk1], [x; y], root), p).
Proof.
  intros Ho1. unfold reduceStack, lookupOperator.
  change (2 + fuel) with (S (S fuel)). cbn [loop].
  go_run. rewrite Ho1. cbn [from_option id].
  destruct (reducesBefore o1 op) eqn:E; go_run; reflexivity.
Qed.

(** Two binary operators between three operands, whatever the parser
    of the operands and the operator table.  Before the second operator is
    pushed, the first, on the stack, is reduced exactly when its
    precedence is strictly higher, or equal with the second operator
    left-associative; the first expression is then the left operand of the
    node of the second operator.  Otherwise (the second operator binds
    tighter, or as tightly and is right-associative) nothing is reduced
    before the push, and the second expression is the right operand of the
    node of the first operator, as in [a + b * c], parsed [a + (b * c)]. *)
Lemma precedence_of_two_operators (fuel : nat) (p0 p1 p2 p3 : parserState)
    (a b c : astNode) (o1 o2 : operator) :
  operand p0 = Ok (a, p1) →
  operatorTable (tType (tok p1)) = Some o1 →
  globalFlagIsInsideForIn p1 && bool_decide (tType (tok p1) = tIN) = false →
  operand (advance p1) = Ok (b, p2) →
  operatorTable (tType (tok p2)) = Some o2 →
  globalFlagIsInsideForIn p2 && bool_decide (tType (tok p2) = tIN) = false →
  operand (advance p2) = Ok (c, p3) →
  operatorTable (tType (tok p3)) = None →
  parseBinaryWith operatorTable (3 + fuel) operand p0
  = Ok (if decide ((precedence o1 > precedence o2)%Z ∨
                   (precedence o1 = precedence o2 ∧
                    isRightAssociative o2 = false))
        then makeNode g_EXPRESSION (lexeme (tok p2))
               [makeNode g_EXPRESSION (lexeme (tok p1)) [a; b]; c]
        else makeNode g_EXPRESSION (lexeme (tok p1))
               [a; makeNode g_EXPRESSION (lexeme (tok p2)) [b; c]],
        p3).
Proof.
  intros Ha Ho1 Hin1 Hb Ho2 Hin2 Hc Hend.
  unfold parseBinaryWith. change (3 + fuel) with (S (S (S fuel))).
  cbn [loop]. go_run. rewrite Ha. go_run. rewrite Ho1. go_run. rewrite Hin1.
  go_run. rewrite reduceStack_empty. unfold next. go_run.
  rewrite Hb. go_run. rewrite Ho2. go_run. rewrite Hin2. go_run.
  rewrite (reduceStack_one (S fuel) o2 o1) by done.
  pose proof (reducesBefore_spec o1 o2) as Hspec.
  destruct (reducesBefore o1 o2).
  - rewrite decide_True by by apply Hspec.
    go_run. rewrite Hc. go_run. rewrite Hend. go_run. reflexivity.
  - rewrite decide_False by (intros H; apply Hspec in H; done).
    go_run. rewrite Hc. go_run. rewrite Hend. go_run. reflexivity.
Qed.

End BinaryExpressions.
(** C5 (the code at the failing input): on the tokens of [)], a syntax
    error at index 0, the context window [sourceTokens[-5:5]] is out of
    bounds; the run-time panic is recovered by parseProgram, which sets no
    error: parseTokens returns the zero node and a nil error, whatever the
    operator table and the capacity of the token slice.  The same happens
    for [var = 5;], whose error is at index 1. *)
Lemma C5_error_near_start_is_lost
    (operatorTable : tokenType → option operator)
    (isLetter isNumber : ascii → bool) (g_zero : grammarType)
    (spare : list token) (fuel : nat) :
  parseTokens operatorTable isLetter isNumber g_zero (2 + fuel)
    (TokenSlice [tk tPAREN_RIGHT ")"; tk tEND_OF_INPUT ""] spare)
  = Ok (zeroAst g_zero, None) ∧
  parseTokens operatorTable isLetter isNumber g_zero (2 + fuel)
    (TokenSlice [tk tVAR "var"; tk tASSIGN "="; tk tNUMBER "5"; tk tSEMI ";";
                 tk tEND_OF_INPUT ""] spare)
  = Ok (zeroAst g_zero, None).
Proof. split; vm_compute; reflexivity. Qed.


(** The same error further from the start is reported as a parsing error
    with its window of ten tokens. *)
Example error_after_five_tokens_reported :
  sampleParse 20
    [tk tNAME "a"; tk tPLUS "+"; tk tNAME "b"; tk tSEMI ";"; tk tNEWLINE "";
     tk tPAREN_RIGHT ")"; tk tSEMI ";"; tk tNEWLINE ""; tk tNEWLINE "";
     tk tNEWLINE ""; tk tEND_OF_INPUT ""]
  = Ok (zeroAst (g_OTHER 0),
        Some (ParsingError p_UNEXPECTED_TOKEN (tk tPAREN_RIGHT ")")
                [tk tNAME "a"; tk tPLUS "+"; tk tNAME "b"; tk tSEMI ";";
                 tk tNEWLINE ""; tk tPAREN_RIGHT ")"; tk tSEMI ";";
                 tk tNEWLINE ""; tk tNEWLINE ""; tk tNEWLINE ""])).
Proof. vm_compute. reflexivity. Qed.

Example sum_product_nests :
  parseBinaryWith sampleTable (3 + 2) sampleOperand (sumProductState 0 "a" tNAME)
  = Ok (makeNode g_EXPRESSION "+"
          [makeNode g_NAME "a" [];
           makeNode g_EXPRESSION "*"
             [makeNode g_NAME "b" []; makeNode g_NAME "c" []]],
        sumProductState 5 "" tEND_OF_INPUT).
Proof.
  apply (precedence_of_two_operators sampleTable sampleOperand 2
           (sumProductState 0 "a" tNAME) (sumProductState 1 "+" tPLUS)
           (sumProductState 3 "*" tMULT) (sumProductState 5 "" tEND_OF_INPUT)
           (makeNode g_NAME "a" []) (makeNode g_NAME "b" [])
           (makeNode g_NAME "c" []) (Operator 13 false) (Operator 14 false));
    vm_compute; reflexivity.
Qed.

Example sum_product_parses :
  sampleParse 20 sumProductTokens
  = Ok (makeNode g_PROGRAM_STATEMENT ""
          [makeNode g_EXPRESSION_STATEMENT ""
             [makeNode g_EXPRESSION "+"
                [makeNode g_NAME "a" [];
                 makeNode g_EXPRESSION "*"
                   [makeNode g_NAME "b" []; makeNode g_NAME "c" []]]]],
        None).
Proof. vm_compute. reflexivity. Qed.

(** ** The invocation order *)

Lemma bind_Ok {E St A B} (c : M E St A) (k : A → M E St B) (s s' : St) (b : B) :
  bind c k s = Ok (b, s') ↔ ∃ a s1, c s = Ok (a, s1) ∧ k a s1 = Ok (b, s').
Proof.
  unfold bind. split.
  - destruct (c s) as [[a s1]| |]; [eauto | done | done].
  - intros (a & s1 & -> & Hk). done.
Qed.

Lemma forRange_unit_Ok {E St A} (body : A → M E St unit) (l : list A)
    (s s' : St) :
  forRange l (λ _ x, body x) tt s = Ok (tt, s') →
  runsEach (λ x s1 s2, body x s1 = Ok (tt, s2)) l s s'.
Proof.
  revert s. induction l as [|x l IH]; intros s H.
  - cbn in H. injection H as ->. constructor.
  - cbn [forRange] in H. apply bind_Ok in H as ([] & s1 & Hx & Hl).
    econstructor; eauto.
Qed.

Lemma indexOf_None (arr : list string) (str : string) :
  indexOf arr str = None ↔ str ∉ arr.
Proof.
  induction arr as [|x arr IH]; simpl.
  - split; [intros _; apply not_elem_of_nil | done].
  - case_decide as Hx.
    + subst. split; [done | intros H; exfalso; apply H; left].
    + rewrite fmap_None, IH. rewrite not_elem_of_cons.
      split; [intros ?; split; [congruence | done] | by intros [_ ?]].
Qed.

Lemma indexOf_Some (arr : list string) (str : string) (i : nat) :
  indexOf arr str = Some i → arr !! i = Some str.
Proof.
  revert i. induction arr as [|x arr IH]; intros i; simpl; [done |].
  case_decide as Hx.
  - intros [= <-]. by subst.
  - destruct (indexOf arr str) as [j|] eqn:E; [|done].
    intros [= <-]. simpl. by apply IH.
Qed.

Section InvocationOrder.

Variable c : gmap string fileCache.

(** The runs of [createImportTree], by cases: what the call does, given
    what the calls on the imports do. *)
Lemma createImportTree_run
    (Φ : string → list string → treeState → treeState → Prop) :
  (∀ f path s, ¬ isJs f → Φ f path s s) →
  (∀ f path s i, isJs f → indexOf path f = Some i →
     Φ f path s (TreeState (moduleOrder s)
                   (warnings s ++ [CircularDependency (drop i path ++ [f])]))) →
  (∀ f path s s1, isJs f → f ∉ path →
     runsEach (λ x, Φ x (path ++ [f])) (importsOf c f) s s1 →
     Φ f path s (placeModule f s1)) →
  ∀ fuel f path s s',
    createImportTree c fuel f path s = Ok (tt, s') → Φ f path s s'.
Proof.
  intros Hother Hcycle Hplace. induction fuel as [|fuel IH]; [done |].
  intros f path s s' H. cbn [createImportTree] in H.
  unfold createImportTreeBody in H.
  case_bool_decide as Hjs.
  { injection H as <-. by apply Hother. }
  destruct (indexOf path f) as [i|] eqn:Hidx.
  { injection H as <-. by apply Hcycle. }
  apply indexOf_None in Hidx.
  apply bind_Ok in H as ([] & s1 & Himports & H).
  apply forRange_unit_Ok in Himports.
  assert (s' = placeModule f s1) as ->.
  { unfold placeModule, moduleNameOf. revert H. go_run.
    case_bool_decide; by intros [= <-]. }
  apply Hplace; [done | done |].
  clear -Himports IH. fold (importsOf c f) in Himports.
  induction Himports; econstructor; eauto.
Qed.


Lemma grows_refl (s : treeState) : grows s s.
Proof.
  split; [|split]; [exists []| exists [] | done]; by rewrite app_nil_r.
Qed.

Lemma grows_trans (s1 s2 s3 : treeState) :
  grows s1 s2 → grows s2 s3 → grows s1 s3.
Proof.
  intros ([o1 Ho1] & [w1 Hw1] & Hn1) ([o2 Ho2] & [w2 Hw2] & Hn2).
  split; [|split].
  - exists (o1 ++ o2). by rewrite Ho2, Ho1, app_assoc.
  - exists (w1 ++ w2). by rewrite Hw2, Hw1, app_assoc.
  - auto.
Qed.

Lemma grows_elem (s s' : treeState) (N : string) :
  grows s s' → N ∈ moduleOrder s → N ∈ moduleOrder s'.
Proof. intros ([o ->] & _) H. apply elem_of_app. by left. Qed.

Lemma placeModule_grows (f : string) (s : treeState) :
  grows s (placeModule f s).
Proof.
  unfold placeModule. case_bool_decide as Habs; [|apply grows_refl].
  apply indexOf_None in Habs.
  split; [|split]; simpl.
  - by eexists.
  - exists []. by rewrite app_nil_r.
  - intros Hnd. apply NoDup_app. split; [done |]. split.
    + intros x Hx ->%list_elem_of_singleton. done.
    + apply NoDup_singleton.
Qed.

Lemma placeModule_placed (f : string) (s : treeState) :
  moduleNameOf f ∈ moduleOrder (placeModule f s).
Proof.
  unfold placeModule. case_bool_decide as Habs; simpl.
  - apply elem_of_app. right. by apply list_elem_of_singleton.
  - destruct (indexOf (moduleOrder s) (moduleNameOf f)) as [i|] eqn:E; [|done].
    apply indexOf_Some in E. by eapply list_elem_of_lookup_2.
Qed.

Lemma runsEach_impl {A St} (R R' : A → St → St → Prop) l s s' :
  (∀ x s1 s2, R x s1 s2 → R' x s1 s2) →
  runsEach R l s s' → runsEach R' l s s'.
Proof. intros HR. induction 1; econstructor; eauto. Qed.

Lemma runsEach_grows {A} (R : A → treeState → treeState → Prop) l s s' :
  (∀ x s1 s2, R x s1 s2 → grows s1 s2) →
  runsEach R l s s' → grows s s'.
Proof.
  intros HR. induction 1; [apply grows_refl |].
  eapply grows_trans; eauto.
Qed.


(** A call among those of a run, with the growth before and after it. *)
Lemma runsEach_elem {A} (R : A → treeState → treeState → Prop) l s s' x :
  (∀ x s1 s2, R x s1 s2 → grows s1 s2) →
  runsEach R l s s' → x ∈ l →
  ∃ sa sb, grows s sa ∧ R x sa sb ∧ grows sb s'.
Proof.
  intros HR Hruns. induction Hruns as [s|y l s s1 s' Hy Hruns IH];
    intros Hx; [by apply elem_of_nil in Hx |].
  apply elem_of_cons in Hx as [->|Hx].
  - exists s, s1. split; [apply grows_refl |]. split; [done |].
    eapply runsEach_grows; eauto.
  - destruct (IH Hx) as (sa & sb & Ha & Hab & Hb).
    exists sa, sb. split; [|done]. eapply grows_trans; eauto.
Qed.

(** *** Termination *)

(** The files of the cache that are not on the path bound the depth of the
    recursion: a file that has imports is in the cache, and joins the
    path. *)
Lemma createImportTree_terminates (fuel : nat) (f : string)
    (path : list string) (s : treeState) :
  size (dom c ∖ list_to_set path) < fuel →
  ∃ s', createImportTree c fuel f path s = Ok (tt, s').
Proof.
  revert f path s. induction fuel as [|fuel IH]; intros f path s Hfuel; [lia |].
  cbn [createImportTree]. unfold createImportTreeBody.
  case_bool_decide as Hjs; [by eexists |].
  destruct (indexOf path f) as [i|] eqn:Hidx; [by eexists |].
  apply indexOf_None in Hidx.
  assert (Hrec : ∀ l s0, (l = [] ∨ f ∈ dom c) →
            ∃ s1, forRange l (λ _ importPath,
                    createImportTree c fuel importPath (path ++ [f])) tt s0
                  = Ok (tt, s1)).
  { induction l as [|x l IHl]; intros s0 Hl; [by eexists |].
    destruct Hl as [?|Hdom]; [done |].
    destruct (IH x (path ++ [f]) s0) as [s1 Hx].
    { eapply Nat.lt_le_trans; [|apply Nat.lt_succ_r, Hfuel].
      apply subset_size. rewrite list_to_set_app_L. simpl.
      assert (f ∉ (list_to_set path : gset string)) as Hnot
        by by rewrite elem_of_list_to_set.
      split; [set_solver |]. intros Hsub.
      assert (f ∈ dom c ∖ (list_to_set path : gset string)) as Hin
        by set_solver.
      apply Hsub in Hin. set_solver. }
    destruct (IHl s1) as [s2 Hl]; [by right |].
    exists s2. cbn [forRange]. apply bind_Ok. eauto. }
  destruct (Hrec (Imports (default zeroFileCache (c !! f))) s) as [s1 Hs1].
  { destruct (c !! f) as [e|] eqn:Hcf.
    - right. apply elem_of_dom. eauto.
    - by left. }
  exists (placeModule f s1). apply bind_Ok. exists tt, s1.
  split; [exact Hs1 |].
  unfold placeModule, moduleNameOf. go_run. by case_bool_decide.
Qed.

(** *** Post-order and soundness of the warnings *)

Variable entry : string.

Lemma importChain_isJs (l : list string) (a : string) :
  importChain c l → a ∈ l → isJs a.
Proof.
  induction 1 as [f Hjs | f g l (Hjs & _) _ IH].
  - by intros ->%list_elem_of_singleton.
  - intros [-> | Ha]%elem_of_cons; [done | by apply IH].
Qed.

Lemma importChain_snoc (l : list string) (f x : string) :
  importChain c (l ++ [f]) → edge c f x → importChain c ((l ++ [f]) ++ [x]).
Proof.
  intros Hchain Hedge. induction l as [|a l IH].
  - apply importChain_cons; [done |]. apply importChain_one. apply Hedge.
  - destruct l as [|b l];
      inversion Hchain as [|? ? ? Hab Hrest]; subst;
      (apply importChain_cons; [done |]); by apply IH.
Qed.

Lemma importChain_rtc (a : string) (l : list string) (b : string) :
  importChain c (a :: l) → last (a :: l) = Some b → rtc (edge c) a b.
Proof.
  revert a. induction l as [|g l IH]; intros a Hchain Hlast.
  - injection Hlast as <-. apply rtc_refl.
  - inversion Hchain as [|? ? ? Hedge Hrest]; subst.
    eapply rtc_l; [exact Hedge |]. by apply IH.
Qed.

(** The start of an import chain is an import chain, and its last file
    imports the file that follows it in the chain. *)
Lemma importChain_prefix (f : string) (w : list string) (x : string)
    (rest : list string) :
  importChain c ((f :: w) ++ x :: rest) →
  importChain c (f :: w) ∧
  ∃ g, last (f :: w) = Some g ∧ edge c g x.
Proof.
  revert f. induction w as [|h w IH]; intros f Hchain.
  - inversion Hchain as [|? ? ? Hedge _]; subst.
    split; [constructor; apply Hedge |]. by exists f.
  - inversion Hchain as [|? ? ? Hedge Hchain']; subst.
    destruct (IH h Hchain') as (Hw & g & Hlast & Hx).
    split; [by constructor |]. by exists g.
Qed.

Lemma reached_rtc (f : string) (path : list string) :
  isJs f → reached c entry f path → rtc (edge c) entry f.
Proof.
  intros Hjs Hr. destruct (Hr Hjs) as (Hhead & Hchain & _).
  destruct (path ++ [f]) as [|a l] eqn:El; [done |].
  injection Hhead as ->. apply (importChain_rtc _ l); [done |].
  by rewrite <- El, last_snoc.
Qed.

Lemma reached_import (f x : string) (path : list string) :
  isJs f → f ∉ path → reached c entry f path → x ∈ importsOf c f →
  reached c entry x (path ++ [f]).
Proof.
  intros Hjs Hnot Hf Hx Hjsx. destruct (Hf Hjs) as (Hhead & Hchain & Hnd).
  split; [|split].
  - by destruct (path ++ [f]).
  - by apply importChain_snoc.
  - apply NoDup_app. split; [done |]. split; [| apply NoDup_singleton].
    by intros a Ha ->%list_elem_of_singleton.
Qed.

(** A call on a module of the path: the import that leads to it closes a
    cycle on the path, the one the warning names. *)
Lemma reached_closes (f : string) (path : list string) (i : nat) :
  isJs f → reached c entry f path → indexOf path f = Some i →
  ∃ g, last path = Some g ∧ closesCycle c entry g f (drop i path ++ [f]).
Proof.
  intros Hjs Hr Hidx. destruct (Hr Hjs) as (Hhead & Hchain & Hnd).
  apply indexOf_Some in Hidx.
  pose proof (take_drop i path) as Hsplit.
  rewrite (drop_S _ _ _ Hidx) in Hsplit.
  destruct path as [|a l] eqn:Epath; [done |].
  rewrite <- Epath in *.
  assert (Hpre : importChain c path ∧ ∃ g, last path = Some g ∧ edge c g f).
  { rewrite Epath. apply (importChain_prefix a l f []).
    by rewrite <- Epath. }
  destruct Hpre as (Hpath & g & Hlast & Hedge).
  exists g. split; [done |].
  exists (take i path), (drop (S i) path).
  rewrite (drop_S _ _ _ Hidx), Hsplit. cbn [app].
  split; [done |].
  split.
  { pose proof (last_app_cons (take i path) (drop (S i) path) f) as Hl.
    rewrite Hsplit in Hl. by rewrite <- Hl. }
  split.
  { rewrite Epath in Hhead |- *. done. }
  done.
Qed.

Lemma postOrder_mono (order : list string) (ws ws' : list message) :
  (∀ m, m ∈ ws → m ∈ ws') →
  postOrder c entry order ws → postOrder c entry order ws'.
Proof.
  intros Hsub Hpo i N Hi.
  destruct (Hpo i N Hi) as (f & ? & ? & ? & Hf).
  exists f. repeat split; try done.
  intros x Hx Hjsx. destruct (Hf x Hx Hjsx) as [? | (cycle & ? & ?)];
    [by left | right; exists cycle; auto].
Qed.

Lemma postOrder_snoc (order : list string) (ws : list message) (f : string) :
  postOrder c entry order ws →
  isJs f → rtc (edge c) entry f →
  (∀ x, x ∈ importsOf c f → isJs x →
        moduleNameOf x ∈ order ∨
        ∃ cycle, CircularDependency cycle ∈ ws ∧
                 closesCycle c entry f x cycle) →
  postOrder c entry (order ++ [moduleNameOf f]) ws.
Proof.
  intros Hpo Hjs Hentry Himports i N Hi.
  destruct (decide (i < length order)) as [Hlt|Hge].
  - rewrite lookup_app_l in Hi by done.
    destruct (Hpo i N Hi) as (g & ? & ? & ? & Hg).
    exists g. repeat split; try done.
    intros x Hx Hjsx. rewrite take_app_le by lia. by apply Hg.
  - apply lookup_lt_Some in Hi as Hlen. rewrite length_app in Hlen.
    simpl in Hlen. assert (i = length order) as -> by lia.
    rewrite lookup_app_r, Nat.sub_diag in Hi by lia. injection Hi as <-.
    exists f. repeat split; try done.
    intros x Hx Hjsx. rewrite take_app_le, firstn_all by lia.
    by apply Himports.
Qed.

Lemma grows_warning (s s' : treeState) (m : message) :
  grows s s' → m ∈ warnings s → m ∈ warnings s'.
Proof. intros (_ & [w ->] & _) H. apply elem_of_app. by left. Qed.

Lemma createImportTree_postOrder (fuel : nat) (f : string)
    (path : list string) (s s' : treeState) :
  createImportTree c fuel f path s = Ok (tt, s') →
  reached c entry f path →
  (postOrder c entry (moduleOrder s) (warnings s) →
   postOrder c entry (moduleOrder s') (warnings s')) ∧
  (warningsSound c entry (warnings s) → warningsSound c entry (warnings s')).
Proof.
  intros Hrun.
  cut (keepsOrder c entry f path s s'); [unfold keepsOrder; tauto |].
  revert fuel f path s s' Hrun.
  apply (createImportTree_run (keepsOrder c entry)).
  - intros f path s Hjs. split; [apply grows_refl |]. by repeat split.
  - intros f path s i Hjs Hidx.
    assert (Hgrow : grows s (TreeState (moduleOrder s)
      (warnings s ++ [CircularDependency (drop i path ++ [f])]))).
    { split; [|split]; simpl;
        [exists []; by rewrite app_nil_r | by eexists | done]. }
    split; [done |]. split.
    { intros _ Hnot. apply indexOf_Some, list_elem_of_lookup_2 in Hidx. done. }
    split.
    { intros j _ Hj. rewrite Hidx in Hj. injection Hj as <-. simpl.
      apply elem_of_app. right. apply list_elem_of_here. }
    intros Hreached.
    destruct (reached_closes f path i Hjs Hreached Hidx) as (g & _ & Hcl).
    split; simpl.
    + apply postOrder_mono. intros m Hm. apply elem_of_app. by left.
    + intros Hsound m [Hm | ->%list_elem_of_singleton]%elem_of_app;
        [by apply Hsound |].
      by eexists _, g, f.
  - intros f path s s1 Hjs Hnot Hruns.
    assert (Hgrow : grows s s1).
    { eapply runsEach_grows; [|exact Hruns]. by intros ? ? ? [? _]. }
    assert (Hw : warnings (placeModule f s1) = warnings s1).
    { unfold placeModule. by case_bool_decide. }
    split; [eapply grows_trans; [exact Hgrow | apply placeModule_grows] |].
    split; [intros; apply placeModule_placed |].
    split.
    { intros i _ Hidx. apply indexOf_Some, list_elem_of_lookup_2 in Hidx.
      done. }
    intros Hreached.
    assert (Hinner :
      (postOrder c entry (moduleOrder s) (warnings s) →
       postOrder c entry (moduleOrder s1) (warnings s1)) ∧
      (warningsSound c entry (warnings s) →
       warningsSound c entry (warnings s1))).
    { assert (Hall : ∀ x, x ∈ importsOf c f → reached c entry x (path ++ [f]))
        by (intros; by apply reached_import).
      clear -Hruns Hall. induction Hruns as [|x l s s1 s2 Hx Hruns IH]; [done |].
      destruct Hx as (_ & _ & _ & Hx).
      destruct Hx as [Hp Hs]; [apply Hall; left |].
      destruct IH as [Hp' Hs']; [intros; apply Hall; by right |].
      split; auto. }
    destruct Hinner as [Hpo Hws].
    split.
    + intros Hs. specialize (Hpo Hs). rewrite Hw.
      unfold placeModule. case_bool_decide; [|done]. simpl.
      apply postOrder_snoc; [done | done | by eapply reached_rtc |].
      intros x Hx Hjsx.
      assert (HR : ∀ y (s1 s2 : treeState),
        keepsOrder c entry y (path ++ [f]) s1 s2 → grows s1 s2) by (by intros ? ? ? [? _]).
      destruct (runsEach_elem _ _ _ _ x HR Hruns Hx)
        as (sa & sb & _ & (_ & Hplaced & Hwarned & _) & Hb).
      destruct (indexOf (path ++ [f]) x) as [i|] eqn:Hidx.
      * right. exists (drop i (path ++ [f]) ++ [x]). split.
        -- eapply grows_warning; [exact Hb |]. by apply Hwarned.
        -- destruct (reached_closes x (path ++ [f]) i Hjsx) as (g & Hlast & Hcl);
             [by apply reached_import | done |].
           rewrite last_snoc in Hlast. by injection Hlast as <-.
      * left. apply indexOf_None in Hidx.
        eapply grows_elem; [exact Hb |]. by apply Hplaced.
    + intros Hs. rewrite Hw. by apply Hws.
Qed.

(** *** Completeness *)



(** *** Completeness of the warnings *)





End InvocationOrder.



(** The three-file cycle: the order is [c.js], [b.js], [a.js], and the one
    warning names the cycle. *)
Example three_file_cycle :
  getJsBundleFileTail cycleCache 4 "a.js"
  = Ok (String.list_byte_of_string
          ("var moduleOrder = ['c_js','b_js','a_js'];" +:+
           "moduleOrder.forEach((moduleName)=>modules[moduleName]=moduleFns[moduleName]())"),
        TreeState ["'c_js'"; "'b_js'"; "'a_js'"]
          [CircularDependency ["a.js"; "b.js"; "c.js"; "a.js"]]).
Proof. vm_compute. reflexivity. Qed.

Example three_file_cycle_is_cyclic : cyclicFrom cycleCache "a.js".
Proof.
  exists ["b.js"; "c.js"; "a.js"]. split.
  - repeat (first [ apply importChain_one; reflexivity
                  | apply importChain_cons;
                    [split; [reflexivity | split; [reflexivity |]];
                     vm_compute; apply list_elem_of_here |] ]).
  - intros Hnd. apply NoDup_cons in Hnd as [Hnot _]. apply Hnot.
    repeat constructor.
Qed.

(** *** The three-file cycle: what the specification leaves of it *)

Lemma cycle_edges (f x : string) :
  edge cycleCache f x →
  (f = "a.js" ∧ x = "b.js") ∨ (f = "b.js" ∧ x = "c.js") ∨
  (f = "c.js" ∧ x = "a.js").
Proof.
  intros (_ & _ & Hx). unfold importsOf, cycleCache in Hx.
  destruct (decide (f = "a.js")) as [-> | Ha].
  { rewrite lookup_insert_eq in Hx. apply list_elem_of_singleton in Hx. auto. }
  rewrite lookup_insert_ne in Hx by done.
  destruct (decide (f = "b.js")) as [-> | Hb].
  { rewrite lookup_insert_eq in Hx. apply list_elem_of_singleton in Hx. auto. }
  rewrite lookup_insert_ne in Hx by done.
  destruct (decide (f = "c.js")) as [-> | Hc].
  { rewrite lookup_insert_eq in Hx. apply list_elem_of_singleton in Hx. auto. }
  rewrite lookup_insert_ne in Hx by done.
  rewrite lookup_empty in Hx. by apply elem_of_nil in Hx.
Qed.

Lemma cycle_reachable (f : string) :
  rtc (edge cycleCache) "a.js" f → f = "a.js" ∨ f = "b.js" ∨ f = "c.js".
Proof.
  revert f. apply rtc_ind_r; [by left |].
  intros g f _ Hedge _.
  destruct (cycle_edges g f Hedge) as [[_ ->] | [[_ ->] | [_ ->]]]; auto.
Qed.

(** The chains of imports from [a.js] that pass no file twice. *)
Lemma cycle_chain (l : list string) :
  importChain cycleCache ("a.js" :: l) → NoDup ("a.js" :: l) →
  l = [] ∨ l = ["b.js"] ∨ l = ["b.js"; "c.js"].
Proof.
  intros Hchain Hnd.
  inversion Hchain as [| ? g l1 He1 Hc1]; subst; [by left |].
  destruct (cycle_edges _ _ He1) as [[_ ->] | [[? _] | [? _]]]; [| done..].
  inversion Hc1 as [| ? h l2 He2 Hc2]; subst; [auto |].
  destruct (cycle_edges _ _ He2) as [[? _] | [[_ ->] | [? _]]]; [done | | done].
  inversion Hc2 as [| ? k l3 He3 Hc3]; subst; [auto |].
  destruct (cycle_edges _ _ He3) as [[? _] | [[? _] | [_ ->]]]; [done.. |].
  exfalso. apply NoDup_cons in Hnd as [Hnot _]. apply Hnot.
  repeat constructor.
Qed.

(** The only import that closes a cycle on a path from [a.js] is the
    import of [a.js] by [c.js]. *)
Lemma cycle_closes (f x : string) (cycle : list string) :
  closesCycle cycleCache "a.js" f x cycle → f = "c.js" ∧ x = "a.js".
Proof.
  intros (pre & mid & _ & Hlast & Hhead & Hchain & Hnd & Hedge).
  destruct (pre ++ x :: mid) as [|e l] eqn:El; [done |].
  injection Hhead as ->.
  destruct (cycle_chain l Hchain Hnd) as [-> | [-> | ->]];
    destruct pre as [|p1 [|p2 [|p3 pre]]]; simplify_eq/=;
    try (by destruct pre);
    destruct (cycle_edges _ _ Hedge) as [[? ?] | [[? ?] | [? ?]]];
    simplify_eq; done.
Qed.

(** On the three-file cycle, an order without repetition that holds the
    reachable modules and is a post-order but for the closing imports can
    only be [c.js], [b.js], [a.js]. *)
Example three_file_cycle_order_is_forced (order : list string)
    (ws : list message) :
  NoDup order →
  (∀ g, rtc (edge cycleCache) "a.js" g → moduleNameOf g ∈ order) →
  postOrder cycleCache "a.js" order ws →
  order = ["'c_js'"; "'b_js'"; "'a_js'"].
Proof.
  intros Hnd Hall Hpo.
  assert (Hnames : ∀ N, N ∈ order → N ∈ ["'a_js'"; "'b_js'"; "'c_js'"]).
  { intros N [i Hi]%list_elem_of_lookup.
    destruct (Hpo i N Hi) as (f & <- & _ & Hreach & _).
    destruct (cycle_reachable f Hreach) as [-> | [-> | ->]];
      vm_compute; repeat constructor. }
  assert (Hfile : ∀ i N f, order !! i = Some N →
    N = moduleNameOf f → f = "a.js" ∨ f = "b.js" →
    ∀ x, x ∈ importsOf cycleCache f → moduleNameOf x ∈ take i order).
  { intros i N f Hi HN Hf x Hx.
    destruct (Hpo i N Hi) as (g & Hg & Hjs & Hreach & Himports).
    assert (g = f) as ->.
    { rewrite HN in Hg.
      destruct (cycle_reachable g Hreach) as [-> | [-> | ->]];
        destruct Hf as [-> | ->]; vm_compute in Hg; done. }
    assert (Hjsx : isJs x).
    { destruct Hf as [-> | ->]; vm_compute in Hx;
        apply list_elem_of_singleton in Hx; by subst. }
    destruct (Himports x Hx Hjsx) as [? | (cycle & _ & Hcl)]; [done |].
    apply cycle_closes in Hcl as [-> _]. by destruct Hf. }
  assert (Hlen : (length order ≤ 3)%nat).
  { apply (submseteq_length order ["'a_js'"; "'b_js'"; "'c_js'"]).
    by apply NoDup_submseteq. }
  assert (Ha : "'a_js'" ∈ order) by apply (Hall "a.js"), rtc_refl.
  apply list_elem_of_lookup in Ha as [ia Hia].
  assert (Hb : "'b_js'" ∈ take ia order).
  { change "'b_js'" with (moduleNameOf "b.js").
    apply (Hfile ia _ "a.js" Hia); [done | by left |].
    vm_compute. apply list_elem_of_here. }
  apply list_elem_of_lookup in Hb as [ib Hib].
  apply lookup_take_Some in Hib as [Hib Hlt1].
  assert (Hc : "'c_js'" ∈ take ib order).
  { change "'c_js'" with (moduleNameOf "c.js").
    apply (Hfile ib _ "b.js" Hib); [done | by right |].
    vm_compute. apply list_elem_of_here. }
  apply list_elem_of_lookup in Hc as [ic Hic].
  apply lookup_take_Some in Hic as [Hic Hlt2].
  apply lookup_lt_Some in Hia as Hlta.
  assert (ia = 2 ∧ ib = 1 ∧ ic = 0)%nat as (-> & -> & ->) by lia.
  destruct order as [|x0 [|x1 [|x2 [|x3 order]]]]; simplify_eq/=; [done | lia].
Qed.

(** ** The build *)

Section BuildFacts.

Variable LoadFile :
  list byte → string → outcome Empty_set (list byte * list string + LoaderError).
Variable bundleDir : string.

(** [addFileToBundle] is its claim step, followed by the imports when the
    step says so. *)
Lemma addFileToBundleBody_claimStep
    (rec : string → B (option error)) (p : string) (w : world) :
  addFileToBundleBody LoadFile bundleDir rec p w
  = match claimStep LoadFile bundleDir p w with
    | Over e w' => Ok (e, w')
    | Follow fileImports w1 => addFilesToBundle rec fileImports w1
    | Crash v => Panic v
    | Hang => OutOfFuel
    end.
Proof.
  unfold addFileToBundleBody, claimStep, afterMiss, processFile, saved,
    withFiles, withBundle, withLoaded, cacheWrite, setFiles, sfWrite, noteLoad,
    copyFile, print.
  go_run.
  destruct (files w !! p) as [st|] eqn:Hst; [|done].
  destruct (Files w !! p) as [cf|] eqn:Hcf; go_run;
    [destruct (IsReachable cf); go_run; [done |];
     case_bool_decide; go_run; [by rewrite insert_insert_eq |] |];
    (case_bool_decide; go_run;
     [ destruct (content st) as [src|]; go_run;
       [ destruct (LoadFile src p) as [[[data imports]|e]|v|]; go_run;
         try done |];
       by rewrite insert_insert_eq
     | rewrite Hst; go_run;
       destruct (content st); go_run; by rewrite insert_insert_eq ]).
Qed.

Lemma forRange_collect_Ok {A} (rec : A → B (option error)) (l : list A)
    (acc r : list (option error)) (w w' : world) :
  forRange l (λ errorCh x, e <- rec x ;; ret (errorCh ++ [e])) acc w
  = Ok (r, w') →
  ∃ errs, r = acc ++ errs ∧
          runsCollect (λ x s b s', rec x s = Ok (b, s')) l w errs w'.
Proof.
  revert acc w. induction l as [|x l IH]; intros acc w H.
  - cbn in H. injection H as <- <-. exists []. split; [by rewrite app_nil_r |].
    constructor.
  - cbn [forRange] in H. apply bind_Ok in H as (acc1 & w1 & Hx & Hl).
    apply bind_Ok in Hx as (e & w1' & Hx & Hret).
    injection Hret as <- <-.
    destruct (IH _ _ Hl) as (errs & -> & Hruns).
    exists (e :: errs). split; [by rewrite <- app_assoc |].
    econstructor; eauto.
Qed.

Lemma addFilesToBundle_Ok (rec : string → B (option error))
    (l : list string) (e : option error) (w w' : world) :
  addFilesToBundle rec l w = Ok (e, w') →
  ∃ errs, e = firstError errs ∧
          runsCollect (λ x s b s', rec x s = Ok (b, s')) l w errs w'.
Proof.
  unfold addFilesToBundle. intros H.
  apply bind_Ok in H as (errorCh & w1 & Hl & Hret).
  injection Hret as <- <-.
  apply forRange_collect_Ok in Hl as (errs & -> & Hruns). eauto.
Qed.

(** The runs of [addFileToBundle], by cases: the claim step, then the
    calls on the imports. *)
Lemma addFileToBundle_run
    (Φ : string → world → option error → world → Prop) :
  (∀ p w e w', claimStep LoadFile bundleDir p w = Over e w' → Φ p w e w') →
  (∀ p w fileImports w1 errs w',
     claimStep LoadFile bundleDir p w = Follow fileImports w1 →
     runsCollect Φ fileImports w1 errs w' →
     Φ p w (firstError errs) w') →
  ∀ fuel p w e w',
    addFileToBundle LoadFile bundleDir fuel p w = Ok (e, w') → Φ p w e w'.
Proof.
  intros Hover Hfollow. induction fuel as [|fuel IH]; [done |].
  intros p w e w' H. cbn [addFileToBundle] in H.
  rewrite addFileToBundleBody_claimStep in H.
  destruct (claimStep LoadFile bundleDir p w) as [e0 w0|imports w1|v|]
    eqn:Hstep; [| | done..].
  - injection H as <- <-. by apply Hover.
  - apply addFilesToBundle_Ok in H as (errs & -> & Hruns).
    eapply Hfollow; [exact Hstep |].
    clear -Hruns IH. induction Hruns; econstructor; eauto.
Qed.

Lemma claimed_dec (m : gmap string fileCache) (p : string) :
  claimed m p ∨ ¬ claimed m p.
Proof.
  unfold claimed. destruct (m !! p) as [e|]; [|right; by intros (? & ? & ?)].
  destruct (IsReachable e) eqn:E; [left; eauto |].
  right. intros (e' & [= <-] & ?). congruence.
Qed.

Lemma elem_of_unclaimed (w : world) (q : string) :
  q ∈ unclaimed w ↔ q ∈ dom (files w) ∧ ¬ claimed (Files w) q.
Proof.
  unfold unclaimed. rewrite elem_of_difference.
  split; intros [H1 H2]; (split; [done |]); intros Hc; apply H2.
  - destruct Hc as (e & He & Hr). apply elem_of_dom. exists e.
    by apply map_lookup_filter_Some.
  - apply elem_of_dom in Hc as [e He].
    apply map_lookup_filter_Some in He as [He Hr]. by exists e.
Qed.

Lemma extends_refl (w : world) : extends w w.
Proof.
  split; [done |]. split; [exists []; by rewrite app_nil_r |].
  split; [exists []; split; [by rewrite app_nil_r | by intros ? []%elem_of_nil] |].
  split; [done | set_solver].
Qed.

Lemma extends_claimed (w w' : world) (q : string) :
  extends w w' → claimed (Files w) q → claimed (Files w') q.
Proof. intros (_ & _ & _ & Hkeep & _) (e & He & Hr). exists e. eauto. Qed.

Lemma extends_trans (w1 w2 w3 : world) :
  extends w1 w2 → extends w2 w3 → extends w1 w3.
Proof.
  intros H12 H23.
  pose proof H12 as (Hf1 & [b1 Hb1] & (l1 & Hl1 & Hn1) & Hk1 & Hd1).
  destruct H23 as (Hf2 & [b2 Hb2] & (l2 & Hl2 & Hn2) & Hk2 & Hd2).
  split; [congruence |].
  split; [exists (b1 ++ b2); by rewrite Hb2, Hb1, app_assoc |].
  split.
  { exists (l1 ++ l2). split; [by rewrite Hl2, Hl1, app_assoc |].
    intros q [Hq|Hq]%elem_of_app; [by apply Hn1 |].
    intros Hc. apply (Hn2 q Hq). by eapply extends_claimed. }
  split; [eauto |].
  rewrite Hf1 in Hd2. set_solver.
Qed.

Lemma runsCollect_extends {A} (R : A → world → option error → world → Prop)
    l w errs w' :
  (∀ x s b s', R x s b s' → extends s s') →
  runsCollect R l w errs w' → extends w w'.
Proof.
  intros HR. induction 1; [apply extends_refl |].
  eapply extends_trans; eauto.
Qed.

(** The claim step: what it leaves of the state, and the claim it makes
    when the imports are to be followed. *)
Lemma saved_extends (p : string) (st : osFile) (data : list byte)
    (fileImports : list string) (w0 w : world) :
  files w0 !! p = Some st → ¬ claimed (Files w0) p →
  extends w0 w → 
  extends w0 (saved p (modTime st) data fileImports w) ∧
  claimed (Files (saved p (modTime st) data fileImports w)) p.
Proof.
  intros Hst Hnot (Hf & [b Hb] & (l & Hl & Hn) & Hk & Hd).
  split; [|eexists; split; [apply lookup_insert_eq | done]].
  split; [done |]. split; [simpl; exists (b ++ data); by rewrite Hb, app_assoc |].
  split; [by exists l |]. simpl. split.
  - intros q e Hq Hr. rewrite lookup_insert_ne; [eauto |].
    intros <-. apply Hnot. by exists e.
  - rewrite dom_insert. apply elem_of_dom_2 in Hst. set_solver.
Qed.

Lemma processFile_extends (p : string) (st : osFile) (w : world) :
  files w !! p = Some st → ¬ claimed (Files w) p →
  match processFile LoadFile bundleDir p st w with
  | Ok (inl (e, w')) => extends w w'
  | Ok (inr (data, fileImports, w')) => extends w w'
  | _ => True
  end.
Proof.
  intros Hst Hnot. unfold processFile.
  assert (Hload : extends w (withLoaded (loaded w ++ [p]) w)).
  { split; [done |]. split; [exists []; by rewrite app_nil_r |].
    split; [exists [p]; split; [done | by intros q ->%list_elem_of_singleton] |].
    split; [done | set_solver]. }
  assert (Hfail : ∀ w1, extends w w1 →
    extends w (withFiles
                 (<[p := FileCache [] (modTime st) [] true]> (Files w1)) w1)).
  { intros w1 (Hf & Hb & Hl & Hk & Hd).
    split; [done |]. split; [done |]. split; [done |]. simpl. split.
    - intros q e Hq Hr. rewrite lookup_insert_ne; [eauto |].
      intros <-. apply Hnot. by exists e.
    - rewrite dom_insert. apply elem_of_dom_2 in Hst. set_solver. }
  case_bool_decide.
  - destruct (content st) as [src|]; [|apply Hfail, extends_refl].
    destruct (LoadFile src p) as [[[data imports]|e]|v|];
      [done | by apply Hfail | done..].
  - destruct (files w !! p ≫= content);
      (split; [done |]; split; [exists []; by rewrite app_nil_r |];
       split; [exists []; split; [by rewrite app_nil_r | by intros ? []%elem_of_nil] |];
       split; [done | set_solver]).
Qed.

Lemma claimStep_extends (p : string) (w : world) :
  match claimStep LoadFile bundleDir p w with
  | Over e w' =>
      extends w w' ∧ (is_Some (files w !! p) → claimed (Files w') p)
  | Follow fileImports w1 => extends w w1 ∧ claimed (Files w1) p
  | _ => True
  end.
Proof.
  unfold claimStep.
  destruct (files w !! p) as [st|] eqn:Hst.
  2:{ split; [apply extends_refl | by intros [? ?]]. }
  assert (Hmiss : ¬ claimed (Files w) p →
    match afterMiss p st (processFile LoadFile bundleDir p st w) with
    | Over e w' =>
        extends w w' ∧ (is_Some (files w !! p) → claimed (Files w') p)
    | Follow fileImports w1 => extends w w1 ∧ claimed (Files w1) p
    | _ => True
    end).
  { intros Hnot. pose proof (processFile_extends p st w Hst Hnot) as Hp.
    unfold afterMiss, processFile in *.
    case_bool_decide.
    - destruct (content st) as [src|].
      + destruct (LoadFile src p) as [[[data imports]|e]|v|]; [| | done..].
        * by apply saved_extends.
        * split; [done |]. intros _. eexists. split; [apply lookup_insert_eq | done].
      + split; [done |]. intros _. eexists. split; [apply lookup_insert_eq | done].
    - by apply saved_extends. }
  rewrite Hst in Hmiss.
  destruct (Files w !! p) as [cf|] eqn:Hcf.
  - destruct (IsReachable cf) eqn:Hr.
    { split; [apply extends_refl |]. intros _. by exists cf. }
    assert (¬ claimed (Files w) p) as Hnot.
    { intros (e & He & Hre). congruence. }
    case_bool_decide; [|by apply Hmiss].
    apply saved_extends; [done | done | apply extends_refl].
  - apply Hmiss. intros (e & He & _). congruence.
Qed.

(** A call extends the state, and leaves the file claimed when it is on
    disk. *)
Lemma addFileToBundle_extends (fuel : nat) (p : string) (w : world)
    (e : option error) (w' : world) :
  addFileToBundle LoadFile bundleDir fuel p w = Ok (e, w') →
  extends w w' ∧ (is_Some (files w !! p) → claimed (Files w') p).
Proof.
  revert fuel p w e w'.
  apply (addFileToBundle_run
           (λ p w e w', extends w w' ∧
              (is_Some (files w !! p) → claimed (Files w') p))).
  - intros p w e w' Hstep.
    pose proof (claimStep_extends p w) as H. by rewrite Hstep in H.
  - intros p w imports w1 errs w' Hstep Hruns.
    pose proof (claimStep_extends p w) as H. rewrite Hstep in H.
    destruct H as [Hext Hclaimed].
    assert (extends w1 w') as Hext'.
    { eapply runsCollect_extends; [|exact Hruns]. by intros ? ? ? ? [? _]. }
    split; [by eapply extends_trans |].
    intros _. by eapply extends_claimed.
Qed.

Lemma extends_unclaimed (w w' : world) :
  extends w w' → unclaimed w' ⊆ unclaimed w.
Proof.
  intros Hext q [Hq Hnot]%elem_of_unclaimed. apply elem_of_unclaimed.
  pose proof Hext as (Hf & _). rewrite Hf in Hq. split; [done |].
  intros Hc. apply Hnot. by eapply extends_claimed.
Qed.

Lemma claimStep_Follow_unclaimed (p : string) (w : world)
    (fileImports : list string) (w1 : world) :
  claimStep LoadFile bundleDir p w = Follow fileImports w1 →
  p ∈ unclaimed w.
Proof.
  unfold claimStep. intros H. apply elem_of_unclaimed.
  destruct (files w !! p) as [st|] eqn:Hst; [|done].
  split; [by eapply elem_of_dom_2 |].
  intros (e & He & Hr). rewrite He, Hr in H. done.
Qed.

(** *** Termination *)

Lemma loaderReturns_extends (w w' : world) :
  extends w w' → loaderReturns LoadFile w → loaderReturns LoadFile w'.
Proof. intros (Hf & _) H q st src. rewrite Hf. apply H. Qed.

Lemma claimStep_returns (p : string) (w : world) :
  loaderReturns LoadFile w →
  (∃ e w', claimStep LoadFile bundleDir p w = Over e w') ∨
  (∃ fileImports w1, claimStep LoadFile bundleDir p w = Follow fileImports w1).
Proof.
  intros Hret. unfold claimStep.
  destruct (files w !! p) as [st|] eqn:Hst; [| left; by eexists _, _].
  assert (Hmiss :
    (∃ e w', afterMiss p st (processFile LoadFile bundleDir p st w)
             = Over e w') ∨
    (∃ fileImports w1,
       afterMiss p st (processFile LoadFile bundleDir p st w)
       = Follow fileImports w1)).
  { unfold afterMiss, processFile. case_bool_decide.
    - destruct (content st) as [src|] eqn:Hsrc; [| left; by eexists _, _].
      destruct (Hret p st src Hst Hsrc) as [[[data imports]|e] ->].
      + right. by eexists _, _.
      + left. by eexists _, _.
    - right. by eexists _, _. }
  destruct (Files w !! p) as [cf|]; [| done].
  destruct (IsReachable cf); [left; by eexists _, _ |].
  case_bool_decide; [right; by eexists _, _ | done].
Qed.

Lemma addFileToBundle_terminates (fuel : nat) (p : string) (w : world) :
  loaderReturns LoadFile w →
  size (unclaimed w) < fuel →
  ∃ e w', addFileToBundle LoadFile bundleDir fuel p w = Ok (e, w').
Proof.
  revert p w. induction fuel as [|fuel IH]; intros p w Hret Hfuel; [lia |].
  cbn [addFileToBundle]. rewrite addFileToBundleBody_claimStep.
  destruct (claimStep_returns p w Hret)
    as [(e0 & w0 & Hstep) | (imports & w1 & Hstep)]; rewrite Hstep;
    [by eexists _, _ |].
  pose proof (claimStep_extends p w) as Hext. rewrite Hstep in Hext.
  destruct Hext as [Hext Hclaimed].
  pose proof (loaderReturns_extends _ _ Hext Hret) as Hret1.
  apply claimStep_Follow_unclaimed in Hstep as Hp.
  assert (Hless : size (unclaimed w1) < fuel).
  { eapply Nat.lt_le_trans; [|apply Nat.lt_succ_r, Hfuel].
    apply subset_size. split; [by apply extends_unclaimed |].
    intros Hsub. apply Hsub in Hp. apply elem_of_unclaimed in Hp. tauto. }
  clear -IH Hless Hret1. unfold addFilesToBundle.
  assert (Hall : ∀ l acc w1, loaderReturns LoadFile w1 →
    size (unclaimed w1) < fuel →
    ∃ r w', forRange l (λ errorCh x,
              e <- addFileToBundle LoadFile bundleDir fuel x ;;
              ret (errorCh ++ [e])) acc w1 = Ok (r, w')).
  { induction l as [|x l IHl]; intros acc w Hr Hw; [by eexists _, _ |].
    destruct (IH x w Hr Hw) as (e & w' & Hx).
    pose proof (addFileToBundle_extends _ _ _ _ _ Hx) as [Hext _].
    destruct (IHl (acc ++ [e]) w') as (r & w'' & Hl).
    { by eapply loaderReturns_extends. }
    { eapply Nat.le_lt_trans; [|exact Hw].
      by apply subseteq_size, extends_unclaimed. }
    exists r, w''. cbn [forRange]. apply bind_Ok. exists (acc ++ [e]), w'.
    split; [|done]. apply bind_Ok. eauto. }
  destruct (Hall imports [] w1 Hret1 Hless) as (r & w' & Hr).
  exists (firstError r), w'. apply bind_Ok. eauto.
Qed.

(** A call that follows the imports of its file: what it adds to the
    state it had when it began to follow them, and the claims it leaves. *)
Lemma addFileToBundle_followed (fuel : nat) (p : string) (w : world)
    (e : option error) (w' : world) (fileImports : list string) (w1 : world) :
  addFileToBundle LoadFile bundleDir fuel p w = Ok (e, w') →
  claimStep LoadFile bundleDir p w = Follow fileImports w1 →
  extends w1 w' ∧
  ∀ q, q ∈ fileImports → is_Some (files w !! q) → claimed (Files w') q.
Proof.
  destruct fuel as [|fuel]; [done |]. cbn [addFileToBundle].
  rewrite addFileToBundleBody_claimStep. intros H Hstep. rewrite Hstep in H.
  apply addFilesToBundle_Ok in H as (errs & -> & Hruns).
  pose proof (claimStep_extends p w) as Hext. rewrite Hstep in Hext.
  destruct Hext as [(Hf & _) _]. rewrite <- Hf. clear -Hruns.
  induction Hruns as [s|x l s b s1 bs s' Hx Hruns IH].
  - split; [apply extends_refl | by intros ? []%elem_of_nil].
  - apply addFileToBundle_extends in Hx as [Hext Hclaimed].
    destruct IH as [Hext' Hl]. split; [by eapply extends_trans |].
    intros q [-> | Hq]%elem_of_cons Hsome.
    + eapply extends_claimed; [exact Hext' | by apply Hclaimed].
    + apply Hl; [done |]. destruct Hext as (-> & _). done.
Qed.

(** What stays of an entry and of the record of the loads once the file
    is claimed. *)
Lemma extends_kept (p : string) (w1 w' : world) (entry : fileCache) :
  extends w1 w' → Files w1 !! p = Some entry → IsReachable entry = true →
  Files w' !! p = Some entry ∧
  (∃ b, bundle w' = bundle w1 ++ b) ∧
  (∃ l, loaded w' = loaded w1 ++ l ∧ p ∉ l).
Proof.
  intros (_ & Hb & (l & Hl & Hn) & Hk & _) Hp Hr.
  split; [eauto |]. split; [done |].
  exists l. split; [done |]. intros Hin. apply (Hn p Hin). by exists entry.
Qed.

(** C8: a file that has a cache entry and that the build has not claimed
    yet.  The call returns when LoadFile returns on the files on disk and
    the bound is large enough.  In every call that returns: when the
    modification time on disk is the cached one, the file is not loaded
    (no call of LoadFile on it is recorded), the cached bytes are written
    to the bundle, the cached dependency list is saved again and followed;
    when the time differs and the file is a module that can be read,
    LoadFile is called on its bytes, once, it has returned, and the entry
    gets the fragment and the dependency list it returned (an empty entry
    when it returned an error). *)
Theorem C8_cache_hit_and_miss (fuel : nat) (p : string) (w : world)
    (st : osFile) (cf : fileCache) :
  files w !! p = Some st →
  Files w !! p = Some cf →
  IsReachable cf = false →
  (loaderReturns LoadFile w → size (unclaimed w) < fuel →
   ∃ e w', addFileToBundle LoadFile bundleDir fuel p w = Ok (e, w')) ∧
  ∀ e w',
    addFileToBundle LoadFile bundleDir fuel p w = Ok (e, w') →
    (LastModTime cf = modTime st →
       (∃ l, loaded w' = loaded w ++ l ∧ p ∉ l) ∧
       (∃ b, bundle w' = bundle w ++ Data cf ++ b) ∧
       Files w' !! p
       = Some (FileCache (Data cf) (modTime st) (Imports cf) true) ∧
       (∀ q, q ∈ Imports cf → is_Some (files w !! q) →
             claimed (Files w') q)) ∧
    (LastModTime cf ≠ modTime st → isJs p →
     ∀ src, content st = Some src →
       (∃ l, loaded w' = loaded w ++ p :: l ∧ p ∉ l) ∧
       match LoadFile src p with
       | Ok (inl (data, fileImports)) =>
           (∃ b, bundle w' = bundle w ++ data ++ b) ∧
           Files w' !! p = Some (FileCache data (modTime st) fileImports true) ∧
           (∀ q, q ∈ fileImports → is_Some (files w !! q) →
                 claimed (Files w') q)
       | Ok (inr err) =>
           e = Some (loaderError err) ∧ bundle w' = bundle w ∧
           Files w' !! p = Some (FileCache [] (modTime st) [] true)
       | Panic _ | OutOfFuel => False
       end).
Proof.
  intros Hst Hcf Hr.
  split; [intros Hret Hfuel; by apply addFileToBundle_terminates |].
  intros e w' Hrun. split.
  - intros Htime.
    assert (Hstep : claimStep LoadFile bundleDir p w
                    = Follow (Imports cf)
                        (saved p (modTime st) (Data cf) (Imports cf) w)).
    { unfold claimStep. rewrite Hst, Hcf, Hr. by rewrite bool_decide_eq_true_2. }
    destruct (addFileToBundle_followed _ _ _ _ _ _ _ Hrun Hstep) as [Hext Hq].
    destruct (extends_kept p _ _ _ Hext (lookup_insert_eq _ _ _) eq_refl)
      as (Hentry & [b Hb] & Hl).
    split; [done |]. split; [|done].
    exists b. rewrite Hb. simpl. by rewrite app_assoc.
  - intros Htime Hjs src Hsrc.
    assert (Hstep : claimStep LoadFile bundleDir p w
                    = afterMiss p st (processFile LoadFile bundleDir p st w)).
    { unfold claimStep. rewrite Hst, Hcf, Hr.
      by rewrite bool_decide_eq_false_2 by done. }
    unfold processFile in Hstep. rewrite Hsrc in Hstep.
    rewrite (bool_decide_eq_true_2 (Ext p = ".js")) in Hstep by done.
    destruct fuel as [|fuel]; [done |].
    destruct (LoadFile src p) as [[[data imports]|err]|v|] eqn:Hload;
      cbn [afterMiss] in Hstep.
    + destruct (addFileToBundle_followed _ _ _ _ _ _ _ Hrun Hstep) as [Hext Hq].
      destruct (extends_kept p _ _ _ Hext (lookup_insert_eq _ _ _) eq_refl)
        as (Hentry & [b Hb] & (l & Hl & Hnot)).
      split; [exists l; split; [|done]; rewrite Hl; simpl; by rewrite <- app_assoc |].
      split; [exists b; rewrite Hb; simpl; by rewrite app_assoc |]. done.
    + cbn [addFileToBundle] in Hrun.
      rewrite addFileToBundleBody_claimStep, Hstep in Hrun.
      injection Hrun as <- <-. simpl.
      split; [exists []; split; [done | apply not_elem_of_nil] |].
      split; [done |]. split; [done | apply lookup_insert_eq].
    + cbn [addFileToBundle] in Hrun.
      by rewrite addFileToBundleBody_claimStep, Hstep in Hrun.
    + cbn [addFileToBundle] in Hrun.
      by rewrite addFileToBundleBody_claimStep, Hstep in Hrun.
Qed.

(** C10: a module that cannot be read, or that LoadFile fails on, is left
    in the cache as a claimed entry with the modification time of the
    file, no content and no dependency; at the next visit of the file in
    a later build, with the entry marked unreachable and the same time on
    disk, the call takes the entry as a hit: it writes nothing, loads
    nothing and sends no error. *)
Theorem C10_failed_file_is_a_hit_next_time (fuel : nat) (p : string)
    (w : world) (st : osFile) :
  files w !! p = Some st →
  ¬ claimed (Files w) p →
  (∀ cf, Files w !! p = Some cf → LastModTime cf ≠ modTime st) →
  isJs p →
  (content st = None ∨
   ∃ src err, content st = Some src ∧ LoadFile src p = Ok (inr err)) →
  ∃ err w1,
    addFileToBundle LoadFile bundleDir (S fuel) p w = Ok (Some err, w1) ∧
    Files w1 !! p = Some (FileCache [] (modTime st) [] true) ∧
    ∀ (fuel2 : nat) (w2 : world) (st2 : osFile),
      files w2 !! p = Some st2 →
      modTime st2 = modTime st →
      Files w2 !! p
      = Some (markUnreachable (FileCache [] (modTime st) [] true)) →
      ∃ w3,
        addFileToBundle LoadFile bundleDir (S fuel2) p w2 = Ok (None, w3) ∧
        bundle w3 = bundle w2 ∧ loaded w3 = loaded w2 ∧
        Files w3 !! p = Some (FileCache [] (modTime st) [] true).
Proof.
  intros Hst Hnot Htime Hjs Hfail.
  assert (Hfirst : ∃ err w1,
    claimStep LoadFile bundleDir p w = Over (Some err) w1 ∧
    Files w1 !! p = Some (FileCache [] (modTime st) [] true)).
  { unfold claimStep. rewrite Hst.
    assert (Hproc : ∃ err w1,
      afterMiss p st (processFile LoadFile bundleDir p st w)
      = Over (Some err) w1 ∧
      Files w1 !! p = Some (FileCache [] (modTime st) [] true)).
    { unfold afterMiss, processFile.
      rewrite (bool_decide_eq_true_2 (Ext p = ".js")) by done.
      destruct Hfail as [-> | (src & err & -> & ->)];
        eexists _, _; (split; [reflexivity | apply lookup_insert_eq]). }
    destruct Hproc as (err & w1 & Hproc & Hentry).
    exists err, w1. split; [|done].
    destruct (Files w !! p) as [cf|] eqn:Hcf; [| done].
    destruct (IsReachable cf) eqn:Hr; [exfalso; apply Hnot; by exists cf |].
    by rewrite bool_decide_eq_false_2 by by apply Htime. }
  destruct Hfirst as (err & w1 & Hstep & Hentry).
  exists err, w1. split; [|split; [done |]].
  { cbn [addFileToBundle]. by rewrite addFileToBundleBody_claimStep, Hstep. }
  intros fuel2 w2 st2 Hst2 Htime2 Hcf2.
  eexists. cbn [addFileToBundle]. rewrite addFileToBundleBody_claimStep.
  unfold claimStep. rewrite Hst2, Hcf2. simpl.
  rewrite bool_decide_eq_true_2 by done.
  split; [reflexivity |]. simpl. rewrite app_nil_r, Htime2.
  split; [done |]. split; [done | apply lookup_insert_eq].
Qed.

(** *** A build *)

Lemma forRange_print (l : list message) (w : world) :
  forRange l (λ _ m, print m) tt w
  = Ok (tt, World (files w) (Files w) (bundle w) (copied w) (printed w ++ l)
              (loaded w)).
Proof.
  revert w. induction l as [|m l IH]; intros w.
  - cbn. rewrite app_nil_r. by destruct w.
  - cbn [forRange]. unfold bind at 1. unfold print at 1, modify.
    rewrite IH. simpl. by rewrite <- app_assoc.
Qed.

Lemma size_unclaimed (w : world) : (size (unclaimed w) ≤ size (files w))%nat.
Proof.
  rewrite <- (size_dom (files w)). apply subseteq_size.
  unfold unclaimed. set_solver.
Qed.

End BuildFacts.

Lemma C8_cache_hit_and_miss_witness :
  (loaderReturns (sampleLoadFile 20) (cachedEntryWorld 7%Z) →
   size (unclaimed (cachedEntryWorld 7%Z)) < 2 →
   ∃ e w',
     addFileToBundle (sampleLoadFile 20) "build" 2 "index.js" (cachedEntryWorld 7%Z)
     = Ok (e, w')) ∧
  ∀ e w',
    addFileToBundle (sampleLoadFile 20) "build" 2 "index.js" (cachedEntryWorld 7%Z)
    = Ok (e, w') →
    (LastModTime (FileCache (bytes "old fragment") 7%Z [] false)
     = modTime (OsFile 7%Z (Some (bytes lateErrorSource))) →
       (∃ l, loaded w' = loaded (cachedEntryWorld 7%Z) ++ l ∧ "index.js" ∉ l) ∧
       (∃ b, bundle w' = bundle (cachedEntryWorld 7%Z) ++
                         Data (FileCache (bytes "old fragment") 7%Z [] false) ++ b) ∧
       Files w' !! "index.js"
       = Some (FileCache (Data (FileCache (bytes "old fragment") 7%Z [] false))
                 (modTime (OsFile 7%Z (Some (bytes lateErrorSource))))
                 (Imports (FileCache (bytes "old fragment") 7%Z [] false)) true) ∧
       (∀ q, q ∈ Imports (FileCache (bytes "old fragment") 7%Z [] false) →
             is_Some (files (cachedEntryWorld 7%Z) !! q) →
             claimed (Files w') q)) ∧
    (LastModTime (FileCache (bytes "old fragment") 7%Z [] false)
     ≠ modTime (OsFile 7%Z (Some (bytes lateErrorSource))) → isJs "index.js" →
     ∀ src, content (OsFile 7%Z (Some (bytes lateErrorSource))) = Some src →
       (∃ l, loaded w' = loaded (cachedEntryWorld 7%Z) ++ "index.js" :: l ∧
             "index.js" ∉ l) ∧
       match (sampleLoadFile 20) src "index.js" with
       | Ok (inl (data, fileImports)) =>
           (∃ b, bundle w' = bundle (cachedEntryWorld 7%Z) ++ data ++ b) ∧
           Files w' !! "index.js"
           = Some (FileCache data (modTime (OsFile 7%Z (Some (bytes lateErrorSource))))
                     fileImports true) ∧
           (∀ q, q ∈ fileImports →
                 is_Some (files (cachedEntryWorld 7%Z) !! q) →
                 claimed (Files w') q)
       | Ok (inr err) =>
           e = Some (loaderError err) ∧ bundle w' = bundle (cachedEntryWorld 7%Z) ∧
           Files w' !! "index.js"
           = Some (FileCache [] (modTime (OsFile 7%Z (Some (bytes lateErrorSource)))) [] true)
       | Panic _ | OutOfFuel => False
       end).
Proof.
  apply (C8_cache_hit_and_miss (sampleLoadFile 20) "build" 2 "index.js"
           (cachedEntryWorld 7%Z) (OsFile 7%Z (Some (bytes lateErrorSource)))
           (FileCache (bytes "old fragment") 7%Z [] false)).
  - reflexivity.
  - reflexivity.
  - reflexivity.
Defined.

(** The two cases of C8 on the samples: with the cached time the old
    fragment is written and nothing is loaded; with another time the file
    is loaded. *)
Example cache_hit_reuses_the_fragment :
  addFileToBundle (sampleLoadFile 20) "build" 2 "index.js" (cachedEntryWorld 7%Z)
  = Ok (None,
        World (files (cachedEntryWorld 7%Z))
          (<["index.js" := FileCache (bytes "old fragment") 7%Z [] true]> ∅)
          (bytes "old fragment") [] [] []).
Proof. vm_compute. reflexivity. Qed.

Example cache_miss_loads_the_file :
  loaded <$> (match addFileToBundle (sampleLoadFile 20) "build" 2 "index.js"
                      (cachedEntryWorld 3%Z) with
              | Ok (_, w) => Some w
              | _ => None
              end)
  = Some ["index.js"].
Proof. vm_compute. reflexivity. Qed.

Lemma C10_failed_file_is_a_hit_next_time_witness :
  ∃ err w1,
    addFileToBundle (sampleLoadFile 20) "build" (S 0) "index.js" lateErrorWorld
    = Ok (Some err, w1) ∧
    Files w1 !! "index.js"
    = Some (FileCache [] (modTime (OsFile 7%Z (Some (bytes lateErrorSource)))) [] true) ∧
    ∀ (fuel2 : nat) (w2 : world) (st2 : osFile),
      files w2 !! "index.js" = Some st2 →
      modTime st2 = modTime (OsFile 7%Z (Some (bytes lateErrorSource))) →
      Files w2 !! "index.js"
      = Some (markUnreachable
                (FileCache [] (modTime (OsFile 7%Z (Some (bytes lateErrorSource)))) [] true)) →
      ∃ w3,
        addFileToBundle (sampleLoadFile 20) "build" (S fuel2) "index.js" w2
        = Ok (None, w3) ∧
        bundle w3 = bundle w2 ∧ loaded w3 = loaded w2 ∧
        Files w3 !! "index.js"
        = Some (FileCache [] (modTime (OsFile 7%Z (Some (bytes lateErrorSource)))) [] true).
Proof.
  apply (C10_failed_file_is_a_hit_next_time (sampleLoadFile 20) "build" 0 "index.js"
           lateErrorWorld (OsFile 7%Z (Some (bytes lateErrorSource)))).
  - reflexivity.
  - intros (e & He & _). vm_compute in He. discriminate.
  - intros cf Hcf. vm_compute in Hcf. discriminate.
  - reflexivity.
  - right. eexists _, _. split; [reflexivity | vm_compute; reflexivity].
Defined.

(** Two builds in a row of a bundle whose entry file does not parse: the
    first reports the failure, the second, the file being untouched,
    reports success and loads nothing. *)
Example failed_build_then_silent_build :
  (match createBundle (sampleLoadFile 20) "build" 3 "index.js" lateErrorWorld with
   | Ok (_, w1) =>
       match createBundle (sampleLoadFile 20) "build" 3 "index.js" w1 with
       | Ok (_, w2) => Some (printed w2, loaded w2)
       | _ => None
       end
   | _ => None
   end)
  = Some ([BuildFailed (loaderError
             (MkLoaderError
                (ParsingError p_UNEXPECTED_TOKEN (tk tPAREN_RIGHT ")")
                   (take 10 lateErrorTokens))
                "index.js"));
           BuildFinished],
          ["index.js"]).
Proof. vm_compute. reflexivity. Qed.

(** * Further properties of the code *)

(** ** Variable names and the helpers of the bundler *)

(** CreateVarNameFromPath replaces each slash, dot and dash by an
    underscore and keeps every other character: the name has the length of
    the path, holds none of the three characters, and naming a name again
    changes nothing. *)
Theorem CreateVarNameFromPath_chars (path : string) :
  CreateVarNameFromPath path = mapChars varNameChar path ∧
  String.length (CreateVarNameFromPath path) = String.length path ∧
  Contains (CreateVarNameFromPath path) "/" = false ∧
  Contains (CreateVarNameFromPath path) "." = false ∧
  Contains (CreateVarNameFromPath path) "-" = false ∧
  CreateVarNameFromPath (CreateVarNameFromPath path)
  = CreateVarNameFromPath path.
Proof.
  assert (Hmap : ∀ p, CreateVarNameFromPath p = mapChars varNameChar p).
  { intros p. unfold CreateVarNameFromPath.
    induction p as [|c p IH]; [done |].
    simpl. rewrite IH. f_equal. unfold varNameChar.
    destruct (Ascii.eqb c "/") eqn:E1; [done |].
    destruct (Ascii.eqb c ".") eqn:E2; [done |].
    destruct (Ascii.eqb c "-") eqn:E3; done. }
  assert (Hno : ∀ p c, varNameChar c ≠ c →
                 Contains (mapChars varNameChar p) c = false).
  { intros p c Hc. induction p as [|x p IH]; [done |].
    simpl. rewrite IH, orb_false_r. apply Ascii.eqb_neq.
    intros Hx. apply Hc. rewrite <- Hx. unfold varNameChar.
    destruct (Ascii.eqb x "/" || Ascii.eqb x "." || Ascii.eqb x "-") eqn:E;
      [reflexivity | by rewrite E]. }
  split; [apply Hmap |].
  split.
  { rewrite Hmap. induction path as [|c p IH]; [done |]. simpl. by rewrite IH. }
  rewrite !Hmap.
  repeat split; try (apply Hno; done).
  induction path as [|c p IH]; [done |].
  simpl. rewrite IH. f_equal. unfold varNameChar.
  destruct (Ascii.eqb c "/" || Ascii.eqb c "." || Ascii.eqb c "-") eqn:E;
    [reflexivity | by rewrite E].
Qed.

(** indexOf returns the first index at which the string stands in the
    slice, and -1 (here [None]) exactly when the slice does not hold it. *)
Theorem indexOf_first (arr : list string) (str : string) :
  match indexOf arr str with
  | Some i => arr !! i = Some str ∧ ∀ j, j < i → arr !! j ≠ Some str
  | None => str ∉ arr
  end.
Proof.
  induction arr as [|item rest IH]; simpl.
  - apply not_elem_of_nil.
  - case_decide as Heq.
    + subst. split; [done | intros j Hj; lia].
    + destruct (indexOf rest str) as [i|]; simpl.
      * destruct IH as [Hi Hfirst]. split; [done |].
        intros [|j] Hj; simpl; [congruence | apply Hfirst; lia].
      * rewrite elem_of_cons. intros [-> | Hin]; [done | by apply IH].
Qed.

(** getImportedVariable returns the binding of the innermost scope that
    binds the name; when no scope binds it the walk goes past the root and
    dereferences a nil pointer. *)
Theorem getImportedVariable_innermost (c : context) (name : astNode) :
  match getImportedVariable c name with
  | Some v =>
      ∃ i vars, scopes c !! i = Some vars ∧ vars !! value name = Some v ∧
                ∀ j inner, j < i → scopes c !! j = Some inner →
                           inner !! value name = None
  | None => ∀ vars, vars ∈ scopes c → vars !! value name = None
  end.
Proof.
  revert c. fix IH 1. intros [vars up]. simpl.
  destruct (vars !! value name) as [v|] eqn:Ev.
  - exists 0, vars. repeat split; [done |]. intros j inner Hj. lia.
  - destruct up as [p|].
    + specialize (IH p). destruct (getImportedVariable p name) as [v|].
      * destruct IH as (i & vs & Hi & Hv & Hfirst).
        exists (S i), vs. repeat split; [done.. |].
        intros [|j] inner Hj; simpl; [congruence |].
        apply Hfirst. lia.
      * intros vs. rewrite elem_of_cons. intros [-> | Hin]; [done | by apply IH].
    + intros vs. rewrite elem_of_cons. intros [-> | Hin]; [done |].
      by apply elem_of_nil in Hin.
Qed.

(** ** Import-path resolution: the rules on well-formed paths *)

(** A relative import, whose dot segments are a leading run that does not
    climb above the directory of the importing file, resolves against that
    directory: one directory is dropped per [..], the rest of the path is
    appended, and [.js] is added when the last segment has no dot. *)
Theorem relative_import_resolution (trim : string → string)
    (importPath currentFileName : string) (dots rest : list string)
    (final : string) :
  Split (trim importPath) "/" = dots ++ rest →
  dots ≠ [] →
  Forall isDotSegment dots →
  Forall (λ s, ¬ isDotSegment s) rest →
  last rest = Some final →
  (ups dots ≤ length (removelast (Split currentFileName "/")))%nat →
  resolveES6ImportPath trim importPath currentFileName
  = Some (Join (take (length (removelast (Split currentFileName "/"))
                      - ups dots)
                  (removelast (Split currentFileName "/")) ++ rest) "/"
          +:+ (if Contains final "." then "" else ".js")).
Proof. intros. by apply resolve_relative. Qed.

Lemma relative_import_resolution_witness :
  resolveES6ImportPath trimQuotes "'../lib/util'" "src/app/index.js"
  = Some (Join (take (length (removelast (Split "src/app/index.js" "/"))
                      - ups [".."])
                  (removelast (Split "src/app/index.js" "/")) ++ ["lib"; "util"])
            "/"
          +:+ (if Contains "util" "." then "" else ".js")).
Proof.
  apply (relative_import_resolution trimQuotes "'../lib/util'"
           "src/app/index.js" [".."] ["lib"; "util"] "util").
  - reflexivity.
  - discriminate.
  - constructor; [by right | constructor].
  - repeat constructor; unfold isDotSegment; intros [?|?]; discriminate.
  - reflexivity.
  - vm_compute. lia.
Defined.

(** A package import, a path without dot segment, resolves under
    [node_modules] whatever the importing file: a single segment names a
    package and gets [index.js], a longer path gets [.js] when its last
    segment has no dot. *)
Theorem package_import_resolution (trim : string → string)
    (importPath currentFileName : string) (final : string) :
  Forall (λ s, ¬ isDotSegment s) (Split (trim importPath) "/") →
  last (Split (trim importPath) "/") = Some final →
  resolveES6ImportPath trim importPath currentFileName
  = Some (if decide (length (Split (trim importPath) "/") = 1) then
            "node_modules/" +:+ trim importPath +:+ "/index.js"
          else
            "node_modules/" +:+ trim importPath
            +:+ (if Contains final "." then "" else ".js")).
Proof.
  intros Hplain Hlast.
  rewrite (resolve_package trim importPath currentFileName
             (Split (trim importPath) "/") final) by done.
  pose proof (Split_nonempty (trim importPath) "/") as Hne.
  pose proof (Join_Split (trim importPath) "/") as HJ.
  f_equal. case_decide.
  - change ("node_modules" :: Split (trim importPath) "/" ++ ["index.js"])
      with ("node_modules" :: (Split (trim importPath) "/" ++ ["index.js"])).
    rewrite Join_cons by by destruct (Split (trim importPath) "/").
    rewrite Join_snoc by done. rewrite HJ. reflexivity.
  - rewrite Join_cons by done. rewrite HJ. reflexivity.
Qed.

Lemma package_import_resolution_witness :
  resolveES6ImportPath trimQuotes "'lodash'" "src/app/index.js"
  = Some (if decide (length (Split (trimQuotes "'lodash'") "/") = 1) then
            "node_modules/" +:+ trimQuotes "'lodash'" +:+ "/index.js"
          else
            "node_modules/" +:+ trimQuotes "'lodash'"
            +:+ (if Contains "lodash" "." then "" else ".js")).
Proof.
  apply (package_import_resolution trimQuotes "'lodash'" "src/app/index.js"
           "lodash").
  - vm_compute. repeat constructor; unfold isDotSegment; intros [?|?]; discriminate.
  - reflexivity.
Defined.

(** The parts [strings.Split] gives hold no separator. *)
Lemma Split_no_sep (s : string) (sep : ascii) :
  Forall (λ part, Contains part sep = false) (Split s sep).
Proof.
  induction s as [|c s IH]; simpl.
  - by repeat constructor.
  - destruct (Ascii.eqb c sep) eqn:E.
    + by constructor.
    + destruct (Split s sep) as [|h t]; [by repeat constructor; simpl; rewrite E |].
      inversion IH as [|? ? Hh Ht]; subst.
      constructor; [| done]. simpl. by rewrite E, Hh.
Qed.

(** The loop of the resolver only drops parts from the front of the path. *)
Lemma resolveLoop_drops (parts loc pp loc' pp' : list string) :
  resolveLoop parts loc pp = Some (loc', pp') → ∃ k, pp' = drop k pp.
Proof.
  revert loc pp. induction parts as [|part rest IH]; intros loc pp H.
  - simpl in H. injection H as <- <-. by exists 0.
  - simpl in H.
    destruct (decide (part = "..")) as [->|Hdd].
    + destruct (dropLast loc) as [l|]; [| done]. simpl in H.
      destruct pp as [|x pp]; [done |]. simpl in H.
      destruct (IH _ _ H) as [k ->]. by exists (S k).
    + simpl in H. destruct (decide (part = ".")) as [->|Hd].
      * destruct pp as [|x pp]; [done |]. simpl in H.
        destruct (IH _ _ H) as [k ->]. by exists (S k).
      * simpl in H. by apply IH in H.
Qed.

Lemma ext_scan_app (s t : string) :
  snd (ext_scan t) = true → ext_scan (s +:+ t) = ext_scan t.
Proof.
  intros Ht. induction s as [|c s IH]; [done |].
  rewrite append_cons. simpl. rewrite IH.
  destruct (ext_scan t) as [r stopped]. simpl in Ht. by subst.
Qed.

Lemma ext_scan_plain (t : string) :
  Contains t "." = false → Contains t "/" = false →
  ext_scan t = ("", false).
Proof.
  induction t as [|c t IH]; [done |]. simpl.
  intros [Hc Ht]%orb_false_iff [Hc' Ht']%orb_false_iff.
  rewrite IH by done. by rewrite Hc, Hc'.
Qed.

Lemma ext_scan_plain_js (t : string) :
  Contains t "." = false → Contains t "/" = false →
  ext_scan (t +:+ ".js") = (".js", true).
Proof.
  induction t as [|c t IH]; [done |].
  intros H1 H2. simpl in H1, H2.
  apply orb_false_iff in H1 as [Hc Ht]. apply orb_false_iff in H2 as [Hc' Ht'].
  rewrite append_cons. simpl. by rewrite IH.
Qed.

Lemma ext_scan_dotted (t : string) :
  Contains t "." = true → Contains t "/" = false →
  ∃ r, ext_scan t = (r, true) ∧ r ≠ "".
Proof.
  induction t as [|c t IH]; [done |]. simpl.
  intros Hdot [Hc' Ht']%orb_false_iff.
  destruct (Contains t ".") eqn:Et.
  - destruct IH as (r & -> & Hr); [done.. |]. by exists r.
  - rewrite orb_false_r in Hdot. rewrite ext_scan_plain by done.
    rewrite Hc', Hdot. by eexists.
Qed.

Lemma Join_last (l : list string) (x sep : string) :
  last l = Some x → ∃ pre, Join l sep = pre +:+ x.
Proof.
  intros Hl. apply last_Some in Hl as [l' ->].
  destruct l' as [|y l'].
  - by exists "".
  - rewrite Join_snoc by done. exists (Join (y :: l') sep +:+ sep).
    by rewrite append_assoc.
Qed.

(** Every resolved path has an extension, on which the bundler tells
    modules from assets; when the last segment of the import path has no
    dot, the resolved path is a module ([.js]). *)
Theorem resolved_path_has_extension (trim : string → string)
    (importPath currentFileName r : string) :
  resolveES6ImportPath trim importPath currentFileName = Some r →
  Ext r ≠ "" ∧
  ∀ final, last (Split (trim importPath) "/") = Some final →
           Contains final "." = false → Ext r = ".js".
Proof.
  unfold resolveES6ImportPath. intros H.
  destruct (dropLast (Split currentFileName "/")) as [dir|]; [| done].
  cbn [mbind option_bind] in H.
  pose proof (Split_nonempty (trim importPath) "/") as Hne.
  pose proof (Split_no_sep (trim importPath) "/") as Hsep.
  remember (Split (trim importPath) "/") as P0 eqn:EP0.
  assert (Hinit : ∃ loc pp loc' pp' lastPart,
    (pp = P0 ∨ pp = P0 ++ ["index.js"]) ∧
    resolveLoop pp loc pp = Some (loc', pp') ∧
    last pp' = Some lastPart ∧
    r = Join (loc' ++ pp') "/"
        +:+ (if Contains lastPart "." then "" else ".js")).
  { clear EP0. destruct P0 as [|first more]; [done |].
    destruct (bool_decide (first ≠ ".") && bool_decide (first ≠ "..")).
    - destruct (decide (length (first :: more) = 1)).
      + destruct (resolveLoop ((first :: more) ++ ["index.js"]) ["node_modules"]
                    ((first :: more) ++ ["index.js"]))
          as [[loc' pp']|] eqn:EL; [| done].
        cbn [mbind option_bind] in H.
        destruct (last pp') as [lastPart|] eqn:Elast; [| done].
        cbn [mbind option_bind] in H. injection H as <-.
        eexists _, _, _, _, _. split; [by right |]. split; [exact EL |]. by split.
      + destruct (resolveLoop (first :: more) ["node_modules"] (first :: more))
          as [[loc' pp']|] eqn:EL; [| done].
        cbn [mbind option_bind] in H.
        destruct (last pp') as [lastPart|] eqn:Elast; [| done].
        cbn [mbind option_bind] in H. injection H as <-.
        eexists _, _, _, _, _. split; [by left |]. split; [exact EL |]. by split.
    - destruct (resolveLoop (first :: more) dir (first :: more))
        as [[loc' pp']|] eqn:EL; [| done].
      cbn [mbind option_bind] in H.
      destruct (last pp') as [lastPart|] eqn:Elast; [| done].
      cbn [mbind option_bind] in H. injection H as <-.
      eexists _, _, _, _, _. split; [by left |]. split; [exact EL |]. by split. }
  clear H.
  destruct Hinit as (loc & pp & loc' & pp' & lastPart & Hpp & HL & Hlast & ->).
  apply resolveLoop_drops in HL as [k ->].
  assert (Hppsep : Forall (λ part, Contains part "/" = false) pp).
  { destruct Hpp as [-> | ->]; [done |].
    apply Forall_app. split; [done |]. by repeat constructor. }
  assert (Hin : lastPart ∈ pp).
  { apply last_Some in Hlast as [l' Hl'].
    apply (subseteq_drop k pp). rewrite Hl'. set_solver. }
  assert (Hnoslash : Contains lastPart "/" = false).
  { by apply (proj1 (Forall_forall _ _) Hppsep). }
  assert (Hwhole : last pp = Some lastPart).
  { apply last_Some in Hlast as [l' Hl'].
    rewrite <- (take_drop k pp), Hl', app_assoc. apply last_snoc. }
  destruct (Join_last (loc' ++ drop k pp) lastPart "/") as [pre Hpre].
  { apply last_Some in Hlast as [l' Hl']. rewrite Hl', app_assoc.
    apply last_snoc. }
  rewrite Hpre. unfold Ext.
  destruct (Contains lastPart ".") eqn:Edot.
  - rewrite append_nil_r.
    destruct (ext_scan_dotted lastPart) as (e & He & Hne'); [done.. |].
    rewrite ext_scan_app by by rewrite He.
    rewrite He. split; [done |].
    intros final Hfinal Hplain.
    destruct Hpp as [-> | ->].
    + rewrite Hwhole in Hfinal. injection Hfinal as ->. congruence.
    + rewrite last_snoc in Hwhole. injection Hwhole as <-.
      by injection He as <-.
  - rewrite append_assoc.
    rewrite ext_scan_app by by rewrite ext_scan_plain_js.
    rewrite ext_scan_plain_js by done. done.
Qed.

Lemma resolved_path_has_extension_witness :
  Ext "src/lib/util.js" ≠ "" ∧
  ∀ final, last (Split (trimQuotes "'../lib/util'") "/") = Some final →
           Contains final "." = false → Ext "src/lib/util.js" = ".js".
Proof.
  apply (resolved_path_has_extension trimQuotes "'../lib/util'"
           "src/app/index.js" "src/lib/util.js").
  reflexivity.
Defined.

(** ** The parser: its primitives *)

Lemma skip_newlines (fuel : nat) (tk' : token) (k : nat) (p : parserState) :
  onToken p →
  firstNoNewline (remaining p) = Some tk' →
  leadingNewlines (remaining p) = k →
  k < fuel →
  loop fuel (λ _ : unit,
    p <- get ;;
    if bool_decide (tType (tok p) = tNEWLINE) then next ;; ret (tt, true)
    else ret (tt, false)) tt p
  = Ok (tt, seek p (index p + k) tk').
Proof.
  set (body := λ _ : unit,
    p <- get ;;
    if bool_decide (tType (tok p) = tNEWLINE) then next ;; ret (tt, true)
    else ret (tt, false)).
  assert (Hstep : ∀ fuel p,
    loop (S fuel) body tt p
    = if bool_decide (tType (tok p) = tNEWLINE)
      then loop fuel body tt (advance p) else Ok (tt, p)).
  { intros f q. cbn [loop]. unfold body at 1. unfold bind, get.
    by destruct (bool_decide (tType (tok q) = tNEWLINE)). }
  revert fuel p. induction k as [|k IH]; intros fuel p Hon Hfirst Hk Hfuel.
  all: destruct fuel as [|fuel]; [lia |].
  all: rewrite Hstep.
  all: unfold onToken, remaining in *.
  all: rewrite (drop_S _ _ _ Hon) in Hfirst, Hk; simpl in Hfirst, Hk.
  all: case_bool_decide as Hnl; try done.
  - injection Hfirst as <-. destruct p. unfold seek. simpl.
    by rewrite Nat.add_0_r.
  - injection Hk as Hk.
    destruct (elems (sourceTokens p) !! (index p + 1)) as [t1|] eqn:E1.
    2:{ rewrite Nat.add_1_r in E1. apply lookup_ge_None in E1.
        rewrite drop_ge in Hfirst by done. done. }
    rewrite (IH fuel (advance p)); unfold advance; rewrite ?E1; simpl.
    + unfold seek. simpl. do 3 f_equal. lia.
    + done.
    + by rewrite Nat.add_1_r.
    + by rewrite Nat.add_1_r.
    + lia.
Qed.

Lemma accept_run (fuel : nat) (tTypes : list tokenType)
    (p : parserState) (tk' : token) :
  onToken p →
  firstNoNewline (remaining p) = Some tk' →
  leadingNewlines (remaining p) < fuel →
  accept fuel tTypes p
  = if bool_decide (tTypes = []) || isType tk' tTypes
    then Ok (true, consumed p tk')
    else Ok (false, p).
Proof.
  intros Hon Hfirst Hfuel.
  unfold accept. unfold bind at 1. unfold get at 1.
  unfold bind at 1.
  rewrite (skip_newlines fuel tk' _ p Hon Hfirst eq_refl Hfuel).
  destruct tTypes as [|ty tys]; [reflexivity |].
  rewrite bool_decide_eq_false_2 by done. rewrite orb_false_l.
  unfold bind, get. cbn [tok seek].
  destruct (isType tk' (ty :: tys)); [reflexivity |].
  unfold backtrack, tokenAt, bind, get, elemAt. cbn [sourceTokens seek].
  unfold onToken in Hon. rewrite Hon. unfold ret, modify. simpl.
  by destruct p.
Qed.

(** accept skips the newlines before the next token; when that token is of
    one of the kinds asked for (or no kind is asked for) it is consumed,
    and otherwise the parser is put back where it was. *)
Theorem accept_consumes_or_restores (fuel : nat) (tTypes : list tokenType)
    (p : parserState) (tk' : token) :
  onToken p →
  firstNoNewline (remaining p) = Some tk' →
  leadingNewlines (remaining p) < fuel →
  accept fuel tTypes p
  = if bool_decide (tTypes = []) || isType tk' tTypes
    then Ok (true, consumed p tk')
    else Ok (false, p).
Proof.
  intros Hon Hfirst Hfuel.
  unfold accept. unfold bind at 1. unfold get at 1. unfold bind at 1.
  rewrite (skip_newlines fuel tk' _ p Hon Hfirst eq_refl Hfuel).
  destruct tTypes as [|ty tys]; [reflexivity |].
  rewrite bool_decide_eq_false_2 by done. rewrite orb_false_l.
  unfold bind, get. cbn [tok seek].
  destruct (isType tk' (ty :: tys)); [reflexivity |].
  unfold backtrack, tokenAt, bind, get, elemAt. cbn [sourceTokens seek].
  unfold onToken in Hon. rewrite Hon. unfold ret, modify. simpl.
  by destruct p.
Qed.

Lemma accept_consumes_or_restores_witness :
  accept 2 [tNAME] (lineState 0 tNEWLINE "")
  = Ok (true, lineState 2 tSEMI ";").
Proof.
  apply (accept_consumes_or_restores 2 [tNAME] (lineState 0 tNEWLINE "")
           (tk tNAME "a")).
  - reflexivity.
  - reflexivity.
  - vm_compute. lia.
Defined.

(** expect consumes the token it asks for.  When the next token is another
    one, a semicolon may be left out before a newline, which is consumed,
    and before a closing brace or the end of the input; anything else is a
    parsing error, reported at the token the parser was on (a newline
    included), with the ten tokens around it when the slice has them, and a
    run-time panic when it has not. *)
Theorem expect_or_insert_semicolon (fuel : nat) (ty : tokenType)
    (p : parserState) (tk' : token) :
  onToken p →
  firstNoNewline (remaining p) = Some tk' →
  leadingNewlines (remaining p) < fuel →
  expect fuel ty p
  = if bool_decide (tType tk' = ty) then Ok (tt, consumed p tk')
    else if bool_decide (ty = tSEMI) && bool_decide (tType (tok p) = tNEWLINE)
    then Ok (tt, advance p)
    else if bool_decide (ty = tSEMI) &&
            (bool_decide (tType (tok p) = tCURLY_RIGHT) ||
             bool_decide (tType (tok p) = tEND_OF_INPUT))
    then Ok (tt, p)
    else if bool_decide (5 ≤ index p ∧ index p + 5 ≤ cap (sourceTokens p))%nat
    then Panic (PanicWith
                  (ParsingError p_UNEXPECTED_TOKEN (tok p) (errorWindow p)))
    else Panic RuntimeError.
Proof.
  intros Hon Hfirst Hfuel.
  unfold expect. unfold bind at 1.
  rewrite (accept_run fuel [ty] p tk' Hon Hfirst Hfuel).
  rewrite bool_decide_eq_false_2 by done. rewrite orb_false_l.
  unfold isType. simpl. rewrite orb_false_r.
  destruct (bool_decide (tType tk' = ty)); [reflexivity |].
  unfold checkASI, bind, get.
  destruct (bool_decide (ty = tSEMI) && bool_decide (tType (tok p) = tNEWLINE));
    [reflexivity |].
  destruct (bool_decide (ty = tSEMI) &&
            (bool_decide (tType (tok p) = tCURLY_RIGHT) ||
             bool_decide (tType (tok p) = tEND_OF_INPUT))); [reflexivity |].
  rewrite sliceExpr_window. unfold errorWindow.
  by destruct (bool_decide (5 ≤ index p ∧ index p + 5 ≤ cap (sourceTokens p))%nat).
Qed.

Lemma expect_or_insert_semicolon_witness :
  expect 2 tSEMI (lineState 3 tEND_OF_INPUT "")
  = Ok (tt, lineState 3 tEND_OF_INPUT "").
Proof.
  apply (expect_or_insert_semicolon 2 tSEMI (lineState 3 tEND_OF_INPUT "")
           (tk tEND_OF_INPUT "")).
  - reflexivity.
  - reflexivity.
  - vm_compute. lia.
Defined.

(** ** The parser at the end of the input *)

Section EndOfInput.

Variable operatorTable : tokenType → option operator.
Variable isLetter isNumber : ascii → bool.
Variable g_zero : grammarType.
Variable p : parserState.

Hypothesis Hend : operatorTable tEND_OF_INPUT = None.
Hypothesis Hon : onToken p.
Hypothesis Heoi : tType (tok p) = tEND_OF_INPUT.

Local Arguments accept : simpl never.

Lemma accept_at_end (f : nat) (tTypes : list tokenType) :
  isType (Token tEND_OF_INPUT "" 0 0) tTypes = false →
  tTypes ≠ [] →
  accept (S f) tTypes p = Ok (false, p).
Proof.
  intros Hty Hne.
  assert (Hrem : remaining p = tok p :: drop (S (index p)) (elems (sourceTokens p))).
  { unfold remaining. by rewrite (drop_S _ _ _ Hon). }
  rewrite (accept_run (S f) tTypes p (tok p)); [| done | | ].
  - rewrite bool_decide_eq_false_2 by done.
    replace (isType (tok p) tTypes) with false; [done |].
    rewrite <- Hty. unfold isType. by rewrite Heoi.
  - rewrite Hrem. simpl. by rewrite Heoi.
  - rewrite Hrem. simpl. rewrite Heoi. simpl. lia.
Qed.

Lemma checkASI_at_end : checkASI tSEMI p = Ok (tt, p).
Proof. unfold checkASI, bind, get. rewrite Heoi. reflexivity. Qed.

Ltac at_end :=
  repeat (progress (unfold bind, ret, get; cbn [loop forRange negb];
                    cbn beta iota;
                    rewrite ?accept_at_end by done;
                    rewrite ?checkASI_at_end)).

Lemma parseAtom_at_end (f : nat) (rec : parserRec) :
  parseAtom isLetter isNumber g_zero (S f) rec p = Ok (zeroAst g_zero, p).
Proof. unfold parseAtom. at_end. reflexivity. Qed.

Lemma parseFunctionCallOrMember_at_end (f : nat) (rec : parserRec)
    (onlyMember : bool) :
  parseFunctionCallOrMember isLetter isNumber g_zero (S f) rec onlyMember p
  = Ok (zeroAst g_zero, p).
Proof.
  unfold parseFunctionCallOrMember, parseConstructorCall. at_end.
  rewrite parseAtom_at_end. at_end. destruct onlyMember; at_end; reflexivity.
Qed.

Lemma parsePrefixUnary_at_end (f : nat) (rec : parserRec) :
  parsePrefixUnary isLetter isNumber g_zero (S f) rec p
  = Ok (zeroAst g_zero, p).
Proof.
  unfold parsePrefixUnary, parsePostfixUnary. at_end.
  rewrite parseFunctionCallOrMember_at_end. at_end. reflexivity.
Qed.

Lemma parseYield_at_end (f : nat) (rec : parserRec) :
  parseYield operatorTable isLetter isNumber g_zero (S f) rec p
  = Ok (zeroAst g_zero, p).
Proof.
  unfold parseYield, parseAssignment, parseConditional, parseBinary,
    parseBinaryWith.
  at_end. rewrite parsePrefixUnary_at_end. at_end.
  rewrite Heoi, Hend. at_end.
  change (reverse (@nil token)) with (@nil token). at_end.
  unfold orPanic. cbn [app last]. at_end. reflexivity.
Qed.

Lemma parseStatement_at_end (f : nat) (rec : parserRec) :
  parseStatement operatorTable isLetter isNumber g_zero (S f) rec p
  = Ok (emptyStatement g_zero, p).
Proof.
  unfold parseStatement, parseExpressionStatement, parseExpression,
    parseSequence, expect.
  at_end. rewrite parseYield_at_end. at_end.
  rewrite bool_decide_eq_false_2 by (simpl; lia). at_end. reflexivity.
Qed.

(** The loop of parseBlockStatement, when each statement is parsed without
    a token being consumed. *)
Lemma block_loop_at_end (fuel : nat) (rec : parserRec)
    (statements : list astNode) :
  (r_parseStatement rec p = OutOfFuel ∨
   ∃ st, r_parseStatement rec p = Ok (st, p)) →
  loop fuel (λ statements,
    closed <- accept fuel [tCURLY_RIGHT] ;;
    if closed then ret (statements, false) else
    st <- r_parseStatement rec ;;
    ret (statements ++ [st], true)) statements p
  = OutOfFuel.
Proof.
  intros Hst.
  destruct fuel as [|f]; [reflexivity |].
  generalize (S f) at 1. intros n. revert statements.
  induction n as [|n IH]; intros statements; [reflexivity |].
  cbn [loop]. unfold bind at 1. unfold bind at 1.
  rewrite accept_at_end by done. cbn beta iota.
  unfold bind at 1.
  destruct Hst as [-> | [st ->]]; [reflexivity |].
  unfold ret at 1. cbn beta iota. apply IH.
Qed.

End EndOfInput.

(** A block that meets the end of the input before its closing brace is
    never parsed: each round of the loop of parseBlockStatement parses a
    statement made of nothing and consumes no token, so the loop does not
    end.  So the parser does not return on the source [{]. *)
Theorem unclosed_block_is_parsed_for_ever
    (operatorTable : tokenType → option operator)
    (isLetter isNumber : ascii → bool) (g_zero : grammarType)
    (p : parserState) :
  operatorTable tEND_OF_INPUT = None →
  onToken p →
  tType (tok p) = tEND_OF_INPUT →
  (∀ fuel depth,
     parseBlockStatement fuel
       (parserAt operatorTable isLetter isNumber g_zero depth) p
     = OutOfFuel) ∧
  (∀ fuel spare,
     parseTokens operatorTable isLetter isNumber g_zero fuel
       (TokenSlice unclosedBlockTokens spare)
     = OutOfFuel).
Proof.
  intros Hend Hon Heoi.
  assert (Hblock : ∀ q, onToken q → tType (tok q) = tEND_OF_INPUT →
    ∀ fuel depth,
      parseBlockStatement fuel
        (parserAt operatorTable isLetter isNumber g_zero depth) q
      = OutOfFuel).
  { intros q Hq Hqe fuel depth. unfold parseBlockStatement.
    unfold bind at 1.
    rewrite (block_loop_at_end q Hq Hqe); [done |].
    destruct depth as [|[|d]]; [by left | by left |].
    right. eexists. cbn [parserAt r_parseStatement].
    by apply parseStatement_at_end. }
  split; [by apply Hblock |].
  intros fuel spare.
  destruct fuel as [|[|f]]; [reflexivity | reflexivity |].
  unfold parseTokens, parseProgram.
  change (elems (TokenSlice unclosedBlockTokens spare) !! 0)
    with (Some (tk tCURLY_LEFT "{")).
  cbn beta iota.
  set (p0 := ParserState (TokenSlice unclosedBlockTokens spare) 0
               (tk tCURLY_LEFT "{") false).
  set (q := ParserState (TokenSlice unclosedBlockTokens spare) 1
              (tk tEND_OF_INPUT "") false).
  assert (Hacc : ∀ tys, tys ≠ [] →
    accept (S (S f)) tys p0
    = if isType (tk tCURLY_LEFT "{") tys then Ok (true, q) else Ok (false, p0)).
  { intros tys Hne.
    rewrite (accept_run _ tys p0 (tk tCURLY_LEFT "{"));
      [| reflexivity | reflexivity | simpl; lia].
    by rewrite bool_decide_eq_false_2 by done. }
  unfold parseProgramStatements, parseStatement.
  cbn [loop]. unfold bind, get, ret. cbn beta iota.
  repeat (rewrite Hacc by done;
          match goal with
          | |- context [isType ?t ?tys] =>
              let b := eval vm_compute in (isType t tys) in
              change (isType t tys) with b
          end; cbn beta iota).
  rewrite (Hblock q); done.
Qed.

Lemma unclosed_block_is_parsed_for_ever_witness :
  (∀ fuel depth,
     parseBlockStatement fuel
       (parserAt sampleTable sampleIsLetter sampleIsNumber (g_OTHER 0) depth)
       unclosedBlockState
     = OutOfFuel) ∧
  (∀ fuel spare,
     parseTokens sampleTable sampleIsLetter sampleIsNumber (g_OTHER 0) fuel
       (TokenSlice unclosedBlockTokens spare)
     = OutOfFuel).
Proof.
  apply (unclosed_block_is_parsed_for_ever sampleTable sampleIsLetter
           sampleIsNumber (g_OTHER 0) unclosedBlockState).
  - reflexivity.
  - reflexivity.
  - reflexivity.
Defined.

(** ** Chains of binary operators *)

Lemma forRange_app {E St A B} (l1 l2 : list A) (body : B → A → M E St B)
    (acc : B) (s : St) :
  forRange (l1 ++ l2) body acc s
  = bind (forRange l1 body acc) (λ acc', forRange l2 body acc') s.
Proof.
  revert acc s. induction l1 as [|x l1 IH]; intros acc s; [reflexivity |].
  cbn [app forRange]. unfold bind in *.
  destruct (body acc x s) as [[acc1 s1]| |]; [apply IH | done | done].
Qed.

Section BinaryChains.

Variable operatorTable : tokenType → option operator.
Variable operand : P astNode.
Variable fuel : nat.

Local Arguments reduceStack : simpl never.
Local Arguments next : simpl never.

Lemma parseBinaryWith_rounds :
  parseBinaryWith operatorTable fuel operand
  = bind (loop fuel (binaryRound operatorTable fuel operand) ([], [], None)) binaryEnd.
Proof. reflexivity. Qed.

(** A round on the last operand of a chain. *)
Lemma round_last (st : binaryState) (p q : parserState) (a : astNode) :
  operand p = Ok (a, q) → binaryStops operatorTable q →
  binaryRound operatorTable fuel operand st p = Ok ((st.1.1, st.1.2 ++ [a], st.2, false), q).
Proof.
  intros Ha Hstop. destruct st as [[ops out] root]. unfold binaryRound.
  unfold bind at 1. rewrite Ha. unfold bind, get. cbn beta iota.
  destruct Hstop as [-> | [Hflag Hin]]; [reflexivity |].
  destruct (operatorTable (tType (tok q))); [| reflexivity].
  rewrite Hflag, Hin. reflexivity.
Qed.

(** A round on an operand that an operator follows. *)
Lemma round_more (st : binaryState) (p q : parserState) (a : astNode)
    (o : operator) :
  operand p = Ok (a, q) →
  operatorTable (tType (tok q)) = Some o →
  globalFlagIsInsideForIn q && bool_decide (tType (tok q) = tIN) = false →
  binaryRound operatorTable fuel operand st p
  = match reduceStack operatorTable fuel o (st.1.1, st.1.2 ++ [a], st.2) q with
    | Ok ((ops, out, root), q') => Ok ((ops ++ [tok q'], out, root, true), advance q')
    | Panic v => Panic v
    | OutOfFuel => OutOfFuel
    end.
Proof.
  intros Ha Ho Hin. destruct st as [[ops out] root]. unfold binaryRound.
  unfold bind at 1. rewrite Ha. unfold bind at 1. unfold get at 1.
  cbn beta iota. rewrite Ho, Hin. unfold bind at 1. cbn [fst snd].
  destruct (reduceStack operatorTable fuel o (ops, out ++ [a], root) q)
    as [[[[ops' out'] root'] q']| |]; reflexivity.
Qed.

(** With an operator of the same level on top of the stack, the inner
    loop reduces it when the level is left-associative. *)
Lemma reduceStack_left (t : token) (ot o : operator) (acc a : astNode)
    (root : option astNode) (q : parserState) :
  (2 ≤ fuel)%nat →
  operatorTable (tType t) = Some ot →
  precedence ot = precedence o → isRightAssociative o = false →
  reduceStack operatorTable fuel o ([t], [acc; a], root) q
  = Ok (([], [binaryNode acc (t, a)], Some (binaryNode acc (t, a))), q).
Proof.
  intros Hfuel Hot Hprec Hleft.
  destruct fuel as [|[|f]]; [lia | lia |].
  rewrite (reduceStack_one operatorTable f o ot) by done.
  replace (reducesBefore ot o) with true; [reflexivity |].
  symmetry. apply reducesBefore_spec. by right.
Qed.

(** The rounds of a left-associative chain, from the second operand on:
    one operator is on the stack, with the tree built so far. *)
Lemma left_chain_pending (level : Z) (rest : list (token * astNode)) :
  (2 ≤ fuel)%nat →
  sameLevel operatorTable level false rest →
  ∀ (k : nat) (p qf : parserState) (a acc : astNode) (t : token)
    (ot : operator) (root : option astNode),
    operandChain operatorTable operand p a rest qf →
    operatorTable (tType t) = Some ot → precedence ot = level →
    length rest < k →
    bind (loop k (binaryRound operatorTable fuel operand) ([t], [acc], root))
      binaryEnd p
    = Ok (leftNested (binaryNode acc (t, a)) rest, qf).
Proof.
  intros Hfuel Hlevel.
  induction Hlevel as [|item rest (o & Ho & Hprec & Hleft) _ IH];
    intros k p qf a acc t ot root Hchain Hot Hpt Hk.
  all: destruct k as [|k]; [simpl in Hk; lia |].
  - inversion Hchain as [? ? ? Ha Hstop |]; subst.
    unfold bind at 1. cbn [loop]. unfold bind at 1.
    rewrite (round_last _ _ _ _ Ha Hstop). cbn beta iota. unfold ret at 1.
    reflexivity.
  - revert Hpt Hprec.
    inversion Hchain as [| ? ? q o' b ? ? Ha Ho' Hin Hrest]; subst.
    intros Hpt Hprec.
    unfold bind at 1. cbn [loop]. unfold bind at 1.
    rewrite (round_more _ _ _ _ _ Ha Ho' Hin). cbn [fst snd app].
    simpl in Ho. rewrite Ho in Ho'. injection Ho' as <-.
    rewrite (reduceStack_left t ot o) by (done || congruence).
    cbn beta iota. cbn [app].
    specialize (IH k (advance q) qf b (binaryNode acc (t, a)) (tok q) o
                  (Some (binaryNode acc (t, a))) Hrest Ho Hprec).
    unfold bind at 1 in IH. rewrite IH by (simpl in Hk; lia).
    reflexivity.
Qed.

(** The end of parseBinary on a right-associative chain whose operators
    and operands are all on the stacks. *)
Lemma binaryEnd_right (rest : list (token * astNode)) :
  ∀ (a : astNode) (pre : list astNode) (root : option astNode)
    (q : parserState),
    forRange (reverse rest.*1) (λ '(outputStack, _) opToken,
      '(outputStack, nn) <- addNode opToken outputStack ;;
      ret (outputStack, Some nn)) (pre ++ a :: rest.*2, root) q
    = Ok ((pre ++ [rightNested a rest],
           if decide (rest = []) then root else Some (rightNested a rest)), q).
Proof.
  induction rest as [|[t b] rest IH]; intros a pre root q; [reflexivity |].
  cbn [fmap list_fmap fst snd]. rewrite reverse_cons.
  rewrite forRange_app. unfold bind at 1.
  change (pre ++ a :: b :: list_fmap _ _ snd rest)
    with (pre ++ a :: b :: rest.*2).
  replace (pre ++ a :: b :: rest.*2) with ((pre ++ [a]) ++ b :: rest.*2)
    by by rewrite <- app_assoc.
  rewrite IH. cbn [forRange]. unfold bind at 1. unfold addNode.
  rewrite !reverse_app. cbn [reverse rev_append app].
  change (reverse [rightNested b rest]) with [rightNested b rest].
  change (reverse [a]) with [a]. cbn [app].
  unfold bind, ret. cbn beta iota.
  change (rev_append (reverse pre) []) with (reverse (reverse pre)).
  rewrite reverse_involutive.
  rewrite decide_False by done. reflexivity.
Qed.

(** With an operator of the same level on top of the stack, the inner
    loop reduces nothing when the level is right-associative. *)
Lemma reduceStack_right (ops : list token) (t : token) (ot o : operator)
    (out : list astNode) (root : option astNode) (q : parserState) :
  (1 ≤ fuel)%nat →
  operatorTable (tType t) = Some ot →
  precedence ot = precedence o → isRightAssociative o = true →
  reduceStack operatorTable fuel o (ops ++ [t], out, root) q
  = Ok ((ops ++ [t], out, root), q).
Proof.
  intros Hfuel Hot Hprec Hright.
  destruct fuel as [|f]; [lia |].
  unfold reduceStack. cbn [loop]. unfold bind at 1.
  rewrite last_snoc. unfold lookupOperator. rewrite Hot. cbn [default from_option id].
  replace (reducesBefore ot o) with false; [reflexivity |].
  symmetry. apply not_true_is_false. rewrite reducesBefore_spec.
  intros [? | [_ ?]]; [lia | congruence].
Qed.

Lemma right_chain_rounds (level : Z) (rest : list (token * astNode)) :
  (1 ≤ fuel)%nat →
  sameLevel operatorTable level true rest →
  ∀ (k : nat) (p qf : parserState) (a : astNode) (ops : list token)
    (out : list astNode) (root : option astNode),
    operandChain operatorTable operand p a rest qf →
    (ops = [] ∨ ∃ ops' t ot, ops = ops' ++ [t] ∧
                 operatorTable (tType t) = Some ot ∧ precedence ot = level) →
    length rest < k →
    loop k (binaryRound operatorTable fuel operand) (ops, out, root) p
    = Ok ((ops ++ rest.*1, out ++ a :: rest.*2, root), qf).
Proof.
  intros Hfuel Hlevel.
  induction Hlevel as [|item rest (o & Ho & Hprec & Hright) _ IH];
    intros k p qf a ops out root Hchain Hops Hk.
  all: destruct k as [|k]; [simpl in Hk; lia |].
  - inversion Hchain as [? ? ? Ha Hstop |]; subst.
    cbn [loop]. unfold bind at 1.
    rewrite (round_last _ _ _ _ Ha Hstop). cbn beta iota. unfold ret.
    cbn [fst snd fmap list_fmap]. by rewrite app_nil_r.
  - revert Hprec.
    inversion Hchain as [| ? ? q o' b ? ? Ha Ho' Hin Hrest]; subst.
    intros Hprec.
    cbn [loop]. unfold bind at 1.
    rewrite (round_more _ _ _ _ _ Ha Ho' Hin). cbn [fst snd].
    simpl in Ho. rewrite Ho in Ho'. injection Ho' as <-.
    assert (Hred : reduceStack operatorTable fuel o (ops, out ++ [a], root) q
                   = Ok ((ops, out ++ [a], root), q)).
    { destruct Hops as [-> | (ops' & t & ot & -> & Hot & Hpt)].
      - destruct fuel; [lia |]. apply reduceStack_empty.
      - apply (reduceStack_right ops' t ot o); [done.. | congruence | done]. }
    rewrite Hred. cbn beta iota.
    rewrite (IH k (advance q) qf b (ops ++ [tok q]) (out ++ [a]) root Hrest);
      [| right; by exists ops, (tok q), o | simpl in Hk; lia].
    cbn [fmap list_fmap fst snd]. rewrite <- !app_assoc. reflexivity.
Qed.

End BinaryChains.

(** A chain of binary operators that all have the same precedence nests by
    their associativity: to the left when they are left-associative,
    [a - b - c] being [(a - b) - c], and to the right when they are
    right-associative.  A lone operand is returned as it is, and inside the
    header of a for-in statement the chain ends before [in]. *)
Theorem parseBinary_chain_nests_by_associativity
    (operatorTable : tokenType → option operator) (operand : P astNode)
    (fuel : nat) (level : Z) (rightAssoc : bool)
    (p qf : parserState) (a : astNode) (rest : list (token * astNode)) :
  operandChain operatorTable operand p a rest qf →
  sameLevel operatorTable level rightAssoc rest →
  length rest + 1 < fuel →
  parseBinaryWith operatorTable fuel operand p
  = Ok (if rightAssoc then rightNested a rest else leftNested a rest, qf).
Proof.
  intros Hchain Hlevel Hfuel. rewrite parseBinaryWith_rounds.
  destruct rightAssoc.
  - unfold bind.
    rewrite (right_chain_rounds operatorTable operand fuel level rest
               ltac:(lia) Hlevel fuel p qf a [] [] None Hchain);
      [| by left | lia].
    unfold binaryEnd. cbn [app]. unfold bind at 1.
    pose proof (binaryEnd_right rest a [] None qf) as He. cbn [app] in He.
    rewrite He.
    destruct rest as [|item rest]; reflexivity.
  - destruct fuel as [|k]; [lia |].
    unfold bind at 1. cbn [loop]. unfold bind at 1.
    inversion Hchain as [? ? ? Ha Hstop | ? ? q o b rest' ? Ha Ho Hin Hrest];
      subst.
    + rewrite (round_last _ _ _ _ _ _ _ Ha Hstop). reflexivity.
    + rewrite (round_more _ _ _ _ _ _ _ _ Ha Ho Hin). cbn [fst snd app].
      rewrite reduceStack_empty. cbn beta iota. cbn [app].
      inversion Hlevel as [|? ? (o' & Ho' & Hprec & Hleft) Hlevel']; subst.
      simpl in Ho'. rewrite Ho in Ho'. injection Ho' as <-.
      pose proof (left_chain_pending operatorTable operand (S k)
                    (precedence o) rest' ltac:(simpl in Hfuel; lia) Hlevel'
                    k (advance q) qf b a (tok q) o None Hrest Ho eq_refl) as H.
      unfold bind at 1 in H. rewrite H by (simpl in Hfuel; lia).
      reflexivity.
Qed.

Lemma parseBinary_chain_nests_by_associativity_witness :
  parseBinaryWith sampleTable 5 sampleOperand (differenceState 0 "a" tNAME)
  = Ok (leftNested (makeNode g_NAME "a" [])
          [(tk tMINUS "-", makeNode g_NAME "b" []);
           (tk tMINUS "-", makeNode g_NAME "c" [])],
        differenceState 5 "" tEND_OF_INPUT).
Proof.
  apply (parseBinary_chain_nests_by_associativity sampleTable sampleOperand 5
           13 false (differenceState 0 "a" tNAME)
           (differenceState 5 "" tEND_OF_INPUT) (makeNode g_NAME "a" [])
           [(tk tMINUS "-", makeNode g_NAME "b" []);
            (tk tMINUS "-", makeNode g_NAME "c" [])]).
  - apply (operandChain_more sampleTable sampleOperand
             (differenceState 0 "a" tNAME) (makeNode g_NAME "a" [])
             (differenceState 1 "-" tMINUS) (Operator 13 false));
      [reflexivity.. |].
    apply (operandChain_more sampleTable sampleOperand
             (differenceState 2 "b" tNAME) (makeNode g_NAME "b" [])
             (differenceState 3 "-" tMINUS) (Operator 13 false));
      [reflexivity.. |].
    apply operandChain_last; [reflexivity | by left].
  - repeat constructor; by eexists.
  - simpl. lia.
Defined.

(** ** The module transform: what it leaves alone *)

Lemma forRange_collect_id {E St A} (f : A → M E St A) (l acc : list A)
    (s : St) :
  Forall (λ x, f x s = Ok (x, s)) l →
  forRange l (λ acc x, y <- f x ;; ret (acc ++ [y])) acc s
  = Ok (acc ++ l, s).
Proof.
  intros H. revert acc. induction H as [|x l Hx _ IH]; intros acc.
  - simpl. unfold ret. by rewrite app_nil_r.
  - cbn [forRange]. unfold bind at 1. unfold bind at 1. rewrite Hx.
    unfold ret at 1. cbn beta iota. rewrite IH. by rewrite <- app_assoc.
Qed.

Lemma mapM_id {E St A} (f : A → M E St A) (l : list A) (s : St) :
  Forall (λ x, f x s = Ok (x, s)) l → mapM f l s = Ok (l, s).
Proof. intros H. unfold mapM. by rewrite forRange_collect_id. Qed.

Lemma height_child (ty : grammarType) (v : string) (ch : list astNode)
    (fl : Z) (c : astNode) :
  c ∈ ch → height c < height (AstNode ty v ch fl).
Proof.
  intros Hin. cbn [height].
  assert (height c ≤ list_max (map height ch))%nat; [| lia].
  induction Hin as [c ch | c d ch _ IH]; simpl; lia.
Qed.

Section Untouched.

Variable trim : string → string.
Variable g_zero : grammarType.
Variable fileName : string.

(** The transform returns a tree it has nothing to do in as it is, and
    leaves the dependency list and the bindings as they are. *)
Lemma modifyAst_untouched (fuel : nat) :
  ∀ (n : astNode) (s : transformState),
    untouched (importedVars (ctx s)) n = true →
    (height n ≤ fuel)%nat →
    modifyAst trim g_zero fileName fuel n s = Ok (n, s).
Proof.
  induction fuel as [|f IH]; intros n s Hun Hh.
  { destruct n. simpl in Hh. lia. }
  assert (Hch : ∀ ty v ch fl, n = AstNode ty v ch fl →
    forallb (untouched (importedVars (ctx s))) ch = true →
    mapM (modifyAst trim g_zero fileName f) ch s = Ok (ch, s)).
  { intros ty v ch fl -> Hall. apply mapM_id. apply Forall_forall.
    intros c Hc. apply IH.
    - rewrite forallb_forall in Hall. apply Hall. by apply list_elem_of_In.
    - pose proof (height_child ty v ch fl c Hc). lia. }
  destruct n as [ty v ch fl].
  cbn [modifyAst]. unfold modifyAstBody. cbn [t].
  destruct ty; cbn [untouched] in Hun; try discriminate.
  all: try (unfold bind; cbn [children];
            rewrite (Hch _ v ch fl eq_refl Hun); reflexivity).
  - (* a name *)
    unfold bind, lookupImportedVar, bind, get, ret. cbn [value].
    apply bool_decide_eq_true in Hun. by rewrite Hun.
  - (* a member expression *)
    destruct ch as [|c0 [|c1 ch]]; try discriminate.
    apply andb_true_iff in Hun as [Hno Hall].
    unfold modifyMemberExpression, bind at 1. cbn [children].
    rewrite (Hch _ v _ fl eq_refl Hall).
    unfold elemAt, bind, ret. cbn [set_children children lookup list_lookup].
    simpl lookup.
    destruct (bool_decide (value c0 = "module")); [| reflexivity].
    simpl in Hno. apply negb_true_iff in Hno. by rewrite Hno.
  - (* a call *)
    destruct ch as [|c0 [|c1 ch]]; try discriminate.
    apply andb_true_iff in Hun as [Hno Hall].
    unfold modifyFunctionCall, bind at 1. cbn [children].
    rewrite (Hch _ v _ fl eq_refl Hall).
    unfold elemAt, bind, ret. cbn [lookup list_lookup]. simpl lookup.
    apply negb_true_iff in Hno.
    destruct (bool_decide (value c0 = "require")); [discriminate | reflexivity].
Qed.

(** The transform leaves alone the code that has no import, export,
    [require], [module.exports] or imported name in it: such a tree is
    returned as it is, with the dependency list and the bindings
    unchanged, and a file made of such statements becomes the module
    factory of the file around the same statements, with no dependency. *)
Theorem transform_leaves_plain_code (fuel : nat) :
  (∀ (n : astNode) (s : transformState),
     untouched (importedVars (ctx s)) n = true →
     (height n ≤ fuel)%nat →
     modifyAst trim g_zero fileName fuel n s = Ok (n, s)) ∧
  (∀ statements : list astNode,
     forallb (untouched ∅) statements = true →
     Forall (λ st, height st ≤ fuel)%nat statements →
     transformIntoModule trim g_zero fileName (S fuel)
       (makeNode g_PROGRAM_STATEMENT "" statements)
     = Ok (moduleFactory fileName statements, [])).
Proof.
  split; [apply modifyAst_untouched |].
  intros statements Hun Hh.
  assert (Hall : Forall (λ st, modifyAst trim g_zero fileName fuel st
                                 (TransformState [] (Context ∅ None))
                               = Ok (st, TransformState [] (Context ∅ None)))
                   statements).
  { apply Forall_forall. intros st Hst. apply modifyAst_untouched.
    - rewrite forallb_forall in Hun. apply Hun. by apply list_elem_of_In.
    - by apply (proj1 (Forall_forall _ _) Hh). }
  unfold transformIntoModule. cbn [modifyAst]. unfold modifyAstBody.
  cbn [t makeNode]. unfold modifyProgram.
  change (children (makeNode g_PROGRAM_STATEMENT "" statements))
    with statements.
  unfold bind at 1. rewrite (mapM_id _ _ _ Hall).
  unfold bind at 1.
  change (children (set_children (makeNode g_PROGRAM_STATEMENT "" statements)
                      statements)) with statements.
  rewrite (forRange_collect_id _ _ _ _ Hall). reflexivity.
Qed.

End Untouched.

Lemma transform_leaves_plain_code_witness :
  Forall (λ st, modifyAst trimQuotes (g_OTHER 0) "src/index.js" 6 st
                  (TransformState [] (Context ∅ None))
                = Ok (st, TransformState [] (Context ∅ None))) plainStatements ∧
  transformIntoModule trimQuotes (g_OTHER 0) "src/index.js" (S 6)
    (makeNode g_PROGRAM_STATEMENT "" plainStatements)
  = Ok (moduleFactory "src/index.js" plainStatements, []).
Proof.
  destruct (transform_leaves_plain_code trimQuotes (g_OTHER 0) "src/index.js" 6)
    as [Hnode Hprogram].
  split.
  - repeat constructor; apply Hnode; try reflexivity; vm_compute; lia.
  - apply Hprogram; [reflexivity |].
    repeat constructor; vm_compute; lia.
Defined.


(** ** The module transform: what it keeps *)

Section Keeps.

Variable trim : string → string.
Variable g_zero : grammarType.
Variable fileName : string.

Lemma transformGrows_refl (s : transformState) :
  transformGrows trim fileName s s.
Proof.
  split; [| done]. exists []. split; [by rewrite app_nil_r | constructor].
Qed.

Lemma transformGrows_trans (s1 s2 s3 : transformState) :
  transformGrows trim fileName s1 s2 → transformGrows trim fileName s2 s3 →
  transformGrows trim fileName s1 s3.
Proof.
  intros [(l1 & E1 & H1) [D1 P1]] [(l2 & E2 & H2) [D2 P2]].
  split; [| split; [set_solver | congruence]].
  exists (l1 ++ l2). split; [by rewrite E2, E1, app_assoc |].
  by apply Forall_app.
Qed.

Lemma keeps_ret {A} (a : A) (Q : A → Prop) :
  Q a → keeps trim fileName (ret a) Q.
Proof.
  intros Ha s a' s' [= <- <-]. split; [apply transformGrows_refl | done].
Qed.

Lemma keeps_bind {A B} (c : T A) (k : A → T B) (Q : A → Prop)
    (Q' : B → Prop) :
  keeps trim fileName c Q →
  (∀ a, Q a → keeps trim fileName (k a) Q') →
  keeps trim fileName (bind c k) Q'.
Proof.
  intros Hc Hk s b s' H. apply bind_Ok in H as (a & s1 & H1 & H2).
  apply Hc in H1 as [G1 Ha]. apply (Hk a Ha) in H2 as [G2 Hb].
  split; [by eapply transformGrows_trans | done].
Qed.

Lemma keeps_any {A} (c : T A) (Q : A → Prop) :
  keeps trim fileName c Q → keeps trim fileName c (λ _, True).
Proof. intros Hc s a s' H. by apply Hc in H as [G _]. Qed.

Lemma keeps_elemAt {A} (l : list A) (i : nat) :
  keeps trim fileName (elemAt l i) (λ _, True).
Proof.
  intros s a s' H. unfold elemAt in H. destruct (l !! i); [| done].
  injection H as <- <-. split; [apply transformGrows_refl | done].
Qed.

Lemma keeps_resolvePath (importPath : string) :
  keeps trim fileName (resolvePath trim fileName importPath)
    (resolvedFrom trim fileName).
Proof.
  intros s r s' H. unfold resolvePath, orPanic in H.
  destruct (resolveES6ImportPath trim importPath fileName) eqn:E; [| done].
  injection H as <- <-. split; [apply transformGrows_refl | by exists importPath].
Qed.

Lemma keeps_addFileImport (r : string) :
  resolvedFrom trim fileName r →
  keeps trim fileName (addFileImport r) (λ _, True).
Proof.
  intros Hr s a s' [= <- <-]. split; [| done].
  split; [| done]. exists [r]. split; [done | by constructor].
Qed.

Lemma keeps_setImportedVar (k : string) (v : astNode) :
  keeps trim fileName (setImportedVar k v) (λ _, True).
Proof.
  intros s a s' [= <- <-]. split; [| done].
  split; [exists []; split; [by rewrite app_nil_r | constructor] |].
  split; [| done]. simpl. set_solver.
Qed.

Lemma keeps_lookupImportedVar (k : string) :
  keeps trim fileName (lookupImportedVar k) (λ _, True).
Proof.
  intros s a s' [= <- <-]. split; [apply transformGrows_refl | done].
Qed.

Lemma keeps_forRange {A B} (l : list A) (body : B → A → T B) (acc : B) :
  (∀ acc x, x ∈ l → keeps trim fileName (body acc x) (λ _, True)) →
  keeps trim fileName (forRange l body acc) (λ _, True).
Proof.
  revert acc. induction l as [|x l IH]; intros acc Hbody.
  - by apply keeps_ret.
  - cbn [forRange]. eapply keeps_bind; [apply Hbody; set_solver |].
    intros acc' _. apply IH. intros acc0 y Hy. apply Hbody. set_solver.
Qed.

Lemma keeps_mapM (f : astNode → T astNode) (l : list astNode) :
  (∀ x, x ∈ l → keeps trim fileName (f x) (λ _, True)) →
  keeps trim fileName (mapM f l) (λ _, True).
Proof.
  intros Hf. unfold mapM. apply keeps_forRange. intros acc x Hx.
  eapply keeps_bind; [by apply Hf |]. intros y _. by apply keeps_ret.
Qed.

(** Runs through a function of the transform, step by step. *)
Ltac keeps_step :=
  first
    [ apply (keeps_ret _ (λ _, True) I)
    | match goal with
      | IH : ∀ n, keeps _ _ (modifyAst _ _ _ _ n) _ |- _ => apply IH
      end
    | apply keeps_elemAt
    | apply keeps_lookupImportedVar
    | apply keeps_setImportedVar
    | apply keeps_addFileImport; assumption
    | apply keeps_resolvePath
    | eapply keeps_any; apply keeps_resolvePath
    | apply keeps_mapM; intros; auto
    | apply keeps_forRange; intros
    | eapply keeps_bind; [| intros ? ?]
    | match goal with
      | |- keeps _ _ (if ?b then _ else _) _ => destruct b
      | |- keeps _ _ (match ?x with _ => _ end) _ => destruct x
      end ].

(** Whatever the tree, a run of the transform only adds to the dependency
    list, at its end, paths that the resolver gave for this file, and
    removes no imported binding. *)
Theorem transform_only_adds_resolved_paths (fuel : nat) :
  ∀ (n n' : astNode) (s s' : transformState),
    modifyAst trim g_zero fileName fuel n s = Ok (n', s') →
    transformGrows trim fileName s s'.
Proof.
  assert (H : ∀ n, keeps trim fileName
                     (modifyAst trim g_zero fileName fuel n) (λ _, True)).
  2:{ intros n n' s s' Hrun. by apply H in Hrun as [G _]. }
  induction fuel as [|f IH]; intros n; [by intros s a s' Hrun |].
  cbn [modifyAst]. unfold modifyAstBody.
  destruct (t n).
  all: unfold modifyMemberExpression, modifyFunctionCall, modifyExport,
         modifyProgram, modifyImport.
  all: repeat keeps_step.
Qed.

End Keeps.

Lemma transform_only_adds_resolved_paths_witness :
  transformGrows trimQuotes "src/index.js"
    (TransformState [] (Context ∅ None))
    (TransformState ([] ++ ["src/m.js"]) (Context ∅ None)).
Proof.
  apply (transform_only_adds_resolved_paths trimQuotes (g_OTHER 0)
           "src/index.js" 3 (requireCall "'./m.js'")
           (defaultExportOf "src/m.js")).
  vm_compute. reflexivity.
Defined.

Lemma forRange_collect_length {E St A B} (f : A → M E St B) (l : list A)
    (acc acc' : list B) (s s' : St) :
  forRange l (λ acc x, y <- f x ;; ret (acc ++ [y])) acc s = Ok (acc', s') →
  ∃ ys, acc' = acc ++ ys ∧ length ys = length l.
Proof.
  revert acc s. induction l as [|x l IH]; intros acc s H.
  - injection H as <- <-. exists []. by rewrite app_nil_r.
  - cbn [forRange] in H. apply bind_Ok in H as (acc1 & s1 & H1 & H2).
    apply bind_Ok in H1 as (y & s2 & _ & Hret). injection Hret as <- <-.
    apply IH in H2 as (ys & -> & Hlen). exists (y :: ys).
    split; [by rewrite <- app_assoc | simpl; lia].
Qed.

(** Whatever the statements of a file, what the transform makes of its
    program is the module factory of the file, registered in [moduleFns]
    under the name CreateVarNameFromPath gives the file, the name under
    which the tail of the bundle invokes it, around one statement for each
    statement of the file. *)
Theorem program_becomes_module_factory (trim : string → string)
    (g_zero : grammarType) (fileName : string) (fuel : nat)
    (v : string) (statements : list astNode) (fl : Z)
    (res : astNode) (imports : list string) :
  transformIntoModule trim g_zero fileName fuel
    (AstNode g_PROGRAM_STATEMENT v statements fl) = Ok (res, imports) →
  ∃ statements',
    length statements' = length statements ∧
    res = moduleFactory fileName statements'.
Proof.
  unfold transformIntoModule. intros H.
  destruct fuel as [|f]; [done |].
  cbn [modifyAst] in H. unfold modifyAstBody in H. cbn [t] in H.
  destruct (modifyProgram fileName (modifyAst trim g_zero fileName f) _ _)
    as [[res' s']| |] eqn:Hrun; [| done..].
  injection H as <- <-.
  unfold modifyProgram in Hrun. cbn [children] in Hrun.
  apply bind_Ok in Hrun as (ch' & s1 & Hpass1 & Hrun).
  apply bind_Ok in Hrun as (sts & s2 & Hpass2 & Hret).
  injection Hret as <- <-.
  unfold mapM in Hpass1.
  apply forRange_collect_length in Hpass1 as (ys & -> & Hlen1).
  cbn [set_children children app] in Hpass2.
  apply forRange_collect_length in Hpass2 as (zs & -> & Hlen2).
  exists zs. split; [congruence | reflexivity].
Qed.

Lemma program_becomes_module_factory_witness :
  ∃ statements',
    length statements' = length (children requireTwiceProgram) ∧
    moduleFactory "src/index.js"
      [makeNode g_FUNCTION_DECLARATION "f"
         [makeNode g_FUNCTION_PARAMETERS "" [];
          makeNode g_BLOCK_STATEMENT ""
            [makeNode g_EXPRESSION_STATEMENT "" [defaultExportOf "src/m.js"];
             makeNode g_EXPRESSION_STATEMENT "" [defaultExportOf "src/m.js"]]]]
    = moduleFactory "src/index.js" statements'.
Proof.
  apply (program_becomes_module_factory trimQuotes (g_OTHER 0) "src/index.js"
           20 "" (children requireTwiceProgram) 0 _ ["src/m.js"; "src/m.js"]).
  vm_compute. reflexivity.
Defined.

(** ** The module transform: import statements *)

Section Imports.

Variable trim : string → string.
Variable g_zero : grammarType.
Variable fileName : string.

Lemma importVars_untouched (m : gmap string astNode)
    (vars : list (string * string)) :
  forallb (untouched m) (importVar <$> vars) = true.
Proof.
  induction vars as [|v vars IH]; [done |].
  cbn [fmap list_fmap forallb]. fold (fmap (M:=list) importVar vars).
  rewrite IH. reflexivity.
Qed.

Lemma importVars_height (vars : list (string * string)) :
  (list_max (map height (importVar <$> vars)) ≤ 2)%nat.
Proof.
  induction vars as [|v vars IH]; [simpl; lia |].
  cbn [fmap list_fmap map]. fold (fmap (M:=list) importVar vars).
  change (list_max (height (importVar v) :: map height (importVar <$> vars)))
    with (Nat.max 2 (list_max (map height (importVar <$> vars)))).
  lia.
Qed.

Lemma bindVars_run (r : string) (vars : list (string * string))
    (s : transformState) :
  forRange (importVar <$> vars) (λ _ v,
    alias <- elemAt (children v) 1 ;;
    if bool_decide (Ext r = ".js") then
      property <- elemAt (children v) 0 ;;
      let moduleName := makeNode g_NAME (CreateVarNameFromPath r) [] in
      let modulesObj := makeNode g_NAME "modules" [] in
      let moduleMember :=
        makeNode g_MEMBER_EXPRESSION "" [modulesObj; moduleName] in
      let member := makeNode g_MEMBER_EXPRESSION "" [moduleMember; property] in
      setImportedVar (value alias) member
    else
      let filePath := "'" +:+ CreateVarNameFromPath r +:+ Ext r +:+ "'" in
      let fileURL := makeNode g_STRING_LITERAL filePath [] in
      setImportedVar (value alias) fileURL) tt s
  = Ok (tt, TransformState (fileImports s)
              (Context (fold_left (λ m v, <[v.2 := importedValue r v.1]> m)
                          vars (importedVars (ctx s)))
                 (parent (ctx s)))).
Proof.
  revert s. induction vars as [|[name alias] vars IH]; intros s.
  - destruct s as [fi [m up]]. reflexivity.
  - cbn [fmap list_fmap forRange]. unfold bind at 1.
    unfold importedValue, assetName in *.
    destruct (bool_decide (Ext r = ".js")) eqn:E.
    + unfold elemAt, bind, ret, setImportedVar, modify. cbn.
      rewrite IH. reflexivity.
    + unfold elemAt, bind, ret, setImportedVar, modify. cbn.
      rewrite IH. cbn. by rewrite !append_assoc.
Qed.

(** An import statement becomes an empty expression; the resolved path of
    its module joins the dependency list once; the alias of [* as] is bound
    to the bare name of the module, and each imported variable to the
    member [modules.<module>.<name>] when the file is a module, and to the
    name of its copy in the directory of the bundle when it is an asset. *)
Theorem import_statement_binds_its_variables (fuel : nat)
    (vars : list (string * string)) (all path r : string)
    (s : transformState) :
  resolveES6ImportPath trim path fileName = Some r →
  modifyAst trim g_zero fileName (4 + fuel) (importStatement vars all path) s
  = Ok (makeNode g_EMPTY_EXPRESSION "" [],
        TransformState (fileImports s ++ [r])
          (Context (bindImports r vars all (importedVars (ctx s)))
             (parent (ctx s)))).
Proof.
  intros Hres.
  change (4 + fuel) with (S (3 + fuel)). cbn [modifyAst].
  unfold modifyAstBody, importStatement. cbn [t makeNode].
  unfold modifyImport. cbn [children]. unfold bind at 1.
  rewrite mapM_id.
  2:{ pose proof (importVars_height vars).
      repeat constructor; apply modifyAst_untouched;
        cbn [untouched height map list_max fold_right];
        first [apply importVars_untouched | reflexivity | lia]. }
  unfold elemAt at 1 2 3. cbn [set_children children lookup list_lookup].
  simpl lookup. unfold bind at 1 2 3. unfold ret at 1 2 3. cbn beta iota.
  cbn [children value].
  unfold bind at 1. unfold resolvePath, orPanic. rewrite Hres.
  unfold ret at 1. cbn beta iota.
  unfold bind at 1. unfold addFileImport at 1, modify at 1. cbn beta iota.
  unfold bind at 1.
  unfold bindImports.
  destruct (bool_decide (all ≠ "")).
  - unfold setImportedVar at 1, modify at 1. cbn beta iota.
    unfold bind at 1. rewrite bindVars_run. reflexivity.
  - unfold ret at 1. cbn beta iota.
    unfold bind at 1. rewrite bindVars_run. reflexivity.
Qed.

End Imports.

Lemma import_statement_binds_its_variables_witness :
  modifyAst trimQuotes (g_OTHER 0) "src/index.js" (4 + 0)
    (importStatement [("default", "logo"); ("size", "logoSize")] ""
       "'./logo.png'")
    (TransformState [] (Context ∅ None))
  = Ok (makeNode g_EMPTY_EXPRESSION "" [],
        TransformState ([] ++ ["src/logo.png"])
          (Context (bindImports "src/logo.png"
                      [("default", "logo"); ("size", "logoSize")] "" ∅)
             None)).
Proof.
  apply (import_statement_binds_its_variables trimQuotes (g_OTHER 0)
           "src/index.js" 0 [("default", "logo"); ("size", "logoSize")] ""
           "'./logo.png'" "src/logo.png" (TransformState [] (Context ∅ None))).
  reflexivity.
Defined.

(** ** A build: what it claims, writes and loads *)

Lemma claims_refl (w : world) : claims w w [].
Proof.
  split; [done |]. split; [constructor |].
  split; [intros q; split; [by intros []%elem_of_nil | by intros [? ?]] |].
  split; [by rewrite app_nil_r |].
  split; [exists []; by rewrite app_nil_r |].
  split; [by intros q []%elem_of_nil | done].
Qed.

Lemma claims_claimed (w w' : world) (order : list string) (q : string) :
  claims w w' order → claimed (Files w) q → claimed (Files w') q.
Proof.
  intros (_ & _ & Helem & _ & _ & _ & Hothers) Hq.
  destruct (decide (q ∈ order)) as [Hin|Hout].
  - by apply Helem in Hin as [? _].
  - unfold claimed in *. by rewrite (Hothers q Hout).
Qed.

Lemma claims_trans (w1 w2 w3 : world) (o1 o2 : list string) :
  claims w1 w2 o1 → claims w2 w3 o2 → claims w1 w3 (o1 ++ o2).
Proof.
  intros H12 H23.
  pose proof H12 as (Hf1 & Hn1 & He1 & Hb1 & (l1 & Hl1 & Hs1) & Hy1 & Ho1).
  pose proof H23 as (Hf2 & Hn2 & He2 & Hb2 & (l2 & Hl2 & Hs2) & Hy2 & Ho2).
  assert (Hdisj : ∀ q, q ∈ o1 → q ∉ o2).
  { intros q Hq1 Hq2. apply He1 in Hq1 as [Hc _]. apply He2 in Hq2 as [_ Hn].
    done. }
  assert (Hkeep : ∀ q, q ∈ o1 → Files w3 !! q = Files w2 !! q).
  { intros q Hq. apply Ho2. by apply Hdisj. }
  split; [congruence |].
  split; [apply NoDup_app; split; [done | split; [done | done]] |].
  split.
  { intros q. rewrite elem_of_app. split.
    - intros [Hq|Hq].
      + apply He1 in Hq as Hq'. destruct Hq' as [Hc Hn]. split; [| done].
        by eapply claims_claimed.
      + apply He2 in Hq as [Hc Hn]. split; [done |].
        intros Hc1. apply Hn. by eapply claims_claimed.
    - intros [Hc Hn].
      destruct (claimed_dec (Files w2) q) as [Hc2|Hn2'].
      + left. by apply He1.
      + right. by apply He2. }
  split.
  { rewrite Hb2, Hb1, fmap_app, concat_app, <- app_assoc. do 2 f_equal.
    f_equal. apply Forall_fmap_ext_1, Forall_forall. intros q Hq.
    unfold fragmentOf. by rewrite Hkeep. }
  split.
  { exists (l1 ++ l2). split; [by rewrite Hl2, Hl1, app_assoc |].
    by apply sublist_app. }
  split.
  { intros q [Hq|Hq]%elem_of_app.
    - destruct (Hy1 q Hq) as (e & st & He & Hst & Ht).
      exists e, st. by rewrite Hkeep, Hf2.
    - by apply Hy2. }
  intros q Hq. rewrite not_elem_of_app in Hq. destruct Hq as [Hq1 Hq2].
  by rewrite Ho2, Ho1.
Qed.

(** The claim of one file. *)
Lemma claims_one (p : string) (st : osFile) (e : fileCache) (w w' : world)
    (l : list string) :
  files w' = files w →
  files w !! p = Some st →
  ¬ claimed (Files w) p →
  Files w' = <[p := e]> (Files w) →
  IsReachable e = true →
  LastModTime e = modTime st →
  bundle w' = bundle w ++ Data e →
  loaded w' = loaded w ++ l → sublist l [p] →
  claims w w' [p].
Proof.
  intros Hf Hst Hnot HF Hr Ht Hb Hl Hsub.
  split; [done |]. split; [apply NoDup_singleton |].
  split.
  { intros q. rewrite list_elem_of_singleton, HF. split.
    - intros ->. split; [| done]. exists e. by rewrite lookup_insert_eq.
    - intros [(e' & He' & Hr') Hn]. destruct (decide (q = p)) as [|Hne]; [done |].
      rewrite lookup_insert_ne in He' by done. exfalso. apply Hn. by exists e'. }
  split.
  { rewrite Hb. simpl. unfold fragmentOf. rewrite HF, lookup_insert_eq. simpl.
    by rewrite app_nil_r. }
  split; [by exists l |].
  split.
  { intros q ->%list_elem_of_singleton. exists e, st.
    by rewrite HF, lookup_insert_eq, Hf. }
  intros q Hq%not_elem_of_cons. destruct Hq as [Hq _].
  by rewrite HF, lookup_insert_ne.
Qed.

Section BuildLedger.

Variable LoadFile :
  list byte → string → outcome Empty_set (list byte * list string + LoaderError).
Variable bundleDir : string.

Ltac one_claim l :=
  match goal with
  | Hst : files ?w !! ?p = Some ?st |- claims ?w _ _ =>
      eapply (claims_one p st _ w _ l);
      first [ done
            | simpl; by rewrite app_nil_r
            | apply sublist_nil_l
            | reflexivity ]
  end.

(** The claim step claims the file, or nothing. *)
Lemma claimStep_claims (p : string) (w : world) :
  match claimStep LoadFile bundleDir p w with
  | Over e w' =>
      ∃ order, claims w w' order ∧
               (e = None → claimed (Files w') p ∧ order = [])
  | Follow fileImports w1 =>
      claims w w1 [p] ∧ importsOf (Files w1) p = fileImports
  | _ => True
  end.
Proof.
  unfold claimStep.
  destruct (files w !! p) as [st|] eqn:Hst.
  2:{ exists []. split; [apply claims_refl | done]. }
  assert (Hmiss : ¬ claimed (Files w) p →
    match afterMiss p st (processFile LoadFile bundleDir p st w) with
    | Over e w' =>
        ∃ order, claims w w' order ∧
                 (e = None → claimed (Files w') p ∧ order = [])
    | Follow fileImports w1 =>
        claims w w1 [p] ∧ importsOf (Files w1) p = fileImports
    | _ => True
    end).
  { intros Hnot. unfold afterMiss, processFile.
    case_bool_decide.
    - destruct (content st) as [src|].
      + destruct (LoadFile src p) as [[[data imports]|e]|v|]; [| | done..].
        * split; [one_claim [p] |].
          unfold importsOf. simpl. by rewrite lookup_insert_eq.
        * exists [p]. split; [one_claim [p] | done].
      + exists [p]. split; [one_claim (@nil string) | done].
    - split.
      + destruct (files w !! p ≫= content); one_claim (@nil string).
      + unfold importsOf. simpl. by rewrite lookup_insert_eq. }
  destruct (Files w !! p) as [cf|] eqn:Hcf.
  - destruct (IsReachable cf) eqn:Hr.
    { exists []. split; [apply claims_refl |]. intros _.
      split; [by exists cf | done]. }
    assert (¬ claimed (Files w) p) as Hnot.
    { intros (e & He & Hre). congruence. }
    case_bool_decide as Htime; [| by apply Hmiss].
    split; [one_claim (@nil string) |].
    unfold importsOf. simpl. by rewrite lookup_insert_eq.
  - apply Hmiss. intros (e & He & _). congruence.
Qed.

Lemma firstError_None (errs : list (option error)) :
  firstError errs = None → Forall (λ e, e = None) errs.
Proof.
  induction errs as [|[e|] errs IH]; [constructor | done |].
  intros H. constructor; [done | by apply IH].
Qed.

(** Claimed imports stay claimed, and the dependency list of a claimed
    file stays what it is, while other files are claimed. *)
Lemma importsClaimed_kept (w w' : world) (order : list string) (q : string) :
  claims w w' order → claimed (Files w) q →
  importsClaimed (Files w) q → importsClaimed (Files w') q.
Proof.
  intros Hc Hq Himp x Hx.
  pose proof Hc as (_ & _ & Helem & _ & _ & _ & Hothers).
  assert (Hout : q ∉ order).
  { intros Hin. apply Helem in Hin as [_ Hn]. done. }
  unfold importsOf in Hx. rewrite (Hothers q Hout) in Hx.
  eapply claims_claimed; [exact Hc |]. by apply Himp.
Qed.

(** The calls on a list of files, one after the other. *)
Lemma runsCollect_claims (l : list string) (w : world)
    (errs : list (option error)) (w' : world) :
  runsCollect claimsClosed l w errs w' →
  ∃ order, claims w w' order ∧
    (firstError errs = None →
     (∀ x, x ∈ l → claimed (Files w') x) ∧
     ∀ q, q ∈ order → importsClaimed (Files w') q).
Proof.
  induction 1 as [w | x l w b w1 bs w' (o1 & Hc1 & Hclosed1) _
                    (o2 & Hc2 & Hclosed2)].
  - exists []. split; [apply claims_refl |]. intros _.
    split; [by intros x []%elem_of_nil | by intros q []%elem_of_nil].
  - exists (o1 ++ o2). split; [by eapply claims_trans |].
    intros Herr. destruct b as [e|]; [done |]. cbn [firstError] in Herr.
    destruct (Hclosed1 eq_refl) as [Hx Himp1].
    destruct (Hclosed2 Herr) as [Hl Himp2].
    split.
    + intros y [-> | Hy]%elem_of_cons; [| by apply Hl].
      by eapply claims_claimed.
    + intros q [Hq|Hq]%elem_of_app; [| by apply Himp2].
      eapply importsClaimed_kept; [exact Hc2 | | by apply Himp1].
      destruct Hc1 as (_ & _ & Helem & _). by apply Helem in Hq as [? _].
Qed.

(** A call of [addFileToBundle]: the files it claims, and the closure of
    their imports when it sends no error. *)
Lemma addFileToBundle_claims (fuel : nat) (p : string) (w : world)
    (e : option error) (w' : world) :
  addFileToBundle LoadFile bundleDir fuel p w = Ok (e, w') →
  claimsClosed p w e w'.
Proof.
  revert fuel p w e w'. apply (addFileToBundle_run LoadFile bundleDir).
  - intros p w e w' Hstep.
    pose proof (claimStep_claims p w) as H. rewrite Hstep in H.
    destruct H as (order & Hc & Hnone). exists order. split; [done |].
    intros He. destruct (Hnone He) as [Hp ->].
    split; [done | by intros q []%elem_of_nil].
  - intros p w imports w1 errs w' Hstep Hruns.
    pose proof (claimStep_claims p w) as H. rewrite Hstep in H.
    destruct H as [Hc1 Himports].
    apply runsCollect_claims in Hruns as (o & Hc2 & Hclosed).
    exists ([p] ++ o). split; [by eapply claims_trans |].
    intros Herr. destruct (Hclosed Herr) as [Hl Himp].
    assert (Hp1 : claimed (Files w1) p).
    { destruct Hc1 as (_ & _ & Helem & _).
      apply (Helem p). apply list_elem_of_here. }
    assert (Hout : p ∉ o).
    { intros Hin. destruct Hc2 as (_ & _ & Helem & _).
      by apply Helem in Hin as [_ Hn]. }
    split; [by eapply claims_claimed |].
    intros q [->%list_elem_of_singleton | Hq]%elem_of_app; [| by apply Himp].
    intros x Hx. apply Hl.
    destruct Hc2 as (_ & _ & _ & _ & _ & _ & Hothers).
    unfold importsOf in Hx, Himports. rewrite (Hothers p Hout) in Hx.
    by rewrite Himports in Hx.
Qed.

(** What a build is made of. *)
Lemma createBundle_Ok (fuel : nat) (entry : string) (w w' : world) :
  createBundle LoadFile bundleDir fuel entry w = Ok (tt, w') →
  ∃ e w0 tail s,
    addFileToBundle LoadFile bundleDir fuel entry (startOfBuild w)
    = Ok (e, w0) ∧
    getJsBundleFileTail (Files w0) fuel entry = Ok (tail, s) ∧
    w' = endOfBuild e tail s w0.
Proof.
  unfold createBundle, setFiles, sfWrite, modify.
  unfold bind at 1. unfold bind at 1. unfold bind at 1.
  cbn [files Files bundle copied printed loaded app].
  unfold bind at 1. fold (startOfBuild w).
  destruct (addFileToBundle LoadFile bundleDir fuel entry (startOfBuild w))
    as [[e w0]| |]; [| intros; discriminate..].
  unfold bind at 1, get.
  destruct (getJsBundleFileTail (Files w0) fuel entry) as [[tail s]| |]
    eqn:Htail; [| intros; discriminate..].
  unfold bind at 1. rewrite forRange_print.
  unfold bind at 1. unfold print, modify. intros H.
  exists e, w0, tail, s. split; [done |]. split; [done |].
  unfold endOfBuild. simpl in H.
  destruct e; simpl in *; injection H as <-; by rewrite <- app_assoc.
Qed.

Lemma startOfBuild_unclaimed (w : world) (q : string) :
  ¬ claimed (Files (startOfBuild w)) q.
Proof.
  intros (e & He & Hr). simpl in He. rewrite lookup_fmap in He.
  destruct (Files w !! q) as [e0|]; [| done].
  injection He as <-. done.
Qed.

End BuildLedger.

Section BuildTheorems.

Variable LoadFile :
  list byte → string → outcome Empty_set (list byte * list string + LoaderError).
Variable bundleDir : string.

(** What a build leaves, whether a file has failed or not.  The files it
    has claimed are written to the bundle once each, in the order of the
    claims, between the preamble and the tail; no file is loaded twice;
    and the cache entries of the files the build has not met are kept,
    marked unreachable. *)
Theorem build_writes_each_claimed_file_once (fuel : nat) (entry : string)
    (w w' : world) :
  createBundle LoadFile bundleDir fuel entry w = Ok (tt, w') →
  ∃ order tail s l,
    NoDup order ∧
    (∀ q, q ∈ order ↔ claimed (Files w') q) ∧
    getJsBundleFileTail (Files w') fuel entry = Ok (tail, s) ∧
    bundle w' = preamble ++ concat (fragmentOf (Files w') <$> order) ++ tail ∧
    loaded w' = loaded w ++ l ∧ sublist l order ∧
    (∀ q, q ∉ order → Files w' !! q = markUnreachable <$> Files w !! q).
Proof.
  intros H. apply createBundle_Ok in H as (e & w0 & tail & s & Hadd & Htail & ->).
  apply addFileToBundle_claims in Hadd as (order & Hc & _).
  destruct Hc as (Hf & Hn & Helem & Hb & (l & Hl & Hsub) & Hsync & Hothers).
  exists order, tail, s, l. cbn [endOfBuild Files bundle loaded].
  split; [done |].
  split.
  { intros q. rewrite Helem. split; [by intros [? _] |].
    intros Hq. split; [done | apply startOfBuild_unclaimed]. }
  split; [done |].
  split; [by rewrite Hb, <- app_assoc |].
  split; [done |]. split; [done |].
  intros q Hq. rewrite (Hothers q Hq). simpl. by rewrite lookup_fmap.
Qed.

(** A build that ends without error is complete: the entry file is
    claimed, every import of a claimed file is claimed, and each module
    the tail invokes is a claimed file, whose fragment stands in the
    bundle, before the tail: the bundle holds the fragments of the claimed
    files, once each. *)
Theorem successful_build_is_complete (fuel : nat) (entry : string)
    (w w' : world) :
  createBundle LoadFile bundleDir fuel entry w = Ok (tt, w') →
  last (printed w') = Some BuildFinished →
  ∃ order tail s,
    NoDup order ∧
    (∀ q, q ∈ order ↔ claimed (Files w') q) ∧
    getJsBundleFileTail (Files w') fuel entry = Ok (tail, s) ∧
    bundle w' = preamble ++ concat (fragmentOf (Files w') <$> order) ++ tail ∧
    claimed (Files w') entry ∧
    (∀ q x, claimed (Files w') q → x ∈ importsOf (Files w') q →
            claimed (Files w') x) ∧
    (∀ N, N ∈ moduleOrder s →
          ∃ f, N = moduleNameOf f ∧ isJs f ∧ claimed (Files w') f).
Proof.
  intros H Hlast.
  apply createBundle_Ok in H as (e & w0 & tail & s & Hadd & Htail & ->).
  assert (He : e = None).
  { unfold endOfBuild in Hlast. cbn [printed] in Hlast.
    rewrite app_assoc, last_snoc in Hlast. by destruct e. }
  subst e.
  apply addFileToBundle_claims in Hadd as (order & Hc & Hclosed).
  destruct (Hclosed eq_refl) as [Hentry Himports].
  destruct Hc as (Hf & Hn & Helem & Hb & _).
  assert (Hin : ∀ q, claimed (Files w0) q → q ∈ order).
  { intros q Hq. apply Helem. split; [done | apply startOfBuild_unclaimed]. }
  assert (Hiff : ∀ q, q ∈ order ↔ claimed (Files w0) q).
  { intros q. split; [| apply Hin]. intros Hq. by apply Helem in Hq as [? _]. }
  exists order, tail, s. cbn [endOfBuild Files bundle].
  split; [done |].
  split; [done |].
  split; [done |].
  split; [by rewrite Hb, <- app_assoc |].
  split; [done |].
  split.
  { intros q x Hq Hx. apply (Himports q); [by apply Hin | done]. }
  intros N HN.
  unfold getJsBundleFileTail in Htail.
  destruct (createImportTree (Files w0) fuel entry [] (TreeState [] []))
    as [[[] s']| |] eqn:Htree; [| done..].
  injection Htail as _ <-.
  destruct (createImportTree_postOrder (Files w0) entry fuel entry []
              (TreeState [] []) s' Htree) as [Hpost _].
  { intros Hjs. split; [done |]. split; [by constructor | constructor]. }
  apply list_elem_of_lookup in HN as [i Hi].
  destruct (Hpost ltac:(by intros ? ? [=]) i N Hi) as (f & <- & Hjs & Hreach & _).
  exists f. split; [done |]. split; [done |].
  clear -Hreach Hentry Himports Hin.
  induction Hreach as [|f g h (_ & _ & Hg) _ IH]; [done |].
  apply IH. by apply (Himports f (Hin f Hentry)).
Qed.

(** After a build the watcher rests until the disk changes: a round of
    checkFiles builds again exactly when a file claimed by the last build
    has another modification time on disk; files that have been deleted,
    files that are new, and files the last build has not met start
    nothing. *)
Theorem watcher_rebuilds_on_touched_files (fuel : nat) (entry : string)
    (w w' : world) :
  createBundle LoadFile bundleDir fuel entry w = Ok (tt, w') →
  checkFiles LoadFile bundleDir fuel entry w' = Ok (tt, w') ∧
  ∀ disk,
    (touched w' disk →
     checkFiles LoadFile bundleDir fuel entry (withDisk disk w')
     = createBundle LoadFile bundleDir fuel entry (withDisk disk w')) ∧
    (¬ touched w' disk →
     checkFiles LoadFile bundleDir fuel entry (withDisk disk w')
     = Ok (tt, withDisk disk w')).
Proof.
  intros H. apply createBundle_Ok in H as (e & w0 & tail & s & Hadd & Htail & ->).
  apply addFileToBundle_claims in Hadd as (order & Hc & _).
  destruct Hc as (Hf & _ & Helem & _ & _ & Hsync & _).
  set (w' := endOfBuild e tail s w0).
  assert (Hsynced : ∀ q file, Files w' !! q = Some file →
    IsReachable file = true →
    ∃ st, files w' !! q = Some st ∧ LastModTime file = modTime st).
  { intros q file Hq Hr.
    destruct (Hsync q) as (e' & st & He' & Hst & Ht).
    { apply Helem. split; [by exists file | apply startOfBuild_unclaimed]. }
    exists st. simpl in Hq. rewrite He' in Hq. injection Hq as <-. done. }
  assert (Hround : ∀ disk,
    existsb (λ kv, changedOnDisk (withDisk disk w') kv.1 kv.2)
      (map_to_list (Files (withDisk disk w'))) = true
    ↔ touched w' disk).
  { intros disk. rewrite existsb_exists. split.
    - intros ([q file] & Hin & Hch).
      apply list_elem_of_In, elem_of_map_to_list in Hin.
      unfold changedOnDisk in Hch. cbn [fst snd files withDisk] in Hch.
      apply andb_true_iff in Hch as [Hr Hch].
      destruct (disk !! q) as [st'|] eqn:Hdisk; [| done].
      apply bool_decide_eq_true in Hch.
      destruct (Hsynced q file Hin Hr) as (st & Hst & Ht).
      exists q, st, st'. split; [by exists file |]. split; [done |].
      split; [done | congruence].
    - intros (q & st & st' & (file & Hq & Hr) & Hst & Hdisk & Hne).
      exists (q, file). split.
      + apply list_elem_of_In, elem_of_map_to_list. exact Hq.
      + unfold changedOnDisk. cbn [fst snd files withDisk]. rewrite Hr, Hdisk.
        apply bool_decide_eq_true.
        destruct (Hsynced q file Hq Hr) as (st0 & Hst0 & Ht).
        rewrite Hst in Hst0. injection Hst0 as <-. congruence. }
  assert (Hsame : withDisk (files w') w' = w') by by destruct w'.
  assert (Hrest : ¬ touched w' (files w')).
  { intros (q & st & st' & _ & Hst & Hdisk & Hne). congruence. }
  split.
  - unfold checkFiles, bind, get.
    destruct (existsb _ (map_to_list (Files w'))) eqn:E; [| done].
    exfalso. apply Hrest. apply Hround. by rewrite Hsame.
  - intros disk. split; intros Ht; unfold checkFiles, bind, get.
    + apply Hround in Ht. by rewrite Ht.
    + destruct (existsb _ (map_to_list (Files (withDisk disk w')))) eqn:E;
        [| done].
      exfalso. apply Ht. by apply Hround.
Qed.

(** What the bundle file held before a build plays no part in it: the
    file is removed and created anew before anything else. *)
Lemma createBundle_withBundle (fuel : nat) (entry : string) (w : world)
    (previous : list byte) :
  createBundle LoadFile bundleDir fuel entry (withBundle previous w)
  = createBundle LoadFile bundleDir fuel entry w.
Proof. reflexivity. Qed.

Lemma createBundle_returns (fuel : nat) (entry : string) (w : world) :
  loaderReturns LoadFile w →
  size (files w) + size (Files w) < fuel →
  ∃ w', createBundle LoadFile bundleDir fuel entry w = Ok (tt, w').
Proof.
  intros Hret Hfuel.
  destruct (addFileToBundle_terminates LoadFile bundleDir fuel entry
              (startOfBuild w)) as (e & w0 & Hadd).
  { exact Hret. }
  { pose proof (size_unclaimed (startOfBuild w)). simpl in *. lia. }
  apply addFileToBundle_extends in Hadd as Hext.
  destruct Hext as [(Hf & _ & _ & _ & Hdom) _].
  destruct (createImportTree_terminates (Files w0) fuel entry []
              (TreeState [] [])) as [s Htree].
  { simpl. rewrite difference_empty_L.
    eapply Nat.le_lt_trans; [apply (subseteq_size _ _ Hdom) |].
    simpl. rewrite dom_fmap_L, size_union_alt, !size_dom.
    assert (Hsub : dom (files w) ∖ dom (Files w) ⊆ dom (files w))
      by set_solver.
    apply subseteq_size in Hsub. rewrite size_dom in Hsub. lia. }
  exists (endOfBuild e
            (String.list_byte_of_string
               (("var moduleOrder = [" +:+ Join (moduleOrder s) "," +:+ "];") +:+
                "moduleOrder.forEach((moduleName)=>modules[moduleName]=moduleFns[moduleName]())"))
            s w0).
  unfold createBundle, setFiles, sfWrite, modify.
  unfold bind at 1. unfold bind at 1. unfold bind at 1.
  cbn [files Files bundle copied printed loaded app].
  unfold bind at 1. fold (startOfBuild w). rewrite Hadd.
  unfold bind at 1, get. unfold getJsBundleFileTail. rewrite Htree.
  unfold bind at 1. rewrite forRange_print.
  unfold bind at 1. unfold print, modify. unfold endOfBuild. simpl.
  destruct e; simpl; by rewrite <- app_assoc.
Qed.

(** C1 (amended): a build returns when LoadFile returns on the files on
    disk.  Every build that returns, whether a file has failed or not, has
    removed the bundle file and written it anew: the bundle it leaves is
    the preamble, the fragments of the files it has claimed, once each,
    and the tail, and does not depend on what the file held before; the
    value addFileToBundle has sent only selects the line printed last.
    When LoadFile panics or does not return on the entry file, the build
    does not return either. *)
Theorem C1_every_build_rewrites_the_bundle (fuel : nat) (entry : string)
    (w : world) :
  (loaderReturns LoadFile w → size (files w) + size (Files w) < fuel →
   ∃ w', createBundle LoadFile bundleDir fuel entry w = Ok (tt, w')) ∧
  (∀ w',
     createBundle LoadFile bundleDir fuel entry w = Ok (tt, w') →
     ∃ e w0 order tail s,
       addFileToBundle LoadFile bundleDir fuel entry (startOfBuild w)
       = Ok (e, w0) ∧
       NoDup order ∧
       (∀ q, q ∈ order ↔ claimed (Files w') q) ∧
       getJsBundleFileTail (Files w') fuel entry = Ok (tail, s) ∧
       bundle w'
       = preamble ++ concat (fragmentOf (Files w') <$> order) ++ tail ∧
       last (printed w') = Some (verdict e) ∧
       ∀ previous,
         createBundle LoadFile bundleDir fuel entry (withBundle previous w)
         = Ok (tt, w')) ∧
  (∀ st src,
     files w !! entry = Some st → content st = Some src → isJs entry →
     (∀ cf, Files w !! entry = Some cf → LastModTime cf ≠ modTime st) →
     match LoadFile src entry with
     | Ok _ => True
     | Panic v =>
         ∀ fuel', createBundle LoadFile bundleDir (S fuel') entry w = Panic v
     | OutOfFuel =>
         ∀ fuel', createBundle LoadFile bundleDir (S fuel') entry w = OutOfFuel
     end).
Proof.
  split; [apply createBundle_returns |]. split.
  - intros w' H.
    pose proof H as Hsame.
    apply createBundle_Ok in H as (e & w0 & tail & s & Hadd & Htail & ->).
    exists e, w0.
    apply addFileToBundle_claims in Hadd as Hc.
    destruct Hc as (order & (Hf & Hn & Helem & Hb & _) & _).
    exists order, tail, s. cbn [endOfBuild Files bundle printed].
    split; [done |]. split; [done |].
    split.
    { intros q. rewrite Helem. split; [by intros [? _] |].
      intros Hq. split; [done | apply startOfBuild_unclaimed]. }
    split; [done |].
    split; [by rewrite Hb, <- app_assoc |].
    split; [by rewrite app_assoc, last_snoc |].
    intros previous. by rewrite createBundle_withBundle.
  - intros st src Hst Hsrc Hjs Htime.
    assert (Hstep : claimStep LoadFile bundleDir entry (startOfBuild w)
                    = afterMiss entry st
                        (processFile LoadFile bundleDir entry st
                           (startOfBuild w))).
    { unfold claimStep. cbn [startOfBuild files Files]. rewrite Hst.
      rewrite lookup_fmap.
      destruct (Files w !! entry) as [cf|] eqn:Hcf; [| done].
      cbn [fmap option_fmap option_map markUnreachable IsReachable LastModTime].
      by rewrite bool_decide_eq_false_2 by by apply Htime. }
    unfold processFile in Hstep. rewrite Hsrc in Hstep.
    rewrite (bool_decide_eq_true_2 (Ext entry = ".js")) in Hstep by done.
    destruct (LoadFile src entry) as [r|v|] eqn:Hload; [done | |];
      cbn [afterMiss] in Hstep; intros fuel';
      unfold createBundle, setFiles, sfWrite, modify;
      unfold bind at 1; unfold bind at 1; unfold bind at 1;
      cbn [files Files bundle copied printed loaded app];
      unfold bind at 1; fold (startOfBuild w);
      cbn [addFileToBundle];
      by rewrite addFileToBundleBody_claimStep, Hstep.
Qed.

End BuildTheorems.

Lemma build_writes_each_claimed_file_once_witness :
  ∃ order tail s l,
    NoDup order ∧
    (∀ q, q ∈ order
          ↔ claimed (Files (afterBuild sampleLoad 5 "index.js" sampleWorld)) q) ∧
    getJsBundleFileTail (Files (afterBuild sampleLoad 5 "index.js" sampleWorld))
      5 "index.js" = Ok (tail, s) ∧
    bundle (afterBuild sampleLoad 5 "index.js" sampleWorld)
    = preamble ++
      concat (fragmentOf (Files (afterBuild sampleLoad 5 "index.js" sampleWorld))
                <$> order) ++ tail ∧
    loaded (afterBuild sampleLoad 5 "index.js" sampleWorld)
    = loaded sampleWorld ++ l ∧
    sublist l order ∧
    (∀ q, q ∉ order →
          Files (afterBuild sampleLoad 5 "index.js" sampleWorld) !! q
          = markUnreachable <$> Files sampleWorld !! q).
Proof.
  apply (build_writes_each_claimed_file_once sampleLoad "build" 5 "index.js"
           sampleWorld (afterBuild sampleLoad 5 "index.js" sampleWorld)).
  vm_compute. reflexivity.
Defined.

Example sample_build :
  bundle (afterBuild sampleLoad 5 "index.js" sampleWorld)
  = preamble ++ bytes "index();" ++ bytes "lib();" ++
    bytes ("var moduleOrder = ['lib_js','index_js'];" +:+
           "moduleOrder.forEach((moduleName)=>modules[moduleName]=moduleFns[moduleName]())") ∧
  loaded (afterBuild sampleLoad 5 "index.js" sampleWorld) = ["index.js"; "lib.js"] ∧
  copied (afterBuild sampleLoad 5 "index.js" sampleWorld)
  = [("build/logo_png.png", "logo.png")] ∧
  printed (afterBuild sampleLoad 5 "index.js" sampleWorld) = [BuildFinished].
Proof. repeat split; vm_compute; reflexivity. Qed.

Lemma successful_build_is_complete_witness :
  ∃ order tail s,
    NoDup order ∧
    (∀ q, q ∈ order
          ↔ claimed (Files (afterBuild sampleLoad 5 "index.js" sampleWorld)) q) ∧
    getJsBundleFileTail (Files (afterBuild sampleLoad 5 "index.js" sampleWorld))
      5 "index.js" = Ok (tail, s) ∧
    bundle (afterBuild sampleLoad 5 "index.js" sampleWorld)
    = preamble ++
      concat (fragmentOf (Files (afterBuild sampleLoad 5 "index.js" sampleWorld))
                <$> order) ++ tail ∧
    claimed (Files (afterBuild sampleLoad 5 "index.js" sampleWorld)) "index.js" ∧
    (∀ q x,
       claimed (Files (afterBuild sampleLoad 5 "index.js" sampleWorld)) q →
       x ∈ importsOf (Files (afterBuild sampleLoad 5 "index.js" sampleWorld)) q →
       claimed (Files (afterBuild sampleLoad 5 "index.js" sampleWorld)) x) ∧
    (∀ N, N ∈ moduleOrder s →
          ∃ f, N = moduleNameOf f ∧ isJs f ∧
               claimed (Files (afterBuild sampleLoad 5 "index.js" sampleWorld)) f).
Proof.
  apply (successful_build_is_complete sampleLoad "build" 5 "index.js"
           sampleWorld (afterBuild sampleLoad 5 "index.js" sampleWorld)).
  - vm_compute. reflexivity.
  - vm_compute. reflexivity.
Defined.

Lemma watcher_rebuilds_on_touched_files_witness :
  checkFiles sampleLoad "build" 5 "index.js"
    (afterBuild sampleLoad 5 "index.js" sampleWorld)
  = Ok (tt, afterBuild sampleLoad 5 "index.js" sampleWorld) ∧
  ∀ disk,
    (touched (afterBuild sampleLoad 5 "index.js" sampleWorld) disk →
     checkFiles sampleLoad "build" 5 "index.js"
       (withDisk disk (afterBuild sampleLoad 5 "index.js" sampleWorld))
     = createBundle sampleLoad "build" 5 "index.js"
         (withDisk disk (afterBuild sampleLoad 5 "index.js" sampleWorld))) ∧
    (¬ touched (afterBuild sampleLoad 5 "index.js" sampleWorld) disk →
     checkFiles sampleLoad "build" 5 "index.js"
       (withDisk disk (afterBuild sampleLoad 5 "index.js" sampleWorld))
     = Ok (tt, withDisk disk (afterBuild sampleLoad 5 "index.js" sampleWorld))).
Proof.
  apply (watcher_rebuilds_on_touched_files sampleLoad "build" 5 "index.js"
           sampleWorld (afterBuild sampleLoad 5 "index.js" sampleWorld)).
  vm_compute. reflexivity.
Defined.

Lemma C1_every_build_rewrites_the_bundle_witness :
  ∃ e w0 order tail s,
    addFileToBundle (sampleLoadFile 20) "build" 3 "index.js"
      (startOfBuild lateErrorWorld) = Ok (e, w0) ∧
    NoDup order ∧
    (∀ q, q ∈ order
          ↔ claimed
              (Files (afterBuild (sampleLoadFile 20) 3 "index.js"
                        lateErrorWorld)) q) ∧
    getJsBundleFileTail
      (Files (afterBuild (sampleLoadFile 20) 3 "index.js" lateErrorWorld))
      3 "index.js" = Ok (tail, s) ∧
    bundle (afterBuild (sampleLoadFile 20) 3 "index.js" lateErrorWorld)
    = preamble ++
      concat (fragmentOf
                (Files (afterBuild (sampleLoadFile 20) 3 "index.js"
                          lateErrorWorld)) <$> order) ++ tail ∧
    last (printed (afterBuild (sampleLoadFile 20) 3 "index.js"
                     lateErrorWorld))
    = Some (verdict e) ∧
    ∀ previous,
      createBundle (sampleLoadFile 20) "build" 3 "index.js"
        (withBundle previous lateErrorWorld)
      = Ok (tt, afterBuild (sampleLoadFile 20) 3 "index.js" lateErrorWorld).
Proof.
  apply (proj1 (proj2 (C1_every_build_rewrites_the_bundle (sampleLoadFile 20)
                         "build" 3 "index.js" lateErrorWorld))).
  vm_compute. reflexivity.
Defined.

(** C1 (counterexample): a build whose entry file has a syntax error that
    the parser reports, and a build whose entry file is missing, both run
    over a bundle left by an earlier build.  The build fails, and the
    bundle file no longer holds the earlier bundle: it holds the preamble
    and a tail. *)
Lemma C1_failed_build_replaces_the_bundle :
  createBundle (sampleLoadFile 20) "build" 3 "index.js" lateErrorWorld
  = Ok (tt,
        World (files lateErrorWorld)
          (<["index.js" := FileCache [] 7%Z [] true]> ∅)
          (preamble ++
           bytes ("var moduleOrder = ['index_js'];" +:+
                  "moduleOrder.forEach((moduleName)=>modules[moduleName]=moduleFns[moduleName]())"))
          []
          [BuildFailed (loaderError
             (MkLoaderError
                (ParsingError p_UNEXPECTED_TOKEN (tk tPAREN_RIGHT ")")
                   [tk tNAME "a"; tk tPLUS "+"; tk tNAME "b"; tk tSEMI ";";
                    tk tNEWLINE ""; tk tPAREN_RIGHT ")"; tk tSEMI ";";
                    tk tNEWLINE ""; tk tNEWLINE ""; tk tNEWLINE ""])
                "index.js"))]
          ["index.js"]) ∧
  createBundle (sampleLoadFile 20) "build" 3 "main.js" lateErrorWorld
  = Ok (tt,
        World (files lateErrorWorld) ∅
          (preamble ++
           bytes ("var moduleOrder = ['main_js'];" +:+
                  "moduleOrder.forEach((moduleName)=>modules[moduleName]=moduleFns[moduleName]())"))
          []
          [BuildFailed (fileError ">>Error: cannot find file" "main.js")]
          []) ∧
  bundle lateErrorWorld = bytes "the bundle of the previous build".
Proof. repeat split; vm_compute; reflexivity. Qed.

(** A build does not return when LoadFile does not: on a module that
    imports ['.'] the resolver panics, and nothing recovers the panic; on
    the source [{] the parser does not return. *)
Example build_ends_with_the_loader :
  tokensLoad importDotTokens 20 (bytes "import x from '.';") "index.js"
  = Panic RuntimeError ∧
  createBundle (tokensLoad importDotTokens 20) "build" 3 "index.js"
    lateErrorWorld
  = Panic RuntimeError ∧
  createBundle (tokensLoad [tk tCURLY_LEFT "{"; tk tEND_OF_INPUT ""] 20)
    "build" 3 "index.js" lateErrorWorld
  = OutOfFuel.
Proof. repeat split; vm_compute; reflexivity. Qed.

(** ** The invocation order: the entry module *)

Section EntryLast.

Variable c : gmap string fileCache.

Lemma placeModule_order (f : string) (s : treeState) (order : list string) :
  moduleOrder s = order →
  moduleOrder (placeModule f s)
  = moduleOrder (placeModule f (TreeState order [])).
Proof. intros <-. unfold placeModule. simpl. by case_bool_decide. Qed.

(** What the call on an import of [f] adds is below [f]. *)
Lemma placesLast_import (f x : string) (path : list string)
    (s s' : treeState) :
  isJs f → x ∈ importsOf c f →
  placesLast c x (path ++ [f]) s s' →
  ∃ o, moduleOrder s' = moduleOrder s ++ o ∧ below c f path o.
Proof.
  intros Hf Hx (names & Hbelow & [(_ & -> & ->) | (Hjs & Hout & ->)]).
  { exists []. split; [by rewrite app_nil_r | by intros N []%elem_of_nil]. }
  assert (Hedge : edge c f x) by done.
  assert (Hnames : below c f path names).
  { intros N HN. destruct (Hbelow N HN) as (g & -> & Hg & Htc & Hp & Hne).
    exists g. split; [done |]. split; [done |].
    split; [by eapply tc_l |].
    rewrite not_elem_of_app, list_elem_of_singleton in Hp. tauto. }
  unfold placeModule. cbn [moduleOrder]. case_bool_decide.
  - exists (names ++ [moduleNameOf x]). cbn [moduleOrder].
    split; [by rewrite app_assoc |].
    intros N [HN | ->%list_elem_of_singleton]%elem_of_app; [by apply Hnames |].
    exists x. split; [done |]. split; [done |]. split; [by apply tc_once |].
    rewrite not_elem_of_app, list_elem_of_singleton in Hout. tauto.
  - by exists names.
Qed.

Lemma createImportTree_placesLast (fuel : nat) (f : string)
    (path : list string) (s s' : treeState) :
  createImportTree c fuel f path s = Ok (tt, s') → placesLast c f path s s'.
Proof.
  revert fuel f path s s'. apply (createImportTree_run c).
  - intros f path s Hjs. exists []. split; [by intros N []%elem_of_nil |].
    left. by split; [left |].
  - intros f path s i Hjs Hidx. exists [].
    split; [by intros N []%elem_of_nil |].
    left. split; [| done]. right. apply indexOf_Some in Hidx.
    by eapply list_elem_of_lookup_2.
  - intros f path s s1 Hjs Hout Hruns.
    assert (Hall : ∀ l sa sb,
      (∀ x, x ∈ l → x ∈ importsOf c f) →
      runsEach (λ x, placesLast c x (path ++ [f])) l sa sb →
      ∃ o, moduleOrder sb = moduleOrder sa ++ o ∧ below c f path o).
    { intros l sa sb Hin Hr.
      induction Hr as [sa | x l sa sb sc Hx _ IH].
      - exists []. split; [by rewrite app_nil_r | by intros N []%elem_of_nil].
      - destruct (placesLast_import f x path sa sb Hjs) as (o1 & E1 & B1);
          [apply Hin; set_solver | done |].
        destruct IH as (o2 & E2 & B2); [intros y Hy; apply Hin; set_solver |].
        exists (o1 ++ o2). split; [by rewrite E2, E1, app_assoc |].
        intros N [HN|HN]%elem_of_app; [by apply B1 | by apply B2]. }
    apply (Hall _ _ _ (λ x H, H)) in Hruns as Hall'. clear Hall.
    rename Hall' into Hall.
    destruct Hall as (o & Ho & Hbelow). exists o. split; [done |].
    right. split; [done |]. split; [done |]. by apply placeModule_order.
Qed.

(** The entry module is invoked last: its name is the last of the order,
    unless another module that it reaches has the same variable name.  When
    the entry file is no module the order is empty. *)
Theorem entry_module_is_invoked_last (fuel : nat) (entry : string)
    (tail : list byte) (s : treeState) :
  getJsBundleFileTail c fuel entry = Ok (tail, s) →
  (¬ isJs entry → moduleOrder s = []) ∧
  (isJs entry →
   (∀ g, tc (edge c) entry g → g ≠ entry →
         moduleNameOf g ≠ moduleNameOf entry) →
   last (moduleOrder s) = Some (moduleNameOf entry)).
Proof.
  unfold getJsBundleFileTail. intros H.
  destruct (createImportTree c fuel entry [] (TreeState [] []))
    as [[[] s']| |] eqn:Htree; [| done..].
  injection H as _ <-.
  apply createImportTree_placesLast in Htree
    as (names & Hbelow & [([Hno | []%elem_of_nil] & -> & Horder)
                         | (Hjs & _ & Horder)]).
  - split; [done | by intros Hjs].
  - split; [by intros Hno |]. intros _ Hunique.
    rewrite Horder. unfold placeModule. cbn [moduleOrder app].
    case_bool_decide as Hidx; [apply last_snoc |].
    exfalso. assert (Hin : moduleNameOf entry ∈ names).
    { destruct (indexOf names (moduleNameOf entry)) as [i|] eqn:E; [| done].
      apply indexOf_Some in E. by eapply list_elem_of_lookup_2. }
    destruct (Hbelow _ Hin) as (g & Hname & _ & Htc & _ & Hne).
    by apply (Hunique g).
Qed.

End EntryLast.

Lemma entry_module_is_invoked_last_witness :
  (¬ isJs "a.js" →
   moduleOrder (TreeState ["'c_js'"; "'b_js'"; "'a_js'"]
                  [CircularDependency ["a.js"; "b.js"; "c.js"; "a.js"]]) = []) ∧
  (isJs "a.js" →
   (∀ g, tc (edge cycleCache) "a.js" g → g ≠ "a.js" →
         moduleNameOf g ≠ moduleNameOf "a.js") →
   last (moduleOrder (TreeState ["'c_js'"; "'b_js'"; "'a_js'"]
                        [CircularDependency ["a.js"; "b.js"; "c.js"; "a.js"]]))
   = Some (moduleNameOf "a.js")).
Proof.
  apply (entry_module_is_invoked_last cycleCache 4 "a.js"
           (String.list_byte_of_string
              ("var moduleOrder = ['c_js','b_js','a_js'];" +:+
               "moduleOrder.forEach((moduleName)=>modules[moduleName]=moduleFns[moduleName]())"))).
  vm_compute. reflexivity.
Defined.

(** ** Assets *)

(** A file that is no module is an asset: when the build meets it, and the
    cache has no entry of the same modification time for it, it is copied
    into the directory of the bundle, under the very name that an import
    of it stands for in the importing module; nothing is written to the
    bundle, nothing is loaded, and the file has no imports. *)
Theorem asset_is_copied_under_its_import_name
    (LoadFile :
       list byte → string →
       outcome Empty_set (list byte * list string + LoaderError))
    (bundleDir : string) (fuel : nat) (p : string) (w : world) (st : osFile)
    (src : list byte) :
  ¬ isJs p →
  files w !! p = Some st →
  content st = Some src →
  ¬ claimed (Files w) p →
  (∀ cf, Files w !! p = Some cf → LastModTime cf ≠ modTime st) →
  addFileToBundle LoadFile bundleDir (S fuel) p w
  = Ok (None,
        World (files w)
          (<[p := FileCache [] (modTime st) [] true]> (Files w))
          (bundle w)
          (copied w ++ [(bundleDir +:+ "/" +:+ assetName p, p)])
          (printed w) (loaded w)) ∧
  ∀ name,
    importedValue p name
    = makeNode g_STRING_LITERAL ("'" +:+ assetName p +:+ "'") [].
Proof.
  intros Hjs Hst Hsrc Hnot Htime. split.
  - cbn [addFileToBundle]. rewrite addFileToBundleBody_claimStep.
    assert (Hstep : claimStep LoadFile bundleDir p w
      = Follow []
          (World (files w)
             (<[p := FileCache [] (modTime st) [] true]> (Files w))
             (bundle w)
             (copied w ++ [(bundleDir +:+ "/" +:+ assetName p, p)])
             (printed w) (loaded w))).
    { unfold claimStep, processFile. rewrite Hst.
      rewrite (bool_decide_eq_false_2 (Ext p = ".js")) by done.
      simpl. rewrite Hsrc. unfold saved, withFiles, withBundle.
      simpl. rewrite app_nil_r.
      destruct (Files w !! p) as [cf|] eqn:Hcf; [| done].
      destruct (IsReachable cf) eqn:Hr.
      { exfalso. apply Hnot. by exists cf. }
      rewrite bool_decide_eq_false_2 by by apply Htime. done. }
    rewrite Hstep. reflexivity.
  - intros name. unfold importedValue.
    by rewrite (bool_decide_eq_false_2 (Ext p = ".js")).
Qed.

Lemma asset_is_copied_under_its_import_name_witness :
  addFileToBundle sampleLoad "build" (S 0) "logo.png" sampleWorld
  = Ok (None,
        World (files sampleWorld)
          (<["logo.png" := FileCache [] (modTime (OsFile 3%Z (Some (bytes "PNG"))))
                             [] true]> (Files sampleWorld))
          (bundle sampleWorld)
          (copied sampleWorld ++ [("build" +:+ "/" +:+ assetName "logo.png",
                                   "logo.png")])
          (printed sampleWorld) (loaded sampleWorld)) ∧
  ∀ name,
    importedValue "logo.png" name
    = makeNode g_STRING_LITERAL ("'" +:+ assetName "logo.png" +:+ "'") [].
Proof.
  apply (asset_is_copied_under_its_import_name sampleLoad "build" 0 "logo.png"
           sampleWorld (OsFile 3%Z (Some (bytes "PNG"))) (bytes "PNG")).
  - vm_compute. discriminate.
  - reflexivity.
  - reflexivity.
  - intros (e & He & _). vm_compute in He. discriminate.
  - intros cf Hcf. vm_compute in Hcf. discriminate.
Defined.

(** ** The page of the bundle *)

Lemma prefix_app (sub s : string) :
  String.prefix sub s = true ↔ ∃ after, s = sub +:+ after.
Proof.
  revert s. induction sub as [|a sub IH]; intros s.
  - split; [intros _; exists s; reflexivity | intros _; by destruct s].
  - destruct s as [|b s];
      [split; [done | intros [after H]; by rewrite append_cons in H] |].
    simpl. destruct (Ascii.ascii_dec a b) as [<-|Hne].
    + rewrite IH. split; intros [after H]; exists after.
      * by rewrite append_cons, H.
      * rewrite append_cons in H. by injection H.
    + split; [done |]. intros [after H]. rewrite append_cons in H.
      injection H as -> _. done.
Qed.

Lemma substring_all (s : string) :
  String.substring 0 (String.length s) s = s.
Proof. induction s as [|c s IH]; [done |]. simpl. by rewrite IH. Qed.

Lemma substring_before (before rest : string) :
  String.substring 0 (String.length before) (before +:+ rest) = before.
Proof.
  induction before as [|c before IH]; [by destruct rest |].
  rewrite append_cons. simpl. by rewrite IH.
Qed.

Lemma substring_after (before rest : string) :
  String.substring (String.length before) (String.length rest)
    (before +:+ rest) = rest.
Proof.
  induction before as [|c before IH]; [apply substring_all |].
  rewrite append_cons. simpl. apply IH.
Qed.

(** [strings.Index] gives the first place where the substring stands. *)
Lemma Index_first (s sub : string) :
  match Index s sub with
  | Some i =>
      ∃ before after,
        s = before +:+ sub +:+ after ∧ String.length before = i ∧
        ∀ b a, s = b +:+ sub +:+ a → (i ≤ String.length b)%nat
  | None => ∀ b a, s ≠ b +:+ sub +:+ a
  end.
Proof.
  induction s as [|c s IH]; cbn [Index].
  - destruct (String.prefix sub "") eqn:Hp.
    + apply prefix_app in Hp as [after Hafter].
      exists "", after. split; [done |]. split; [done |]. intros; lia.
    + intros b a H. destruct b; [| by rewrite append_cons in H].
      apply not_true_iff_false in Hp. apply Hp, prefix_app. by exists a.
  - destruct (String.prefix sub (String c s)) eqn:Hp.
    + apply prefix_app in Hp as [after Hafter].
      exists "", after. split; [done |]. split; [done |]. intros; lia.
    + assert (Hfront : ∀ b a, String c s = b +:+ sub +:+ a →
                ∃ b', b = String c b' ∧ s = b' +:+ sub +:+ a).
      { intros b a H. destruct b as [|x b].
        - apply not_true_iff_false in Hp. exfalso. apply Hp, prefix_app.
          by exists a.
        - rewrite append_cons in H. injection H as -> ->. by exists b. }
      destruct (Index s sub) as [i|]; simpl.
      * destruct IH as (before & after & -> & <- & Hmin).
        exists (String c before), after. split; [by rewrite append_cons |].
        split; [done |]. intros b a H.
        apply Hfront in H as (b' & -> & H). simpl.
        specialize (Hmin b' a H). lia.
      * intros b a H. apply Hfront in H as (b' & -> & H). by apply (IH b' a).
Qed.

(** The page: bundleHTMLTemplate inserts the script element of the bundle,
    on a line of its own, before the first line of the template that
    starts with the end of the body, and keeps the rest of the template as
    it is.  It stops the program when the template cannot be read or has
    no such line, the end of the body standing on the first line
    included. *)
Theorem bundleHTMLTemplate_inserts_the_script (template bundleName : string) :
  match bundleHTMLTemplate (Some template) bundleName with
  | Some result =>
      ∃ before after,
        template = before +:+ bodyEnd +:+ after ∧
        (∀ b a, template = b +:+ bodyEnd +:+ a →
                (String.length before ≤ String.length b)%nat) ∧
        result = before +:+ scriptTag bundleName +:+ "</body" +:+ after
  | None => ∀ before after, template ≠ before +:+ bodyEnd +:+ after
  end ∧
  bundleHTMLTemplate None bundleName = None ∧
  bundleHTMLTemplate (Some "<body></body>") bundleName = None.
Proof.
  split; [| split; reflexivity].
  unfold bundleHTMLTemplate. cbn [mbind option_bind].
  pose proof (Index_first template bodyEnd) as H.
  destruct (Index template bodyEnd) as [i|]; cbn [mbind option_bind]; [| done].
  destruct H as (before & after & -> & <- & Hmin).
  exists before, after. split; [done |]. split; [done |].
  rewrite substring_before. do 2 f_equal.
  unfold bodyEnd. rewrite append_cons.
  replace (before +:+ String "010" ("</body" +:+ after))
    with ((before +:+ String "010" "") +:+ ("</body" +:+ after))
    by by rewrite append_assoc.
  replace (String.length before + 1)
    with (String.length (before +:+ String "010" ""))
    by (rewrite append_length; simpl; lia).
  replace (String.length ((before +:+ String "010" "") +:+ ("</body" +:+ after))
           - String.length (before +:+ String "010" ""))
    with (String.length ("</body" +:+ after))
    by (rewrite (append_length (before +:+ String "010" "")); lia).
  apply substring_after.
Qed.

Example page_of_the_bundle :
  bundleHTMLTemplate (Some samplePage) "build/bundle.js"
  = Some ("<html><body>" +:+ String "010" "<p>hello</p>" +:+
          String "010" "  <script src=" +:+ String "034" "bundle.js" +:+
          String "034" "></script>" +:+
          String "010" "</body></html>").
Proof. vm_compute. reflexivity. Qed.

(** ** The module transform: exports *)

Section Exports.

Variable trim : string → string.
Variable g_zero : grammarType.
Variable fileName : string.

Lemma exportVars_untouched (m : gmap string astNode)
    (vars : list (astNode * astNode)) :
  forallb (untouched m) (exportNodes vars) = true →
  forallb (untouched m) (exportVar <$> vars) = true.
Proof.
  induction vars as [|[a b] vars IH]; [done |].
  cbn [exportNodes mbind list_bind app fmap list_fmap forallb fst snd].
  fold (exportNodes vars). fold (fmap (M:=list) exportVar vars).
  intros H. apply andb_true_iff in H as [Ha H].
  apply andb_true_iff in H as [Hb H].
  cbn [exportVar makeNode untouched forallb fst snd].
  rewrite Ha, Hb. cbn [andb]. by apply IH.
Qed.

Lemma exportVars_height (fuel : nat) (vars : list (astNode * astNode)) :
  Forall (λ n, height n ≤ fuel)%nat (exportNodes vars) →
  (list_max (map height (exportVar <$> vars)) ≤ S fuel)%nat.
Proof.
  induction vars as [|[a b] vars IH]; [simpl; lia |].
  cbn [exportNodes mbind list_bind app fst snd].
  fold (exportNodes vars). intros H.
  inversion H as [|? ? Ha H']; subst.
  inversion H' as [|? ? Hb H'']; subst.
  specialize (IH H'').
  cbn [fmap list_fmap map]. fold (fmap (M:=list) exportVar vars).
  change (list_max (height (exportVar (a, b)) ::
                    map height (exportVar <$> vars)))
    with (Nat.max (S (Nat.max (height a) (Nat.max (height b) 0)))
            (list_max (map height (exportVar <$> vars)))).
  lia.
Qed.

Lemma exportAssignments_run (hasPath : bool) (member : astNode)
    (vars : list (astNode * astNode)) (done_ : list astNode)
    (s : transformState) :
  @forRange Empty_set transformState _ _ (exportVar <$> vars)
    (λ assignments v,
      exportedName <- elemAt (children v) 1 ;;
      let left := makeNode g_MEMBER_EXPRESSION ""
                    [makeNode g_NAME "exports" []; exportedName] in
      right <-
        (if hasPath then
           property <- elemAt (children v) 0 ;;
           ret (makeNode g_MEMBER_EXPRESSION "" [member; property])
         else elemAt (children v) 0) ;;
      let d := makeNode g_EXPRESSION "=" [left; right] in
      ret (assignments ++ [d])) done_ s
  = Ok (done_ ++
        ((λ v, makeNode g_EXPRESSION "="
                 [makeNode g_MEMBER_EXPRESSION ""
                    [makeNode g_NAME "exports" []; v.2];
                  if hasPath
                  then makeNode g_MEMBER_EXPRESSION "" [member; v.1]
                  else v.1]) <$> vars), s).
Proof.
  revert done_.
  induction vars as [|[name alias] vars IH]; intros done_.
  - simpl. unfold ret. by rewrite app_nil_r.
  - cbn [fmap list_fmap forRange]. unfold bind at 1.
    destruct hasPath.
    + unfold elemAt, bind, ret. cbn. rewrite IH.
      by rewrite <- app_assoc.
    + unfold elemAt, bind, ret. cbn. rewrite IH. by rewrite <- app_assoc.
Qed.

(** An export statement whose parts the transform leaves alone becomes
    the assignments of its variables to [exports], after its declaration;
    a re-export takes the values from the module it names, which joins
    the dependency list, and [export *] becomes [Object.assign] on that
    module. *)
Theorem export_statement_assigns_exports (fuel : nat)
    (vars : list (astNode * astNode)) (declaration : astNode)
    (path : string) (fl : Z) (s : transformState) :
  forallb (untouched (importedVars (ctx s))) (declaration :: exportNodes vars)
  = true →
  Forall (λ n, height n ≤ fuel)%nat (declaration :: exportNodes vars) →
  (path = "" → Z.land fl f_EXPORT_ALL = 0%Z →
   modifyAst trim g_zero fileName (3 + fuel)
     (exportStatement vars declaration path fl) s
   = Ok (makeNode g_MULTISTATEMENT ""
           [declaration; exportAssignments None vars], s)) ∧
  (∀ r, path ≠ "" → resolveES6ImportPath trim path fileName = Some r →
     modifyAst trim g_zero fileName (3 + fuel)
       (exportStatement vars declaration path fl) s
     = Ok (if bool_decide (Z.land fl f_EXPORT_ALL = 0%Z)
           then makeNode g_MULTISTATEMENT ""
                  [declaration; exportAssignments (Some r) vars]
           else exportAll r,
           TransformState (fileImports s ++ [r]) (ctx s))).
Proof.
  intros Hun Hh.
  cbn [forallb] in Hun. apply andb_true_iff in Hun as [Hdecl Hvars].
  inversion Hh as [|? ? Hhd Hhv]; subst.
  assert (Hpass : mapM (modifyAst trim g_zero fileName (2 + fuel))
                    [makeNode g_EXPORT_VARS "" (exportVar <$> vars);
                     declaration; makeNode g_EXPORT_PATH path []] s
                  = Ok ([makeNode g_EXPORT_VARS "" (exportVar <$> vars);
                         declaration; makeNode g_EXPORT_PATH path []], s)).
  { apply mapM_id.
    pose proof (exportVars_height fuel vars Hhv).
    repeat constructor; apply modifyAst_untouched;
      cbn [untouched height makeNode map list_max fold_right];
      first [by apply exportVars_untouched | done | lia]. }
  split.
  - intros -> Hflags.
    change (3 + fuel) with (S (2 + fuel)). cbn [modifyAst].
    unfold modifyAstBody, exportStatement. cbn [t].
    unfold modifyExport. cbn [children]. unfold bind at 1.
    rewrite Hpass.
    unfold elemAt at 1 2. cbn [set_children children].
    simpl lookup. unfold bind at 1 2. unfold ret at 1 2. cbn beta iota.
    cbn [value children makeNode flags set_children t].
    rewrite Hflags.
    rewrite (bool_decide_eq_false_2 ("" ≠ "")) by (intros H; by apply H).
    rewrite (bool_decide_eq_false_2 (0 ≠ 0)%Z) by (intros H; by apply H).
    unfold bind at 1. unfold ret at 1. cbn beta iota. cbn [negb].
    unfold bind at 1.
    match goal with |- context [forRange ?l ?b ?a ?s0] =>
      rewrite (exportAssignments_run false (zeroNode g_zero) vars [] s
               : forRange l b a s0 = _)
    end.
    reflexivity.
  - intros r Hpath Hres.
    change (3 + fuel) with (S (2 + fuel)). cbn [modifyAst].
    unfold modifyAstBody, exportStatement. cbn [t].
    unfold modifyExport. cbn [children]. unfold bind at 1.
    rewrite Hpass.
    unfold elemAt at 1 2. cbn [set_children children].
    simpl lookup. unfold bind at 1 2. unfold ret at 1 2. cbn beta iota.
    cbn [value children makeNode flags set_children t].
    rewrite (bool_decide_eq_true_2 (path ≠ "")) by done.
    unfold bind at 1. unfold bind at 1.
    unfold resolvePath, orPanic. rewrite Hres. unfold ret at 1.
    cbn beta iota. unfold bind at 1.
    unfold addFileImport at 1, modify at 1. cbn beta iota.
    unfold ret at 1.
    destruct (decide (Z.land fl f_EXPORT_ALL = 0%Z)) as [Hz|Hnz].
    + rewrite (bool_decide_eq_true_2 (_ = _)) by done.
      rewrite (bool_decide_eq_false_2 (_ ≠ _)) by (intros H; by apply H).
      cbn [negb]. unfold bind at 1.
      match goal with |- context [forRange ?l ?b ?a ?s0] =>
        rewrite (exportAssignments_run true (moduleObject r) vars [] s0
                 : forRange l b a s0 = _)
      end.
      reflexivity.
    + rewrite (bool_decide_eq_false_2 (_ = _)) by done.
      rewrite (bool_decide_eq_true_2 (_ ≠ _)) by done.
      reflexivity.
Qed.

End Exports.

Lemma export_statement_assigns_exports_witness :
  modifyAst id g_PROGRAM_STATEMENT "src/index.js" 4 exportDefaultOne
    (TransformState [] (Context ∅ None))
  = Ok (makeNode g_MULTISTATEMENT ""
          [makeNode g_EXPORT_DECLARATION "" [];
           makeNode g_EXPRESSION_STATEMENT ""
             [makeNode g_SEQUENCE_EXPRESSION "="
                [makeNode g_EXPRESSION "="
                   [makeNode g_MEMBER_EXPRESSION ""
                      [makeNode g_NAME "exports" [];
                       makeNode g_EXPORT_ALIAS "default" []];
                    makeNode g_NUMBER_LITERAL "1" []]]]],
        TransformState [] (Context ∅ None)).
Proof.
  refine (proj1 (export_statement_assigns_exports id g_PROGRAM_STATEMENT
            "src/index.js" 1
            [(makeNode g_NUMBER_LITERAL "1" [],
              makeNode g_EXPORT_ALIAS "default" [])]
            (makeNode g_EXPORT_DECLARATION "" []) "" 0
            (TransformState [] (Context ∅ None)) _ _) _ _).
  - reflexivity.
  - repeat constructor; simpl; lia.
  - reflexivity.
  - reflexivity.
Defined.

(** ** The parser: a blank source *)

Lemma firstNoNewline_blank (blank rest : list token) (e : token) :
  Forall (λ t, tType t = tNEWLINE) blank →
  tType e ≠ tNEWLINE →
  firstNoNewline (blank ++ e :: rest) = Some e.
Proof.
  intros Hb He. induction Hb as [|t blank Ht _ IH]; simpl.
  - by rewrite bool_decide_eq_false_2.
  - by rewrite bool_decide_eq_true_2.
Qed.

Lemma leadingNewlines_blank (blank rest : list token) (e : token) :
  Forall (λ t, tType t = tNEWLINE) blank →
  tType e ≠ tNEWLINE →
  leadingNewlines (blank ++ e :: rest) = length blank.
Proof.
  intros Hb He. induction Hb as [|t blank Ht _ IH]; simpl.
  - by rewrite bool_decide_eq_false_2.
  - rewrite bool_decide_eq_true_2 by done. by rewrite IH.
Qed.

Section BlankSource.

Variable operatorTable : tokenType → option operator.
Variable isLetter isNumber : ascii → bool.
Variable g_zero : grammarType.

(** A source of blank lines only is the empty program, with no error: the
    newlines before the end of the input are skipped, and the tokens after
    the end of the input are not read. *)
Theorem blank_source_is_the_empty_program (fuel : nat)
    (blank rest spare_ : list token) (e : token) :
  Forall (λ t, tType t = tNEWLINE) blank →
  tType e = tEND_OF_INPUT →
  length blank < fuel →
  parseTokens operatorTable isLetter isNumber g_zero fuel
    (TokenSlice (blank ++ e :: rest) spare_)
  = Ok (makeNode g_PROGRAM_STATEMENT "" [], None).
Proof.
  intros Hblank He Hfuel.
  assert (Hne : tType e ≠ tNEWLINE) by (by rewrite He).
  destruct fuel as [|f]; [lia |].
  unfold parseTokens, parseProgram. cbn [elems].
  destruct (blank ++ e :: rest) as [|t0 l] eqn:El.
  { by destruct blank. }
  cbn [lookup list_lookup]. rewrite <- El.
  set (p := ParserState (TokenSlice (blank ++ e :: rest) spare_) 0 t0 false).
  assert (Hacc : accept (S f) [tEND_OF_INPUT] p = Ok (true, consumed p e)).
  { rewrite (accept_run (S f) [tEND_OF_INPUT] p e).
    - rewrite bool_decide_eq_false_2 by done.
      unfold isType. cbn [existsb].
      by rewrite (bool_decide_eq_true_2 _ He).
    - unfold onToken, p. cbn [sourceTokens elems index tok]. by rewrite El.
    - unfold remaining, p. cbn [sourceTokens elems index drop].
      by apply firstNoNewline_blank.
    - unfold remaining, p. cbn [sourceTokens elems index]. rewrite drop_0.
      by rewrite leadingNewlines_blank. }
  unfold parseProgramStatements. cbn [loop]. unfold bind at 1.
  unfold bind at 1. rewrite Hacc. reflexivity.
Qed.

End BlankSource.

Lemma blank_source_is_the_empty_program_witness :
  parseTokens sampleTable sampleIsLetter sampleIsNumber (g_OTHER 0) 2
    (TokenSlice blankTokens [])
  = Ok (makeNode g_PROGRAM_STATEMENT "" [], None).
Proof.
  apply (blank_source_is_the_empty_program sampleTable sampleIsLetter
           sampleIsNumber (g_OTHER 0) 2 [tk tNEWLINE ""] [] []
           (tk tEND_OF_INPUT "")).
  - by repeat constructor.
  - reflexivity.
  - simpl. lia.
Defined.

(** ** The module transform: CommonJS exports *)

Section ModuleExports.

Variable trim : string → string.
Variable g_zero : grammarType.
Variable fileName : string.

(** A member expression on [module] and [exports] whose parts the
    transform leaves alone keeps its shape, its further children and its
    flags, and is renamed to [exports] and [default]: an assignment to
    [module.exports] sets the member that [require] reads. *)
Theorem module_exports_becomes_exports_default (fuel : nat) (v : string)
    (c0 c1 : astNode) (rest : list astNode) (fl : Z)
    (s : transformState) :
  forallb (untouched (importedVars (ctx s))) (c0 :: c1 :: rest) = true →
  Forall (λ n, height n ≤ fuel)%nat (c0 :: c1 :: rest) →
  value c0 = "module" →
  value c1 = "exports" →
  modifyAst trim g_zero fileName (S fuel)
    (AstNode g_MEMBER_EXPRESSION v (c0 :: c1 :: rest) fl) s
  = Ok (AstNode g_MEMBER_EXPRESSION v
          (set_value c0 "exports" :: set_value c1 "default" :: rest) fl, s).
Proof.
  intros Hun Hh H0 H1.
  cbn [modifyAst]. unfold modifyAstBody. cbn [t].
  unfold modifyMemberExpression. cbn [children]. unfold bind at 1.
  rewrite mapM_id.
  2:{ apply Forall_forall. intros c Hc.
      apply modifyAst_untouched.
      - rewrite forallb_forall in Hun. apply Hun.
        by apply list_elem_of_In.
      - rewrite Forall_forall in Hh. by apply Hh. }
  unfold elemAt at 1. cbn [set_children children].
  simpl lookup. unfold bind at 1. unfold ret at 1. cbn beta iota.
  rewrite (bool_decide_eq_true_2 _ H0).
  unfold elemAt at 1. simpl lookup. unfold bind at 1. unfold ret at 1.
  cbn beta iota.
  rewrite (bool_decide_eq_true_2 _ H1).
  reflexivity.
Qed.

End ModuleExports.

Lemma module_exports_becomes_exports_default_witness :
  modifyAst id g_PROGRAM_STATEMENT "src/index.js" 2 moduleExports
    (TransformState [] (Context ∅ None))
  = Ok (makeNode g_MEMBER_EXPRESSION ""
          [makeNode g_NAME "exports" []; makeNode g_NAME "default" []],
        TransformState [] (Context ∅ None)).
Proof.
  apply (module_exports_becomes_exports_default id g_PROGRAM_STATEMENT
           "src/index.js" 1 "" (makeNode g_NAME "module" [])
           (makeNode g_NAME "exports" []) [] 0
           (TransformState [] (Context ∅ None))).
  - reflexivity.
  - repeat constructor; simpl; lia.
  - reflexivity.
  - reflexivity.
Defined.

(** ** The parser: binary expressions of any length *)

Section BinaryNesting.

Variable operatorTable : tokenType → option operator.
Variable operand : P astNode.
Variable fuel : nat.

Local Arguments reduceStack : simpl never.
Local Arguments next : simpl never.

Lemma goesBefore_reduces (t tq : token) (o : operator) :
  operatorTable (tType tq) = Some o →
  reducesBefore (lookupOperator operatorTable (tType t)) o = true
  ↔ goesBefore operatorTable t tq.
Proof.
  intros Ho.
  assert (Hq : lookupOperator operatorTable (tType tq) = o).
  { unfold lookupOperator. by rewrite Ho. }
  rewrite reducesBefore_spec. unfold goesBefore, precedenceOf.
  by rewrite Hq.
Qed.

Lemma close_snoc (base : list (binaryTree * token)) (T top : binaryTree)
    (t : token) :
  close (base ++ [(T, t)]) top = close base (Binary t T top).
Proof. unfold close. by rewrite foldr_app. Qed.

Lemma nested_close_top (base : list (binaryTree * token)) (top : binaryTree) :
  nested operatorTable (close base top) → nested operatorTable top.
Proof.
  induction base as [|[T t] base IH]; [done |].
  cbn [close fold_right nested]. fold (close base top). intros (_ & H & _).
  by apply IH.
Qed.

(** Another tree on top of the stacks: the closed tree stays nested when
    the new top is, and the operator below it does not go before the
    operator at its root. *)
Lemma nested_replace_top (base : list (binaryTree * token))
    (top top' : binaryTree) :
  nested operatorTable (close base top) → nested operatorTable top' →
  (∀ T t r, last base = Some (T, t) → rootOperator top' = Some r →
            ¬ goesBefore operatorTable t r) →
  nested operatorTable (close base top').
Proof.
  intros Hn Htop' Hlast. induction base as [|[T t] base IH]; [done |].
  cbn [close fold_right nested] in *. fold (close base top) in Hn.
  fold (close base top'). destruct Hn as (HT & Hrest & Hl & Hr).
  split; [done |]. split.
  { apply IH; [done |]. intros T0 t0 r Hl0. apply (Hlast T0 t0 r).
    by destruct base. }
  split; [done |].
  destruct base as [|[T1 t1] base].
  - cbn. intros tr Htr. by apply (Hlast T t tr).
  - exact Hr.
Qed.

Lemma inorder_close_snoc (base : list (binaryTree * token))
    (top : binaryTree) (t : token) (b : astNode) :
  inorder (close base (Binary t top (Operand b)))
  = ((inorder (close base top)).1, (inorder (close base top)).2 ++ [(t, b)]).
Proof.
  induction base as [|[T t0] base IH]; [reflexivity |].
  cbn [close fold_right inorder]. fold (close base top).
  fold (close base (Binary t top (Operand b))). rewrite IH. cbn [fst snd].
  by rewrite <- app_assoc.
Qed.

(** The inner loop: it reduces the stacked operators that go before the
    incoming one, from the top down, and stops at the first that does
    not. *)
Lemma reduceStack_run (tq : token) (o : operator) (q : parserState) :
  operatorTable (tType tq) = Some o →
  ∀ (base : list (binaryTree * token)) (f : nat) (top : binaryTree)
    (root : option astNode),
    length base < f →
    (∀ r, rootOperator top = Some r → goesBefore operatorTable r tq) →
    ∃ base' top' root',
      reduceStack operatorTable f o
        (opsOf base, outOf base ++ [treeNode top], root) q
      = Ok ((opsOf base', outOf base' ++ [treeNode top'], root'), q) ∧
      close base' top' = close base top ∧
      (length base' ≤ length base)%nat ∧
      (∀ r, rootOperator top' = Some r → goesBefore operatorTable r tq) ∧
      (∀ T t, last base' = Some (T, t) → ¬ goesBefore operatorTable t tq).
Proof.
  intros Ho.
  induction base as [|[T t] base IH] using rev_ind;
    intros f top root Hfuel Htop.
  - destruct f as [|f]; [simpl in Hfuel; lia |].
    exists [], top, root. split; [reflexivity |]. split; [done |].
    split; [done |]. split; [done |]. intros ? ? [=].
  - destruct f as [|f]; [simpl in Hfuel; lia |].
    rewrite length_app in Hfuel. simpl in Hfuel.
    unfold reduceStack. cbn [loop]. unfold bind at 1.
    unfold opsOf at 1. rewrite fmap_app. cbn [fmap list_fmap snd].
    rewrite last_snoc.
    destruct (reducesBefore (lookupOperator operatorTable (tType t)) o) eqn:E.
    + apply (goesBefore_reduces t tq o Ho) in E.
      destruct (IH f (Binary t T top) (Some (treeNode (Binary t T top))))
        as (base' & top' & root' & Hrun & Hclose & Hlen & Htop' & Hlast).
      { lia. }
      { intros r [= <-]. done. }
      exists base', top', root'.
      split.
      { unfold bind at 1. unfold addNode.
        unfold outOf at 1. rewrite !fmap_app. cbn [fmap list_fmap fst].
        rewrite <- app_assoc. cbn [app].
        rewrite reverse_app. cbn [reverse rev_append app].
        change (rev_append [treeNode T; treeNode top] [])
          with [treeNode top; treeNode T]. cbn [app].
        unfold bind at 1. unfold ret at 1. cbn beta iota.
        unfold ret at 1. cbn beta iota.
        change (rev_append (reverse (treeNode <$> base.*1)) [])
          with (reverse (reverse (treeNode <$> base.*1))).
        rewrite reverse_involutive. unfold opsOf at 1.
        rewrite fmap_app. cbn [fmap list_fmap snd]. rewrite removelast_last.
        exact Hrun. }
      split; [by rewrite Hclose, close_snoc |].
      split; [rewrite length_app; simpl; lia |]. done.
    + exists (base ++ [(T, t)]), top, root.
      split.
      { unfold ret at 1. cbn beta iota. unfold ret.
        unfold opsOf. by rewrite fmap_app. }
      split; [done |]. split; [done |]. split; [done |].
      intros T0 t0 Hl. rewrite last_snoc in Hl. injection Hl as <- <-.
      intros Hg. apply (goesBefore_reduces t tq o Ho) in Hg. congruence.
Qed.

Lemma addNode_top (t : token) (pre : list astNode) (x y : astNode)
    (q : parserState) :
  addNode t (pre ++ [x; y]) q
  = Ok ((pre ++ [makeNode g_EXPRESSION (lexeme t) [x; y]],
         makeNode g_EXPRESSION (lexeme t) [x; y]), q).
Proof.
  unfold addNode. rewrite reverse_app. cbn [reverse rev_append app].
  change (rev_append [x; y] []) with [y; x]. cbn [app].
  change (rev_append (reverse pre) []) with (reverse (reverse pre)).
  by rewrite reverse_involutive.
Qed.

(** The loop that ends parseBinary reduces every stacked operator, from
    the top down. *)
Lemma endLoop_close (base : list (binaryTree * token)) :
  ∀ (top : binaryTree) (root : option astNode) (q : parserState),
    forRange (reverse (opsOf base)) (λ '(outputStack, _) opToken,
      '(outputStack, nn) <- addNode opToken outputStack ;;
      ret (outputStack, Some nn)) (outOf base ++ [treeNode top], root) q
    = Ok (([treeNode (close base top)],
           if decide (base = []) then root
           else Some (treeNode (close base top))), q).
Proof.
  induction base as [|[T t] base IH] using rev_ind; intros top root q;
    [reflexivity |].
  unfold opsOf, outOf. rewrite !fmap_app, reverse_app.
  cbn [fmap list_fmap fst snd reverse rev_append app forRange].
  unfold bind at 1. unfold bind at 1.
  rewrite <- app_assoc. cbn [app]. rewrite addNode_top.
  unfold ret at 1. cbn beta iota.
  pose proof (IH (Binary t T top)
                (Some (treeNode (Binary t T top))) q) as He.
  unfold opsOf, outOf in He. cbn [treeNode] in He. rewrite He.
  rewrite close_snoc.
  rewrite (decide_False (P := base ++ [(T, t)] = [])) by by destruct base.
  by destruct (decide (base = [])) as [-> |].
Qed.

Lemma binaryEnd_close (base : list (binaryTree * token)) (top : binaryTree)
    (root : option astNode) (q : parserState) :
  (base = [] → root = None) →
  binaryEnd (opsOf base, outOf base ++ [treeNode top], root) q
  = Ok (treeNode (close base top), q).
Proof.
  intros Hroot. unfold binaryEnd. unfold bind at 1.
  rewrite endLoop_close. cbn beta iota.
  destruct (decide (base = [])) as [Hb|Hb]; [| reflexivity].
  rewrite (Hroot Hb). reflexivity.
Qed.

(** The rounds of parseBinary from a state whose stacks hold a nested
    tree, on a chain of any length. *)
Lemma rounds_nested (rest : list (token * astNode)) :
  ∀ (k : nat) (p qf : parserState) (a : astNode)
    (base : list (binaryTree * token)) (root : option astNode),
    operandChain operatorTable operand p a rest qf →
    nested operatorTable (close base (Operand a)) →
    (base = [] → root = None) →
    length rest < k →
    length base + length rest < fuel →
    ∃ T,
      bind (loop k (binaryRound operatorTable fuel operand)
              (opsOf base, outOf base, root)) binaryEnd p
      = Ok (treeNode T, qf) ∧
      nested operatorTable T ∧
      inorder T = ((inorder (close base (Operand a))).1,
                   (inorder (close base (Operand a))).2 ++ rest).
Proof.
  induction rest as [|[tq b] rest IH];
    intros k p qf a base root Hchain Hn Hroot Hk Hfuel.
  all: destruct k as [|k]; [simpl in Hk; lia |].
  - inversion Hchain as [? ? ? Ha Hstop |]; subst.
    exists (close base (Operand a)).
    split; [| split; [done |]];
      [| rewrite app_nil_r; by destruct (inorder (close base (Operand a)))].
    unfold bind at 1. cbn [loop]. unfold bind at 1.
    rewrite (round_last _ _ _ _ _ _ _ Ha Hstop). cbn beta iota.
    unfold ret at 1. cbn [fst snd].
    by apply (binaryEnd_close base (Operand a)).
  - inversion Hchain as [| ? ? q o b' ? ? Ha Ho Hin Hrest]; subst.
    destruct (reduceStack_run (tok q) o q Ho base fuel (Operand a) root)
      as (base' & top' & root' & Hrun & Hclose & Hlen & Htop' & Hlast).
    { simpl in Hfuel. lia. }
    { by intros r [=]. }
    destruct (IH k (advance q) qf b (base' ++ [(top', tok q)]) root' Hrest)
      as (T & HT & HnT & Hin').
    { rewrite close_snoc.
      apply (nested_replace_top base' top').
      - by rewrite Hclose.
      - cbn [nested]. split; [| split; [done | split; [done | by intros ? [=]]]].
        apply (nested_close_top base'). by rewrite Hclose.
      - intros T0 t0 r Hl [= <-]. by apply (Hlast T0 t0). }
    { by destruct base'. }
    { simpl in Hk. lia. }
    { rewrite length_app. simpl in *. lia. }
    exists T. split; [| split; [done |]].
    + unfold bind at 1. cbn [loop]. unfold bind at 1.
      rewrite (round_more _ _ _ _ _ _ _ _ Ha Ho Hin). cbn [fst snd].
      cbn [treeNode] in Hrun. rewrite Hrun. cbn beta iota.
      unfold bind at 1 in HT.
      unfold opsOf, outOf in HT |- *. rewrite !fmap_app in HT.
      cbn [fmap list_fmap fst snd] in HT. exact HT.
    + rewrite Hin'. rewrite close_snoc, inorder_close_snoc, Hclose.
      cbn [fst snd]. by rewrite <- app_assoc.
Qed.

Lemma nested_tighter (T : binaryTree) :
  nested operatorTable T →
  tighterInside operatorTable T ∧
  ∀ r t', rootOperator T = Some r → t' ∈ operatorsOf T →
          (precedenceOf operatorTable r ≤ precedenceOf operatorTable t')%Z.
Proof.
  induction T as [a | t l IHl r IHr]; [by split; [| intros ? ? [=]] |].
  cbn [nested]. intros (Hl & Hr & Hleft & Hright).
  destruct (IHl Hl) as [Htl Hrootl]. destruct (IHr Hr) as [Htr Hrootr].
  assert (Hin : ∀ t', t' ∈ operatorsOf l ++ operatorsOf r →
            (precedenceOf operatorTable t ≤ precedenceOf operatorTable t')%Z).
  { intros t' [Ht' | Ht']%elem_of_app.
    - destruct l as [|tl l1 l2]; [by apply elem_of_nil in Ht' |].
      specialize (Hrootl tl t' eq_refl Ht').
      destruct (Hleft tl eq_refl) as [? | [? _]]; lia.
    - destruct r as [|tr r1 r2]; [by apply elem_of_nil in Ht' |].
      specialize (Hrootr tr t' eq_refl Ht').
      assert (precedenceOf operatorTable t ≤ precedenceOf operatorTable tr)%Z;
        [| lia].
      destruct (Z.le_gt_cases (precedenceOf operatorTable t)
                  (precedenceOf operatorTable tr)) as [? | Hgt]; [done |].
      exfalso. apply (Hright tr eq_refl). left. lia. }
  split; [done |].
  intros r0 t' [= <-]. cbn [operatorsOf].
  intros [Ht' | [-> | Ht']%elem_of_cons]%elem_of_app;
    [apply Hin, elem_of_app; by left | lia | apply Hin, elem_of_app; by right].
Qed.

Lemma operatorsOf_inorder (T : binaryTree) :
  operatorsOf T = (inorder T).2.*1.
Proof.
  induction T as [a | t l IHl r IHr]; [reflexivity |].
  cbn [operatorsOf inorder snd]. rewrite fmap_app. cbn [fmap list_fmap fst].
  by rewrite IHl, IHr.
Qed.

Lemma nested_left_all (t0 : token) (l0 : binaryTree) :
  nested operatorTable l0 →
  (∀ tl, rootOperator l0 = Some tl → goesBefore operatorTable tl t0) →
  ∀ u, u ∈ operatorsOf l0 → goesBefore operatorTable u t0.
Proof.
  intros Hl0 Hroot u Hu.
  destruct l0 as [|l1 ll lr]; [by apply elem_of_nil in Hu |].
  destruct (nested_tighter _ Hl0) as [_ Hle].
  specialize (Hle l1 u eq_refl Hu).
  unfold goesBefore in *.
  destruct (Hroot l1 eq_refl) as [Hgt | [Heq Hra]]; [left; lia |].
  destruct (Z.eq_dec (precedenceOf operatorTable u)
              (precedenceOf operatorTable t0)) as [He | Hne];
    [right; by split | left; lia].
Qed.

(** In a nested tree, the operators of the left operand of a node go
    before the operator of the node, and the operator of the node goes
    before none of the operators of its right operand. *)
Lemma nested_sides (t : token) (l r : binaryTree) :
  nested operatorTable (Binary t l r) →
  (∀ u, u ∈ operatorsOf l → goesBefore operatorTable u t) ∧
  (∀ u, u ∈ operatorsOf r → ¬ goesBefore operatorTable t u).
Proof.
  revert t l. induction r as [b | r1 rl _ rr IHrr]; intros t l Hn.
  all: pose proof Hn as (Hl & Hr & Hleft & Hright).
  - split; [by apply nested_left_all |]. by intros u Hu%elem_of_nil.
  - split; [by apply nested_left_all |].
    cbn [operatorsOf]. intros u Hu Hgo.
    pose proof (Hright r1 eq_refl) as Hnot.
    destruct (IHrr r1 rl Hr) as [Hrl Hrr].
    apply elem_of_app in Hu as [Hu | [-> | Hu]%elem_of_cons].
    + pose proof (Hrl u Hu) as Hur1. apply Hnot.
      unfold goesBefore in *. destruct Hgo as [? | [? ?]];
        destruct Hur1 as [? | [? ?]];
        first [left; lia | right; split; [lia | done]].
    + done.
    + apply (Hrr u Hu). unfold goesBefore in *.
      assert (precedenceOf operatorTable t ≤ precedenceOf operatorTable r1)%Z.
      { destruct (Z.le_gt_cases (precedenceOf operatorTable t)
                    (precedenceOf operatorTable r1)) as [? | Hgt]; [done |].
        exfalso. apply Hnot. left. lia. }
      destruct Hgo as [Hgo | [Hgo1 Hgo2]]; [left; lia |].
      destruct (Z.eq_dec (precedenceOf operatorTable r1)
                  (precedenceOf operatorTable u)) as [He | Hne];
        [right; by split | left; lia].
Qed.

(** The nesting is the only one: two nested trees with the same operands
    and operators in the same order are the same tree. *)
Lemma nested_unique (T1 : binaryTree) :
  ∀ T2, nested operatorTable T1 → nested operatorTable T2 →
        inorder T1 = inorder T2 → T1 = T2.
Proof.
  induction T1 as [a | t l IHl r IHr]; intros T2 Hn1 Hn2 Hin.
  { destruct T2 as [a' | t' l' r']; [by injection Hin as -> |].
    cbn [inorder] in Hin. injection Hin as _ Hrest.
    by destruct ((inorder l').2). }
  destruct T2 as [a' | t' l' r'].
  { cbn [inorder] in Hin. injection Hin as _ Hrest.
    by destruct ((inorder l).2). }
  destruct (nested_sides t l r Hn1) as [Hl1 Hr1].
  destruct (nested_sides t' l' r' Hn2) as [Hl2 Hr2].
  cbn [inorder] in Hin. injection Hin as Hfirst Hrest.
  rewrite !operatorsOf_inorder in Hl1, Hr1, Hl2, Hr2.
  assert (Hsame : (inorder l).2 = (inorder l').2 →
                  (t, (inorder r).1) :: (inorder r).2
                  = (t', (inorder r').1) :: (inorder r').2 →
                  Binary t l r = Binary t' l' r').
  { intros Hl Hr. injection Hr as -> Hb Hr.
    destruct Hn1 as (Hnl & Hnr & _). destruct Hn2 as (Hnl' & Hnr' & _).
    f_equal.
    - apply IHl; [done | done |].
      destruct (inorder l), (inorder l'). simpl in *. congruence.
    - apply IHr; [done | done |].
      destruct (inorder r), (inorder r'). simpl in *. congruence. }
  apply app_eq_app in Hrest as (k & [[Hk1 Hk2] | [Hk1 Hk2]]).
  - destruct k as [|x k].
    + rewrite app_nil_r in Hk1. by apply Hsame.
    + cbn [app] in Hk2. injection Hk2 as Hx Hr. subst x.
      exfalso. apply (Hr2 t).
      * rewrite Hr, fmap_app. apply elem_of_app. right.
        apply list_elem_of_here.
      * apply Hl1. rewrite Hk1, fmap_app. apply elem_of_app. right.
        apply list_elem_of_here.
  - destruct k as [|x k].
    + rewrite app_nil_r in Hk1. by apply Hsame.
    + cbn [app] in Hk2. injection Hk2 as Hx Hr. subst x.
      exfalso. apply (Hr1 t').
      * rewrite Hr, fmap_app. apply elem_of_app. right.
        apply list_elem_of_here.
      * apply Hl2. rewrite Hk1, fmap_app. apply elem_of_app. right.
        apply list_elem_of_here.
Qed.

(** C6: a binary expression of any length, whatever the parser of the
    operands and the operator table.  The tree parseBinary returns holds
    the operands and the operators in the order of the source, and is
    nested by precedence and associativity: at each node, the operator at
    the root of the left operand is one that is reduced before the
    operator of the node is pushed (its precedence is strictly higher, or
    equal with the operator of the node left-associative), and the
    operator at the root of the right operand is one before which the
    operator of the node is not reduced.  So an operator never stands
    inside a node of strictly higher precedence, as in [a + b * c],
    parsed [a + (b * c)]; and the tree is the only one that is nested so
    over these operands and operators. *)
Theorem C6_precedence_nesting (p qf : parserState) (a : astNode)
    (rest : list (token * astNode)) :
  operandChain operatorTable operand p a rest qf →
  length rest < fuel →
  ∃ T,
    parseBinaryWith operatorTable fuel operand p = Ok (treeNode T, qf) ∧
    inorder T = (a, rest) ∧
    nested operatorTable T ∧
    tighterInside operatorTable T ∧
    ∀ T', inorder T' = (a, rest) → nested operatorTable T' → T' = T.
Proof.
  intros Hchain Hfuel.
  destruct (rounds_nested rest fuel p qf a [] None Hchain)
    as (T & HT & Hn & Hin); [done | done | done | done |].
  exists T. split; [by rewrite parseBinaryWith_rounds |].
  split; [done |]. split; [done |].
  split; [by apply nested_tighter |].
  intros T' Hin' Hn'. apply nested_unique; [done | done |].
  rewrite Hin'. symmetry. exact Hin.
Qed.

End BinaryNesting.

Lemma C6_precedence_nesting_witness :
  ∃ T,
    parseBinaryWith sampleTable 5 sampleOperand (mixedState 0 "a" tNAME)
    = Ok (treeNode T, mixedState 7 "" tEND_OF_INPUT) ∧
    inorder T
    = (makeNode g_NAME "a" [],
       [(tk tPLUS "+", makeNode g_NAME "b" []);
        (tk tMULT "*", makeNode g_NAME "c" []);
        (tk tMINUS "-", makeNode g_NAME "d" [])]) ∧
    nested sampleTable T ∧
    tighterInside sampleTable T ∧
    ∀ T',
      inorder T'
      = (makeNode g_NAME "a" [],
         [(tk tPLUS "+", makeNode g_NAME "b" []);
          (tk tMULT "*", makeNode g_NAME "c" []);
          (tk tMINUS "-", makeNode g_NAME "d" [])]) →
      nested sampleTable T' → T' = T.
Proof.
  apply (C6_precedence_nesting sampleTable sampleOperand 5
           (mixedState 0 "a" tNAME) (mixedState 7 "" tEND_OF_INPUT)
           (makeNode g_NAME "a" [])
           [(tk tPLUS "+", makeNode g_NAME "b" []);
            (tk tMULT "*", makeNode g_NAME "c" []);
            (tk tMINUS "-", makeNode g_NAME "d" [])]).
  - apply (operandChain_more sampleTable sampleOperand
             (mixedState 0 "a" tNAME) (makeNode g_NAME "a" [])
             (mixedState 1 "+" tPLUS) (Operator 13 false));
      [reflexivity.. |].
    apply (operandChain_more sampleTable sampleOperand
             (mixedState 2 "b" tNAME) (makeNode g_NAME "b" [])
             (mixedState 3 "*" tMULT) (Operator 14 false));
      [reflexivity.. |].
    apply (operandChain_more sampleTable sampleOperand
             (mixedState 4 "c" tNAME) (makeNode g_NAME "c" [])
             (mixedState 5 "-" tMINUS) (Operator 13 false));
      [reflexivity.. |].
    apply operandChain_last; [reflexivity | by left].
  - simpl. lia.
Defined.

(** [a + b * c - d] is [(a + (b * c)) - d]: the product is reduced, and
    then the sum, before the minus is pushed. *)
Example mixed_chain_parses :
  parseBinaryWith sampleTable 5 sampleOperand (mixedState 0 "a" tNAME)
  = Ok (makeNode g_EXPRESSION "-"
          [makeNode g_EXPRESSION "+"
             [makeNode g_NAME "a" [];
              makeNode g_EXPRESSION "*"
                [makeNode g_NAME "b" []; makeNode g_NAME "c" []]];
           makeNode g_NAME "d" []],
        mixedState 7 "" tEND_OF_INPUT).
Proof. vm_compute. reflexivity. Qed.
